(** * libtilt: DFT index utilities, symmetrised spectra, slice extraction, masks

    A shallow embedding of
      - [src/libtilt/utils/fft.py]
      - [src/libtilt/projection/fourier.py]
      - [src/libtilt/shapes/shapes_3d.py]

    Tensors are nested lists, indexed from 0; element values are exact
    complex rationals (the real and imaginary channel are canonical
    rationals), so every arithmetic identity below is an identity of the
    idealised real arithmetic the float code approximates.  Functions that
    raise in Python return [None]. *)

From Stdlib Require Import ZArith List Bool Lia Arith PeanoNat.
From Stdlib Require Import QArith Qcanon Qround.
Import ListNotations.

(** * Part I: the model *)

(** ** Complex values *)

Module Cplx.

#[local] Open Scope Qc_scope.

Record C : Type := mkC { re : Qc; im : Qc }.

Definition zero : C := mkC 0 0.
Definition one : C := mkC 1 0.
Definition add (a b : C) : C := mkC (re a + re b) (im a + im b).
Definition scale (k : Qc) (a : C) : C := mkC (k * re a) (k * im a).
Definition conj (a : C) : C := mkC (re a) (- im a).
Definition half : Qc := Q2Qc (1 # 2).

(** [0.5 * a + 0.5 * b], the averaging step of every desymmetrisation. *)
Definition avg (a b : C) : C := add (scale half a) (scale half b).

Definition eqb (a b : C) : bool :=
  Qeq_bool (re a) (re b) && Qeq_bool (im a) (im b).

End Cplx.

Import Cplx.

#[global] Open Scope nat_scope.

(** ** Python sequence helpers *)

Module Py.





(** A keyword argument with a default: [None] is the omitted argument. *)
Definition kwarg {A} (default : A) (given : option A) : A :=
  match given with Some x => x | None => default end.

End Py.

(** ** DFT indexing utilities ([utils/fft.py], lines 8-27) *)




(** ** Tensors

    A tensor of rank 2, 3 or 4 is a nested list, outermost axis first.  A
    rank-3 tensor is a batch of matrices for the 2D functions and a volume
    for the 3D ones, as in the source.  (An axis of length 0 is an empty
    list and carries no lengths for the axes inside it.) *)

Abbreviation vec := (list C) (only parsing).
Abbreviation mat := (list (list C)) (only parsing).
Abbreviation vol := (list (list (list C))) (only parsing).

Inductive tensor : Type :=
| T2 (m : mat)
| T3 (v : vol)
| T4 (b : list vol).

Module Tensor.

Definition ndim (t : tensor) : nat :=
  match t with T2 _ => 2 | T3 _ => 3 | T4 _ => 4 end.

Definition shape2 (m : mat) : list nat := [length m; length (hd [] m)].
Definition shape3 (v : vol) : list nat := length v :: shape2 (hd [] v).
Definition shape4 (b : list vol) : list nat := length b :: shape3 (hd [] b).

(** [t.shape] *)
Definition shape (t : tensor) : list nat :=
  match t with
  | T2 m => shape2 m
  | T3 v => shape3 v
  | T4 b => shape4 b
  end.

(** Rectangular nested lists of the given lengths. *)
Definition rect2 (h w : nat) (m : mat) : Prop :=
  length m = h /\ Forall (fun r => length r = w) m.
Definition rect3 (d h w : nat) (v : vol) : Prop :=
  length v = d /\ Forall (rect2 h w) v.

Definition get1 (r : vec) (j : nat) : C := nth j r zero.
Definition get2 (m : mat) (i j : nat) : C := get1 (nth i m []) j.
Definition get3 (v : vol) (k i j : nat) : C := get2 (nth k v []) i j.

Fixpoint mapi_from {A B} (f : nat -> A -> B) (k : nat) (l : list A) : list B :=
  match l with
  | [] => []
  | x :: t => f k x :: mapi_from f (S k) t
  end.

Definition mapi {A B} (f : nat -> A -> B) (l : list A) : list B :=
  mapi_from f 0 l.

Fixpoint mapM {A B} (f : A -> option B) (l : list A) : option (list B) :=
  match l with
  | [] => Some []
  | x :: t =>
      match f x, mapM f t with
      | Some y, Some ys => Some (y :: ys)
      | _, _ => None
      end
  end.

(** [torch.zeros((h, w))], [torch.zeros((d, h, w))] *)
Definition zeros2 (h w : nat) : mat := repeat (repeat zero w) h.
Definition zeros3 (d h w : nat) : vol := repeat (zeros2 h w) d.

(** Slice assignment [t[region] = value]: the entries of the region take
    the value computed for their index, all others are kept. *)
Definition assign2 (region : nat -> nat -> bool) (value : nat -> nat -> C)
  (m : mat) : mat :=
  mapi (fun i row =>
          mapi (fun j x => if region i j then value i j else x) row) m.

Definition assign3 (region : nat -> nat -> nat -> bool)
  (value : nat -> nat -> nat -> C) (v : vol) : vol :=
  mapi (fun k m => assign2 (region k) (value k) m) v.

(** Index into an axis of a right-hand side that is broadcast when its
    length is 1. *)
Definition bc (len j : nat) : nat := if len =? 1 then 0 else j.

(** A right-hand side axis of length [src] fits a target axis of length
    [dst] when the lengths agree or the source is broadcast. *)
Definition fits (src dst : nat) : bool := (src =? dst) || (src =? 1).

(** [torch.fft.fftshift] along one axis: roll by [n // 2]. *)
Definition fftshift {A} (l : list A) : list A :=
  let n := length l in
  skipn (n - n / 2) l ++ firstn (n - n / 2) l.

(** [torch.fft.ifftshift] along one axis: roll by [-(n // 2)]. *)
Definition ifftshift {A} (l : list A) : list A :=
  let n := length l in
  skipn (n / 2) l ++ firstn (n / 2) l.

(** [torch.flip(torch.conj(m), dims=(-2, -1))] *)
Definition flip_conj2 (m : mat) : mat :=
  rev (map (fun r => rev (map conj r)) m).

(** [torch.flip(torch.conj(v), dims=(-3, -2, -1))] *)
Definition flip_conj3 (v : vol) : vol := rev (map flip_conj2 v).

(** Column slices [m[:, c:]] and [m[:, :c]]. *)
Definition cols_from (c : nat) (m : mat) : mat := map (skipn c) m.
Definition cols_upto (c : nat) (m : mat) : mat := map (firstn c) m.

(** [m[:-1, :-1]] and [v[:-1, :-1, :-1]] *)
Definition drop_last2 (m : mat) : mat := removelast (map (@removelast C) m).
Definition drop_last3 (v : vol) : vol := removelast (map drop_last2 v).

End Tensor.

Import Tensor.

(** ** Symmetrised spectra: rfft -> symmetrised DFT ([utils/fft.py], 88-164) *)

(** The body of [rfft_to_symmetrised_dft_2d] on one [(r, w)] matrix of the
    (batch of) input(s). *)
Definition rfft_to_symmetrised_dft_2d_mat (r w : nat) (rfft : mat)
  : option mat :=
  let output := zeros2 (r + 1) (r + 1) in
  (* fftshift full length dims to center DC component *)
  let dc := r / 2 in
  let rfft := fftshift rfft in
  (* output[..., :-1, dc:] = rfft *)
  if negb (fits w (r + 1 - dc)) then None else
  let output :=
    assign2 (fun i j => (i <? r) && (dc <=? j))
            (fun i j => get2 rfft i (bc w (j - dc))) output in
  (* output[..., -1, dc:] = rfft[..., 0, :] *)
  if r =? 0 then None else
  let output :=
    assign2 (fun i j => (i =? r) && (dc <=? j))
            (fun i j => get2 rfft 0 (bc w (j - dc))) output in
  (* output[..., :, :dc] = flip(conj(output[..., :, dc + 1:]), dims=(-2, -1)) *)
  let src := flip_conj2 (cols_from (dc + 1) output) in
  if negb (fits (r - dc) dc) then None else
  Some (assign2 (fun i j => j <? dc)
                (fun i j => get2 src i (bc (r - dc) j)) output).

(** [rfft_to_symmetrised_dft_2d]: [output] is bound for [ndim] 2 and 3
    only. *)
Definition rfft_to_symmetrised_dft_2d (rfft : tensor) : option tensor :=
  match rfft with
  | T2 m =>
      option_map T2
        (rfft_to_symmetrised_dft_2d_mat (length m) (length (hd [] m)) m)
  | T3 b =>
      let r := length (hd [] b) in
      let w := length (hd [] (hd [] b)) in
      option_map T3 (mapM (rfft_to_symmetrised_dft_2d_mat r w) b)
  | T4 _ => None
  end.

(** The body of [rfft_to_symmetrised_dft_3d] on one [(r, h, w)] volume. *)
Definition rfft_to_symmetrised_dft_3d_vol (r h w : nat) (rfft : vol)
  : option vol :=
  let output := zeros3 (r + 1) (r + 1) (r + 1) in
  (* fftshift full length dims (i.e. not -1) to center DC component *)
  let rfft := fftshift (map (@fftshift vec) rfft) in
  let dc := r / 2 in
  (* output[..., :-1, :-1, dc:] = rfft *)
  if negb (fits h r && fits w (r + 1 - dc)) then None else
  let output :=
    assign3 (fun k i j => (k <? r) && (i <? r) && (dc <=? j))
            (fun k i j => get3 rfft k (bc h i) (bc w (j - dc))) output in
  (* output[..., :-1, -1, dc:] = rfft[..., :, 0, :] *)
  if h =? 0 then None else
  let output :=
    assign3 (fun k i j => (k <? r) && (i =? r) && (dc <=? j))
            (fun k i j => get3 rfft k 0 (bc w (j - dc))) output in
  (* output[..., -1, :-1, dc:] = rfft[..., 0, :, :] *)
  if r =? 0 then None else
  let output :=
    assign3 (fun k i j => (k =? r) && (i <? r) && (dc <=? j))
            (fun k i j => get3 rfft 0 (bc h i) (bc w (j - dc))) output in
  (* output[..., -1, -1, dc:] = rfft[..., 0, 0, :] *)
  let output :=
    assign3 (fun k i j => (k =? r) && (i =? r) && (dc <=? j))
            (fun k i j => get3 rfft 0 0 (bc w (j - dc))) output in
  (* output[..., :, :, :dc] =
       flip(conj(output[..., :, :, dc + 1:]), dims=(-3, -2, -1)) *)
  let src := flip_conj3 (map (cols_from (dc + 1)) output) in
  if negb (fits (r - dc) dc) then None else
  Some (assign3 (fun k i j => j <? dc)
                (fun k i j => get3 src k i (bc (r - dc) j)) output).

(** [rfft_to_symmetrised_dft_3d]: [rfft.shape[-3]] needs three axes;
    [output] is bound for [ndim] 3 and 4 only. *)
Definition rfft_to_symmetrised_dft_3d (rfft : tensor) : option tensor :=
  match rfft with
  | T2 _ => None
  | T3 v =>
      let r := length v in
      let h := length (hd [] v) in
      let w := length (hd [] (hd [] v)) in
      option_map T3 (rfft_to_symmetrised_dft_3d_vol r h w v)
  | T4 b =>
      let r := length (hd [] b) in
      let h := length (hd [] (hd [] b)) in
      let w := length (hd [] (hd [] (hd [] b))) in
      option_map T4 (mapM (rfft_to_symmetrised_dft_3d_vol r h w) b)
  end.

(** ** Buffers

    The desymmetrisation functions write into the tensor they are given.  A
    heap holds the tensors that are alive; a tensor argument is the location
    of its buffer, and a computation threads the heap and may raise. *)

Definition loc := nat.
Definition heap := list tensor.

Module St.

Definition M (A : Type) : Type := heap -> option (A * heap).

Definition ret {A} (x : A) : M A := fun h => Some (x, h).

Definition bind {A B} (m : M A) (k : A -> M B) : M B :=
  fun h => match m h with
           | Some (x, h') => k x h'
           | None => None
           end.

Definition raise {A} : M A := fun _ => None.

Definition lift {A} (o : option A) : M A :=
  fun h => match o with Some x => Some (x, h) | None => None end.

Fixpoint update {A} (l : list A) (n : nat) (x : A) : list A :=
  match l, n with
  | [], _ => []
  | _ :: t, 0 => x :: t
  | y :: t, S n' => y :: update t n' x
  end.

Definition load (l : loc) : M tensor :=
  fun h => match nth_error h l with
           | Some t => Some (t, h)
           | None => None
           end.

Definition store (l : loc) (t : tensor) : M unit :=
  fun h => match nth_error h l with
           | Some _ => Some (tt, update h l t)
           | None => None
           end.

(** A new buffer holding [t]. *)
Definition alloc (t : tensor) : M loc :=
  fun h => Some (length h, h ++ [t]).

(** [t.clone()] *)
Definition clone (l : loc) : M loc := bind (load l) alloc.

(** An in-place statement on the buffer at [l]. *)
Definition modify (l : loc) (f : tensor -> option tensor) : M unit :=
  bind (load l) (fun t => bind (lift (f t)) (store l)).

End St.

Notation "x <- m ;; k" := (St.bind m (fun x => k))
  (at level 61, m at next level, right associativity).
Notation "m ;;; k" := (St.bind m (fun _ => k))
  (at level 61, right associativity).

(** A statement on the last two axes, applied under the leading [...]. *)
Definition under2 (f : mat -> option mat) (t : tensor) : option tensor :=
  match t with
  | T2 m => option_map T2 (f m)
  | T3 v => option_map T3 (mapM f v)
  | T4 b => option_map T4 (mapM (mapM f) b)
  end.

(** A statement on the last three axes; a rank-2 tensor has too few. *)
Definition under3 (f : vol -> option vol) (t : tensor) : option tensor :=
  match t with
  | T2 _ => None
  | T3 v => option_map T3 (f v)
  | T4 b => option_map T4 (mapM f b)
  end.

(** [t.shape[-1]], [t.shape[-2]], [t.shape[-3]] *)
Definition width (t : tensor) : nat := last (shape t) 0.
Definition height (t : tensor) : nat := last (removelast (shape t)) 0.
Definition depth (t : tensor) : nat :=
  last (removelast (removelast (shape t))) 0.

(** ** Symmetrised DFT -> DFT ([utils/fft.py], 167-193 and 213-240) *)

(** [dft[..., :, 0] = (0.5 * dft[..., :, 0]) + (0.5 * dft[..., :, -1])] *)
Definition average_columns_mat (w : nat) (m : mat) : mat :=
  assign2 (fun _ j => j =? 0)
          (fun i _ => avg (get2 m i 0) (get2 m i (w - 1))) m.

Definition average_columns_2d (dft : tensor) : option tensor :=
  let w := width dft in
  if w =? 0 then None else
  under2 (fun m => Some (average_columns_mat w m)) dft.

(** [dft[..., 0, :] = (0.5 * dft[..., 0, :]) + (0.5 * dft[..., -1, :])] *)
Definition average_rows_mat (h : nat) (m : mat) : mat :=
  assign2 (fun i _ => i =? 0)
          (fun _ j => avg (get2 m 0 j) (get2 m (h - 1) j)) m.

Definition average_rows_2d (dft : tensor) : option tensor :=
  let h := height dft in
  if h =? 0 then None else
  under2 (fun m => Some (average_rows_mat h m)) dft.

Definition symmetrised_dft_to_dft_2d (dft : loc) (inplace : option bool)
  : St.M tensor :=
  (* inplace: bool = True *)
  let inplace := Py.kwarg true inplace in
  (* if inplace is False: dft = dft.clone() *)
  dft <- (if inplace then St.ret dft else St.clone dft) ;;
  St.modify dft average_columns_2d ;;;
  St.modify dft average_rows_2d ;;;
  (* return dft[..., :-1, :-1] *)
  t <- St.load dft ;;
  St.lift (under2 (fun m => Some (drop_last2 m)) t).

(** [dft[..., :, :, 0] = (0.5 * dft[..., :, :, 0]) + (0.5 * dft[..., :, :, -1])] *)
Definition average_last_vol (w : nat) (v : vol) : vol :=
  assign3 (fun _ _ j => j =? 0)
          (fun k i _ => avg (get3 v k i 0) (get3 v k i (w - 1))) v.

Definition average_last_3d (dft : tensor) : option tensor :=
  let w := width dft in
  if w =? 0 then None else
  under3 (fun v => Some (average_last_vol w v)) dft.

(** [dft[..., :, 0, :] = (0.5 * dft[..., :, 0, :]) + (0.5 * dft[..., :, -1, :])] *)
Definition average_middle_vol (h : nat) (v : vol) : vol :=
  assign3 (fun _ i _ => i =? 0)
          (fun k _ j => avg (get3 v k 0 j) (get3 v k (h - 1) j)) v.

Definition average_middle_3d (dft : tensor) : option tensor :=
  let h := height dft in
  if h =? 0 then None else
  under3 (fun v => Some (average_middle_vol h v)) dft.

(** [dft[..., 0, :, :] = (0.5 * dft[..., 0, :, :]) + (0.5 * dft[..., -1, :, :])] *)
Definition average_first_vol (d : nat) (v : vol) : vol :=
  assign3 (fun k _ _ => k =? 0)
          (fun _ i j => avg (get3 v 0 i j) (get3 v (d - 1) i j)) v.

Definition average_first_3d (dft : tensor) : option tensor :=
  let d := depth dft in
  if d =? 0 then None else
  under3 (fun v => Some (average_first_vol d v)) dft.

Definition symmetrised_dft_to_dft_3d (dft : loc) (inplace : option bool)
  : St.M tensor :=
  (* inplace: bool = True *)
  let inplace := Py.kwarg true inplace in
  (* if inplace is False: dft = dft.clone() *)
  dft <- (if inplace then St.ret dft else St.clone dft) ;;
  St.modify dft average_last_3d ;;;
  St.modify dft average_middle_3d ;;;
  St.modify dft average_first_3d ;;;
  (* return dft[..., :-1, :-1, :-1] *)
  t <- St.load dft ;;
  St.lift (under3 (fun v => Some (drop_last3 v)) t).

(** ** Symmetrised DFT -> rfft ([utils/fft.py], 196-210) *)

(** A tensor variable: a buffer, or the [(1, h, w)] view that
    [einops.rearrange(dft, 'h w -> 1 h w')] gives of a rank-2 buffer.  The
    view shares the buffer: a write through it lands in the buffer. *)
Inductive handle : Type :=
| Whole (l : loc)
| Batch1 (l : loc).

Definition load_handle (x : handle) : St.M tensor :=
  match x with
  | Whole l => St.load l
  | Batch1 l =>
      t <- St.load l ;;
      match t with
      | T2 m => St.ret (T3 [m])
      | _ => St.raise
      end
  end.

Definition store_handle (x : handle) (t : tensor) : St.M unit :=
  match x with
  | Whole l => St.store l t
  | Batch1 l =>
      match t with
      | T3 [m] => St.store l (T2 m)
      | _ => St.raise
      end
  end.

(** [torch.clone(x)]: a new buffer with the contents seen through [x]. *)
Definition clone_handle (x : handle) : St.M handle :=
  t <- load_handle x ;;
  l <- St.alloc t ;;
  St.ret (Whole l).

Definition modify_handle (x : handle) (f : tensor -> option tensor)
  : St.M unit :=
  t <- load_handle x ;;
  t' <- St.lift (f t) ;;
  store_handle x t'.

(** [rfft[..., :, r:] *= 0.5] *)
Definition halve_right_mat (r : nat) (m : mat) : mat :=
  assign2 (fun _ j => r <=? j) (fun i j => scale half (get2 m i j)) m.

Definition halve_right (r : nat) (rfft : tensor) : option tensor :=
  under2 (fun m => Some (halve_right_mat r m)) rfft.

(** [rfft[..., :, r:] +=
       0.5 * torch.flip(torch.conj(rfft[..., :, :dc]), dims=(-2, -1))] *)
Definition add_half_mirror_mat (ws dc r : nat) (m : mat) : mat :=
  let src := flip_conj2 (cols_upto dc m) in
  assign2 (fun _ j => r <=? j)
          (fun i j => add (get2 m i j)
                          (scale half (get2 src i (bc ws (j - r))))) m.

(** The slice [:dc] of an axis of length [w] has [min dc w] entries. *)
Definition add_half_mirror (dc r : nat) (rfft : tensor) : option tensor :=
  let w := width rfft in
  let ws := Nat.min dc w in
  if negb (fits ws (w - r)) then None else
  under2 (fun m => Some (add_half_mirror_mat ws dc r m)) rfft.

(** [rfft[..., 0, r:] = (0.5 * rfft[..., 0, r:]) + (0.5 * rfft[..., -1, r:])] *)
Definition average_nyquist_rows_mat (h r : nat) (m : mat) : mat :=
  assign2 (fun i j => (i =? 0) && (r <=? j))
          (fun _ j => avg (get2 m 0 j) (get2 m (h - 1) j)) m.

Definition average_nyquist_rows (r : nat) (rfft : tensor) : option tensor :=
  let h := height rfft in
  if h =? 0 then None else
  under2 (fun m => Some (average_nyquist_rows_mat h r m)) rfft.

(** [torch.fft.ifftshift(rfft[..., :-1, dc:], dim=-2)] *)
Definition unshifted_right_half_mat (dc : nat) (m : mat) : mat :=
  ifftshift (cols_from dc (removelast m)).

Definition unshifted_right_half (dc : nat) (rfft : tensor) : option tensor :=
  under2 (fun m => Some (unshifted_right_half_mat dc m)) rfft.

Definition symmetrised_dft_to_rfft_2d (dft : loc) (inplace : option bool)
  : St.M tensor :=
  (* inplace: bool = True *)
  let inplace := Py.kwarg true inplace in
  t <- St.load dft ;;
  (* if dft.ndim == 2: dft = einops.rearrange(dft, 'h w -> 1 h w') *)
  let dft := if ndim t =? 2 then Batch1 dft else Whole dft in
  t <- load_handle dft ;;
  (* _, h, w = dft.shape *)
  match shape t with
  | [_; h; w] =>
      let dc := h / 2 in
      let r := dc + 1 in
      (* rfft = dft if inplace is True else torch.clone(dft) *)
      rfft <- (if inplace then St.ret dft else clone_handle dft) ;;
      (* average hermitian symmetric halves *)
      modify_handle rfft (halve_right r) ;;;
      modify_handle rfft (add_half_mirror dc r) ;;;
      (* average leftover redundant nyquist *)
      modify_handle rfft (average_nyquist_rows r) ;;;
      (* return without redundant nyquist *)
      t <- load_handle rfft ;;
      St.lift (unshifted_right_half dc t)
  | _ => St.raise
  end.

(** ** Reference descriptions used in the statements *)

(** Entry [(i, j)] of the symmetrised spectrum built from the shifted rfft
    [xs] of side [r]: the right half holds [xs], with its row 0 repeated as
    row [r]; the left half is the conjugate of the point reflection. *)
Definition sym2_right (xs : mat) (r i j : nat) : C :=
  get2 xs (if i =? r then 0 else i) (j - r / 2).

Definition sym2_entry (xs : mat) (r i j : nat) : C :=
  if r / 2 <=? j then sym2_right xs r i j
  else conj (sym2_right xs r (r - i) (r - j)).

(** [S] is the symmetrised spectrum of side [r] built from the shifted
    rfft [xs]. *)
Definition symmetrised (xs : mat) (r : nat) (S : mat) : Prop :=
  rect2 (r + 1) (r + 1) S
  /\ forall i j, i <= r -> j <= r -> get2 S i j = sym2_entry xs r i j.

(** Every matrix of a (batch of) tensor(s) satisfies [P]; batches are not
    empty. *)
Definition batch_of (P : mat -> Prop) (t : tensor) : Prop :=
  match t with
  | T2 m => P m
  | T3 v => v <> [] /\ Forall P v
  | T4 b => b <> [] /\ Forall (fun v => v <> [] /\ Forall P v) b
  end.

(** The values of a 2D input seen with a leading batch axis. *)
Definition as_batch (t : tensor) : tensor :=
  match t with
  | T2 m => T3 [m]
  | _ => t
  end.

(** What can be stored through a handle: anything into a buffer, one
    matrix through the [(1, h, w)] view of a rank-2 buffer. *)
Definition handle_accepts (x : handle) (t : tensor) : Prop :=
  match x with
  | Whole _ => True
  | Batch1 _ => exists m, t = T3 [m]
  end.

(** The round trip: symmetrise an rfft, then hand the result to
    [symmetrised_dft_to_rfft_2d] as a new tensor. *)
Definition round_trip_2d (X : tensor) (inplace : option bool)
  : St.M tensor :=
  S <- St.lift (rfft_to_symmetrised_dft_2d X) ;;
  dft <- St.alloc S ;;
  symmetrised_dft_to_rfft_2d dft inplace.

(** ** Concrete inputs for the examples *)

Definition cz (a b : Z) : C := mkC (Q2Qc (a # 1)) (Q2Qc (b # 1)).

(** A [(4, 3)] rfft-shaped matrix (signal side 4). *)
Definition example_rfft_4 : mat :=
  [ [cz 1 0; cz 2 1; cz 3 0];
    [cz 4 1; cz 5 2; cz 6 3];
    [cz 7 0; cz 8 4; cz 9 0];
    [cz 10 5; cz 11 6; cz 12 7] ].

(** The three averaging statements of [symmetrised_dft_to_rfft_2d] on one
    matrix of shape [(h, w)], with [dc = h // 2]. *)
Definition fold_mat (h w : nat) (m : mat) : mat :=
  let dc := h / 2 in
  let r := dc + 1 in
  average_nyquist_rows_mat h r
    (add_half_mirror_mat (Nat.min dc w) dc r (halve_right_mat r m)).

(** A [(5, 5)] symmetrised-DFT-shaped matrix without any symmetry. *)
Definition example_dft_5 : mat :=
  [ [cz 1 1; cz 2 0; cz 3 0; cz 4 0; cz 5 2];
    [cz 6 0; cz 7 3; cz 8 0; cz 9 0; cz 10 0];
    [cz 11 0; cz 12 0; cz 13 0; cz 14 4; cz 15 0];
    [cz 16 0; cz 17 5; cz 18 0; cz 19 0; cz 20 0];
    [cz 21 6; cz 22 0; cz 23 0; cz 24 0; cz 25 7] ].

(** Every volume of a (batch of) tensor(s) satisfies [P]; a rank-2 tensor
    holds no volume. *)
Definition volumes_of (P : vol -> Prop) (t : tensor) : Prop :=
  match t with
  | T2 _ => False
  | T3 v => P v
  | T4 b => b <> [] /\ Forall P b
  end.

(** Hermitian symmetry of the reconstructed half of an [(N+1)^3] spectrum:
    left of the DC column, an entry is the conjugate of the entry at the
    point-reflected index. *)
Definition hermitian_left_half (N : nat) (out : vol) : Prop :=
  rect3 (N + 1) (N + 1) (N + 1) out
  /\ forall z y x, z <= N -> y <= N -> x < N / 2 ->
       get3 out z y x = conj (get3 out (N - z) (N - y) (N - x)).

(** A [(2, 2, 2)] rfft-shaped volume (signal side 2). *)
Definition example_rfft_222 : vol :=
  [ [ [cz 1 0; cz 2 1]; [cz 3 2; cz 4 0] ];
    [ [cz 5 3; cz 6 0]; [cz 7 0; cz 8 4] ] ].

(** A function on matrices (volumes) applied under the leading axes. *)
Definition map2d (g : mat -> mat) (t : tensor) : tensor :=
  match t with
  | T2 m => T2 (g m)
  | T3 v => T3 (map g v)
  | T4 b => T4 (map (map g) b)
  end.

Definition map3d (g : vol -> vol) (t : tensor) : tensor :=
  match t with
  | T2 m => T2 m
  | T3 v => T3 (g v)
  | T4 b => T4 (map g b)
  end.

(** Two tensors of the same rank and batch layout whose matrices (volumes)
    are related one by one. *)
Definition rel_under2 (R : mat -> mat -> Prop) (t t' : tensor) : Prop :=
  match t, t' with
  | T2 m, T2 m' => R m m'
  | T3 v, T3 v' => Forall2 R v v'
  | T4 b, T4 b' => Forall2 (Forall2 R) b b'
  | _, _ => False
  end.

Definition rel_under3 (R : vol -> vol -> Prop) (t t' : tensor) : Prop :=
  match t, t' with
  | T3 v, T3 v' => R v v'
  | T4 b, T4 b' => Forall2 R b b'
  | _, _ => False
  end.

(** The desymmetrised 2D DFT as the claim words it.  Column axis first:
    column 0 becomes the average of columns 0 and [N]; then row 0 becomes
    the average of rows 0 and [N] of the column-averaged array. *)
Definition desym2_columns (m : mat) (N i j : nat) : C :=
  if j =? 0 then avg (get2 m i 0) (get2 m i N) else get2 m i j.

Definition desym2_entry (m : mat) (N i j : nat) : C :=
  if i =? 0 then avg (desym2_columns m N 0 j) (desym2_columns m N N j)
  else desym2_columns m N i j.

Definition desym2_of (N : nat) (m out : mat) : Prop :=
  rect2 N N out
  /\ forall i j, i < N -> j < N -> get2 out i j = desym2_entry m N i j.

(** The same in 3D, in axis order last, middle, first. *)
Definition desym3_last (v : vol) (N k i j : nat) : C :=
  if j =? 0 then avg (get3 v k i 0) (get3 v k i N) else get3 v k i j.

Definition desym3_middle (v : vol) (N k i j : nat) : C :=
  if i =? 0 then avg (desym3_last v N k 0 j) (desym3_last v N k N j)
  else desym3_last v N k i j.

Definition desym3_entry (v : vol) (N k i j : nat) : C :=
  if k =? 0 then avg (desym3_middle v N 0 i j) (desym3_middle v N N i j)
  else desym3_middle v N k i j.

Definition desym3_of (N : nat) (v out : vol) : Prop :=
  rect3 N N N out
  /\ forall k i j, k < N -> i < N -> j < N ->
       get3 out k i j = desym3_entry v N k i j.

(** A [(3, 3, 3)] symmetrised-DFT-shaped volume. *)
Definition example_dft_333 : vol :=
  [ [ [cz 1 1; cz 2 0; cz 3 0]; [cz 4 0; cz 5 2; cz 6 0];
      [cz 7 0; cz 8 0; cz 9 3] ];
    [ [cz 10 0; cz 11 4; cz 12 0]; [cz 13 0; cz 14 0; cz 15 5];
      [cz 16 6; cz 17 0; cz 18 0] ];
    [ [cz 19 0; cz 20 0; cz 21 7]; [cz 22 8; cz 23 0; cz 24 0];
      [cz 25 0; cz 26 9; cz 27 0] ] ].


(** The handle under which [symmetrised_dft_to_rfft_2d] works on the
    buffer at [l] that holds [t], and its three averaging statements in
    order, for a view of height [h]. *)
Definition rfft_view (l : loc) (t : tensor) : handle :=
  if ndim t =? 2 then Batch1 l else Whole l.

Definition fold_statements (h : nat) (t : tensor) : option tensor :=
  let dc := h / 2 in
  let r := dc + 1 in
  match halve_right r t with
  | None => None
  | Some t1 =>
      match add_half_mirror dc r t1 with
      | None => None
      | Some t2 => average_nyquist_rows r t2
      end
  end.


Definition only_written (h h' : heap) (l : loc) : Prop :=
  length h' = length h
  /\ forall l', l' <> l -> nth_error h' l' = nth_error h l'.

(** Entry [(i, j)] of the rank-2 buffer at [l], for the examples. *)
Definition buffer_entry (h : heap) (l : loc) (i j : nat) : option C :=
  match nth_error h l with
  | Some (T2 m) => Some (get2 m i j)
  | _ => None
  end.

(** The heap a call leaves behind. *)
Definition heap_after {A} (r : option (A * heap)) : heap :=
  match r with Some (_, h') => h' | None => [] end.

Definition entry_is (o : option C) (c : C) : bool :=
  match o with Some x => Cplx.eqb x c | None => false end.

(** ** Central-slice extraction ([projection/fourier.py])

    Coordinates and frequencies are exact rationals; a point of a
    [(..., 3)] array is its three entries along the last axis. *)

Record point : Type := mkPoint { c0 : Qc; c1 : Qc; c2 : Qc }.

Module Grid.

#[local] Open Scope Qc_scope.

Definition ltb (a b : Qc) : bool :=
  match a ?= b with Lt => true | _ => false end.

Definition gtb (a b : Qc) : bool := ltb b a.

Definition map3 {A B} (f : A -> B) (t : list (list (list A)))
  : list (list (list B)) :=
  map (map (map f)) t.

Fixpoint zipWith {A B D} (f : A -> B -> D) (a : list A) (b : list B)
  : list D :=
  match a, b with
  | x :: a', y :: b' => f x y :: zipWith f a' b'
  | _, _ => []
  end.

Definition zipWith3 {A B D} (f : A -> B -> D)
  (a : list (list (list A))) (b : list (list (list B)))
  : list (list (list D)) :=
  zipWith (zipWith (zipWith f)) a b.

(** [p * -1] on every entry of a point. *)
Definition neg (p : point) : point := mkPoint (- c0 p) (- c1 p) (- c2 p).

(** [torch.view_as_real]: the real and the imaginary channel. *)
Definition real_channel (dft : list (list (list C))) : list (list (list Qc)) :=
  map3 re dft.
Definition imag_channel (dft : list (list (list C))) : list (list (list Qc)) :=
  map3 im dft.

End Grid.

Section SliceExtraction.

(** The sampling primitive [F.grid_sample] on one channel and one grid
    point ([mode='bilinear'], [padding_mode='border'],
    [align_corners=True]), and the converter [array_to_grid_sample]
    (imported from [libtilt.utils.coordinates], not part of the sources)
    on one point and the shape of the sampled array. *)
Variable grid_sample : list (list (list Qc)) -> point -> Qc.
Variable array_to_grid_sample : point -> list nat -> point.

(** [torch.all(torch.logical_or(g > 0, g < 1), dim=-1)] at one grid point *)
Definition inside_test (g : point) : bool :=
  forallb (fun c => Grid.gtb c 0%Qc || Grid.ltb c 1%Qc) [c0 g; c1 g; c2 g].

(** [extract_slices]: the two channels are sampled at the converted
    coordinates, the samples whose [inside] flag is false are multiplied by
    0 in both channels, and the channels are joined again. *)
Definition extract_slices (dft : vol) (slice_coordinates : list (list (list point)))
  : list (list (list C)) :=
  let array_shape := Tensor.shape (T3 dft) in
  let slice_coordinates :=
    Grid.map3 (fun p => array_to_grid_sample p array_shape)
              slice_coordinates in
  let samples_re :=
    Grid.map3 (grid_sample (Grid.real_channel dft)) slice_coordinates in
  let samples_im :=
    Grid.map3 (grid_sample (Grid.imag_channel dft)) slice_coordinates in
  (* zero out samples from outside of cube *)
  let inside := Grid.map3 inside_test slice_coordinates in
  let zero_outside (ins : bool) (s : Qc) : Qc :=
    if negb ins then (s * 0)%Qc else s in
  let samples_re := Grid.zipWith3 zero_outside inside samples_re in
  let samples_im := Grid.zipWith3 zero_outside inside samples_im in
  Grid.zipWith3 mkC samples_re samples_im.

(** The converter [fftfreq_to_dft_coordinates] (imported from
    [libtilt.utils.fft], not defined in the sources) on one point, with the
    image shape and the [rfft] flag. *)
Variable fftfreq_to_dft_coordinates : point -> list nat -> bool -> point.

(** [project], from the rotated frequency grid to the conjugate-corrected
    samples (lines 121-153): the transform before and the inverse transform
    after are left out. *)
Definition project_samples (dft : vol) (image_shape : list nat)
  (grid : list (list (list point))) : list (list (list C)) :=
  (* in_redundant_half_mask = grid[..., 2] < 0 *)
  let in_redundant_half_mask :=
    Grid.map3 (fun p => Grid.ltb (c2 p) 0%Qc) grid in
  (* in_redundant_half_mask = einops.repeat(.., '... -> ... 3') *)
  let in_redundant_half_mask :=
    Grid.map3 (fun m : bool => (m, m, m)) in_redundant_half_mask in
  (* grid[in_redundant_half_mask] *= -1 *)
  let grid :=
    Grid.zipWith3
      (fun (m : bool * bool * bool) p =>
         let '(m0, m1, m2) := m in
         mkPoint (if m0 then (c0 p * Qcopp 1)%Qc else c0 p)
                 (if m1 then (c1 p * Qcopp 1)%Qc else c1 p)
                 (if m2 then (c2 p * Qcopp 1)%Qc else c2 p))
      in_redundant_half_mask grid in
  let grid :=
    Grid.map3 (fun p => fftfreq_to_dft_coordinates p image_shape true) grid in
  (* sample slices from DFT *)
  let projections := extract_slices dft grid in
  (* projections[mask[..., 0]] = torch.conj(projections[mask[..., 0]]) *)
  Grid.zipWith3
    (fun (m : bool * bool * bool) v => if fst (fst m) then conj v else v)
    in_redundant_half_mask projections.

End SliceExtraction.

(** *** The two primitives of [extract_slices], for the examples *)

Module Torch.

#[local] Open Scope Qc_scope.

Definition of_Z (z : Z) : Qc := Q2Qc (inject_Z z).
Definition of_nat (n : nat) : Qc := of_Z (Z.of_nat n).

Definition min (a b : Qc) : Qc := if Grid.ltb a b then a else b.
Definition max (a b : Qc) : Qc := if Grid.ltb a b then b else a.

(** [align_corners=True]: -1 and 1 are the centres of the first and the
    last sample. *)
Definition unnormalize (g : Qc) (size : nat) : Qc :=
  ((g + 1) / (1 + 1)) * (of_nat size - 1).

(** [padding_mode='border']: the coordinate is clipped to the array. *)
Definition clip (x : Qc) (size : nat) : Qc := min (max x 0) (of_nat size - 1).

(** An entry of one channel; a corner outside the array counts 0. *)
Definition entry (ch : list (list (list Qc))) (iz iy ix : Z) : Qc :=
  if ((iz <? 0) || (iy <? 0) || (ix <? 0))%Z then 0
  else nth (Z.to_nat ix) (nth (Z.to_nat iy) (nth (Z.to_nat iz) ch []) []) 0.

(** Trilinear interpolation of one channel at one grid point.  The grid
    point is ordered as the library orders it: entry 0 addresses the last
    axis of the array, entry 2 the first. *)
Definition grid_sample (ch : list (list (list Qc))) (g : point) : Qc :=
  let d := length ch in
  let h := length (hd [] ch) in
  let w := length (hd [] (hd [] ch)) in
  let x := clip (unnormalize (c0 g) w) w in
  let y := clip (unnormalize (c1 g) h) h in
  let z := clip (unnormalize (c2 g) d) d in
  let x0 := Qfloor x in
  let y0 := Qfloor y in
  let z0 := Qfloor z in
  let tx := x - of_Z x0 in
  let ty := y - of_Z y0 in
  let tz := z - of_Z z0 in
  let corner (dz dy dx : bool) : Qc :=
    (if dz then tz else 1 - tz) * (if dy then ty else 1 - ty)
    * (if dx then tx else 1 - tx)
    * entry ch (if dz then z0 + 1 else z0)%Z (if dy then y0 + 1 else y0)%Z
            (if dx then x0 + 1 else x0)%Z in
  corner false false false + corner false false true
  + corner false true false + corner false true true
  + corner true false false + corner true false true
  + corner true true false + corner true true true.

End Torch.

(** Modelled from the spec: [array_to_grid_sample] is imported from
    [libtilt.utils.coordinates], which is not part of the sources.  The
    spec has it remap every axis linearly from [[0, N-1]] to [[-1, 1]],
    for the length [N] of that axis. *)
Definition array_to_grid_sample_spec (p : point) (array_shape : list nat)
  : point :=
  let remap (c : Qc) (n : nat) : Qc :=
    (c / (Torch.of_nat n - 1) * (1 + 1) - 1)%Qc in
  mkPoint (remap (c0 p) (nth 0 array_shape 0))
          (remap (c1 p) (nth 1 array_shape 0))
          (remap (c2 p) (nth 2 array_shape 0)).

(** A [(2, 2, 2)] DFT whose entries are all [1 + 0i], and one output pixel
    whose array coordinate [(5, 5, 5)] is outside [[0, 1]] on every axis. *)
Definition example_dft_ones : vol :=
  repeat (repeat (repeat one 2) 2) 2.

Definition example_outside_coordinates : list (list (list point)) :=
  [ [ [ mkPoint (Torch.of_Z 5) (Torch.of_Z 5) (Torch.of_Z 5) ] ] ].

(** ** Shape masks ([shapes/shapes_3d.py], lines 31-53) *)

(** [image_shape: tuple[int, int, int] | int] *)
Inductive image_shape_arg : Type :=
| Side (n : nat)
| Sides (d h w : nat).

(** Modelled from the spec: [dft_center] is imported from
    [libtilt.utils.fft] but the file under [src/] defines no function of
    that name; the spec gives the default centre the DC index rule of the
    shifted, non-reduced case, [floor(L/2)] on every axis. *)
Definition dft_center (image_shape : nat * nat * nat) : point :=
  let '(d, h, w) := image_shape in
  mkPoint (Torch.of_nat (d / 2)) (Torch.of_nat (h / 2)) (Torch.of_nat (w / 2)).

(** Modelled from the spec: [coordinate_grid] is imported from
    [libtilt.grids], which is not part of the sources.  Without [norm] it
    returns, for every voxel, its index minus the centre, in the axis order
    of the image shape. *)
Definition coordinate_grid (image_shape : nat * nat * nat) (center : point)
  : list (list (list point)) :=
  let '(d, h, w) := image_shape in
  map (fun z =>
    map (fun y =>
      map (fun x =>
        mkPoint (Torch.of_nat z - c0 center)%Qc
                (Torch.of_nat y - c1 center)%Qc
                (Torch.of_nat x - c2 center)%Qc)
        (seq 0 w))
      (seq 0 h))
    (seq 0 d).

Section Cuboid.

(** The smoothing of [add_soft_edge_3d] for a radius other than 0, which
    the spec leaves open. *)
Variable soft_edge : list (list (list bool)) -> Qc -> list (list (list Qc)).

(** Modelled from the spec: [add_soft_edge_3d] is imported from
    [libtilt.shapes.soft_edge], which is not part of the sources.  A
    smoothing radius of 0 returns the mask unchanged, cast to 0/1. *)
Definition add_soft_edge_3d (mask : list (list (list bool)))
  (smoothing_radius : Qc) : list (list (list Qc)) :=
  if Qc_eq_bool smoothing_radius 0%Qc
  then Grid.map3 (fun b : bool => if b then 1%Qc else 0%Qc) mask
  else soft_edge mask smoothing_radius.

Definition cuboid (dimensions : Qc * Qc * Qc) (image_shape : image_shape_arg)
  (center : option point) (smoothing_radius : Qc)
  : list (list (list Qc)) :=
  (* if isinstance(image_shape, int): image_shape = (image_shape,) * 3 *)
  let image_shape :=
    match image_shape with
    | Side n => (n, n, n)
    | Sides d h w => (d, h, w)
    end in
  (* if center is None: center = dft_center(image_shape, ...) *)
  let center :=
    match center with
    | Some c => c
    | None => dft_center image_shape
    end in
  let coordinates := coordinate_grid image_shape center in
  let '(dim0, dim1, dim2) := dimensions in
  let two := (1 + 1)%Qc in
  let dd := (dim0 / two)%Qc in
  let dh := (dim1 / two)%Qc in
  let dw := (dim2 / two)%Qc in
  let depth_mask :=
    Grid.map3 (fun p => Grid.gtb (c0 p) (- dh)%Qc && Grid.ltb (c0 p) dh)
              coordinates in
  let height_mask :=
    Grid.map3 (fun p => Grid.gtb (c1 p) (- dw)%Qc && Grid.ltb (c1 p) dw)
              coordinates in
  let width_mask :=
    Grid.map3 (fun p => Grid.gtb (c2 p) (- dw)%Qc && Grid.ltb (c2 p) dw)
              coordinates in
  (* mask = torch.all(rearrange([depth_mask, height_mask, width_mask]), -1) *)
  let mask :=
    Grid.zipWith3 andb (Grid.zipWith3 andb depth_mask height_mask)
                  width_mask in
  add_soft_edge_3d mask smoothing_radius.

End Cuboid.

(** The mask of the claim: 1 exactly where every offset lies strictly
    inside the half dimension of its own axis. *)
Definition cuboid_claimed (dimensions : Qc * Qc * Qc) (offset : point) : Qc :=
  let '(dim0, dim1, dim2) := dimensions in
  let two := (1 + 1)%Qc in
  let within (c dim : Qc) : bool :=
    Grid.gtb c (- (dim / two))%Qc && Grid.ltb c (dim / two)%Qc in
  if within (c0 offset) dim0 && within (c1 offset) dim1
     && within (c2 offset) dim2
  then 1%Qc else 0%Qc.

(** Entry [(z, y, x)] of a real-valued mask. *)
Definition mask_entry (m : list (list (list Qc))) (z y x : nat) : Qc :=
  nth x (nth y (nth z m []) []) 0%Qc.

(** Dimensions [(8, 2, 2)] in an image of side 8, hard edge. *)
Definition example_dimensions : Qc * Qc * Qc :=
  (Torch.of_Z 8, Torch.of_Z 2, Torch.of_Z 2).

(** The value [extract_slices] returns for one array coordinate. *)
Definition sample_one (grid_sample : list (list (list Qc)) -> point -> Qc)
  (array_to_grid_sample : point -> list nat -> point)
  (dft : vol) (q : point) : C :=
  nth 0 (nth 0 (nth 0 (extract_slices grid_sample array_to_grid_sample
                         dft [[[q]]]) []) []) zero.

(** What [cuboid] tests at a voxel with the given offset from the centre:
    the depth offset against half of [dimensions[1]], the height and the
    width offset against half of [dimensions[2]]. *)
Definition cuboid_computed (dimensions : Qc * Qc * Qc) (offset : point) : Qc :=
  let '(dim0, dim1, dim2) := dimensions in
  let two := (1 + 1)%Qc in
  let within (c dim : Qc) : bool :=
    Grid.gtb c (- (dim / two))%Qc && Grid.ltb c (dim / two)%Qc in
  if within (c0 offset) dim1 && within (c1 offset) dim2
     && within (c2 offset) dim2
  then 1%Qc else 0%Qc.

(** The offset of voxel [(z, y, x)] from the centre. *)
Definition voxel_offset (center : point) (z y x : nat) : point :=
  mkPoint (Torch.of_nat z - c0 center)%Qc (Torch.of_nat y - c1 center)%Qc
          (Torch.of_nat x - c2 center)%Qc.

(** ** Further properties: statement-level descriptions *)

(** Layout of a symmetrised 2D spectrum [S] of side [N] built from the rfft
    [X]: the right half of the first [N] rows is the shifted rfft, row [N]
    repeats row 0, and away from the DC column an entry is the conjugate
    of the entry at the point-reflected index. *)
Definition sym2_layout (N : nat) (X S : mat) : Prop :=
  rect2 (N + 1) (N + 1) S
  /\ (forall i j, i < N -> j <= N / 2 ->
        get2 S i (N / 2 + j) = get2 (fftshift X) i j)
  /\ (forall j, j <= N -> get2 S N j = get2 S 0 j)
  /\ (forall i j, i <= N -> j <= N -> j <> N / 2 ->
        get2 S i j = conj (get2 S (N - i) (N - j))).

(** Symmetrise, then desymmetrise with [symmetrised_dft_to_dft_2d]. *)
Definition symmetrise_then_desymmetrise_2d (X : tensor)
  (inplace : option bool) : St.M tensor :=
  S <- St.lift (rfft_to_symmetrised_dft_2d X) ;;
  dft <- St.alloc S ;;
  symmetrised_dft_to_dft_2d dft inplace.

(** The full shifted DFT of side [N] rebuilt from the shifted rfft [xs]:
    the stored half as it is, the other half as the conjugate of the
    mirrored entry (row [N - i], taken modulo [N]), and in column 0 the
    average of the Nyquist column and its conjugated mirror. *)
Definition mirror_row (N i : nat) : nat := if i =? 0 then 0 else N - i.

Definition full_dft_entry (xs : mat) (N i j : nat) : C :=
  let dc := N / 2 in
  if dc <=? j then get2 xs i (j - dc)
  else if j =? 0
       then avg (conj (get2 xs (mirror_row N i) dc)) (get2 xs i dc)
       else conj (get2 xs (mirror_row N i) (dc - j)).

Definition full_dft_of (N : nat) (X out : mat) : Prop :=
  rect2 N N out
  /\ forall i j, i < N -> j < N ->
       get2 out i j = full_dft_entry (fftshift X) N i j.

(** A [(3, 2)] rfft-shaped matrix and a [(3, 3, 2)] rfft-shaped volume
    (signal side 3). *)
Definition example_rfft_3 : mat :=
  [ [cz 1 0; cz 2 1]; [cz 3 1; cz 4 0]; [cz 5 2; cz 6 3] ].

Definition example_rfft_332 : vol :=
  [ example_rfft_3; example_rfft_3; example_rfft_3 ].

(** The same in 3D, for the shifted rfft [xs] of a cube of side [r]: the
    index [r] of a full axis wraps to 0. *)
Definition wrap (r a : nat) : nat := if a =? r then 0 else a.

Definition sym3_right (xs : vol) (r k i j : nat) : C :=
  get3 xs (wrap r k) (wrap r i) (j - r / 2).

Definition sym3_entry (xs : vol) (r k i j : nat) : C :=
  if r / 2 <=? j then sym3_right xs r k i j
  else conj (sym3_right xs r (r - k) (r - i) (r - j)).

Definition symmetrised3 (xs : vol) (r : nat) (S : vol) : Prop :=
  rect3 (r + 1) (r + 1) (r + 1) S
  /\ forall k i j, k <= r -> i <= r -> j <= r ->
       get3 S k i j = sym3_entry xs r k i j.

(** [torch.fft.fftshift(rfft, dim=(-3, -2))] *)
Definition fftshift3 (X : vol) : vol := fftshift (map (@fftshift (list C)) X).

(** Layout of a symmetrised 3D spectrum [S] of side [N] built from the
    rfft [X]. *)
Definition sym3_layout (N : nat) (X S : vol) : Prop :=
  rect3 (N + 1) (N + 1) (N + 1) S
  /\ (forall k i j, k < N -> i < N -> j <= N / 2 ->
        get3 S k i (N / 2 + j) = get3 (fftshift3 X) k i j)
  /\ (forall i j, i <= N -> j <= N -> get3 S N i j = get3 S 0 i j)
  /\ (forall k j, k <= N -> j <= N -> get3 S k N j = get3 S k 0 j)
  /\ (forall k i j, k <= N -> i <= N -> j <= N -> j <> N / 2 ->
        get3 S k i j = conj (get3 S (N - k) (N - i) (N - j))).

Definition symmetrise_then_desymmetrise_3d (X : tensor)
  (inplace : option bool) : St.M tensor :=
  S <- St.lift (rfft_to_symmetrised_dft_3d X) ;;
  dft <- St.alloc S ;;
  symmetrised_dft_to_dft_3d dft inplace.

Definition full_dft3_entry (xs : vol) (N k i j : nat) : C :=
  let dc := N / 2 in
  if dc <=? j then get3 xs k i (j - dc)
  else if j =? 0
       then avg (conj (get3 xs (mirror_row N k) (mirror_row N i) dc))
                (get3 xs k i dc)
       else conj (get3 xs (mirror_row N k) (mirror_row N i) (dc - j)).

Definition full_dft3_of (N : nat) (X out : vol) : Prop :=
  rect3 N N N out
  /\ forall k i j, k < N -> i < N -> j < N ->
       get3 out k i j = full_dft3_entry (fftshift3 X) N k i j.

(** The value [symmetrised_dft_to_rfft_2d] returns, as a function of the
    contents [t] of the buffer it is given. *)
Definition rfft_2d_value (t : tensor) : option tensor :=
  let tv := match t with T2 m => T3 [m] | _ => t end in
  match Tensor.shape tv with
  | [_; h; w] =>
      match fold_statements h tv with
      | Some t3 => unshifted_right_half (h / 2) t3
      | None => None
      end
  | _ => None
  end.

(** The values the other two desymmetrisations return. *)
Definition dft_2d_value (t : tensor) : option tensor :=
  match average_columns_2d t with
  | Some t1 =>
      match average_rows_2d t1 with
      | Some t2 => under2 (fun m => Some (drop_last2 m)) t2
      | None => None
      end
  | None => None
  end.

Definition dft_3d_value (t : tensor) : option tensor :=
  match average_last_3d t with
  | Some t1 =>
      match average_middle_3d t1 with
      | Some t2 =>
          match average_first_3d t2 with
          | Some t3 => under3 (fun v => Some (drop_last3 v)) t3
          | None => None
          end
      | None => None
      end
  | None => None
  end.

(** The value of a call, without the heap it leaves. *)
Definition value_of {A} (r : option (A * heap)) : option A :=
  option_map fst r.


(** A [(4, 4)] square matrix: not the shape of a symmetrised spectrum. *)
Definition example_square_4 : mat :=
  [ [cz 1 0; cz 2 0; cz 3 0; cz 4 0];
    [cz 5 0; cz 6 0; cz 7 0; cz 8 0];
    [cz 9 0; cz 10 0; cz 11 0; cz 12 0];
    [cz 13 0; cz 14 0; cz 15 0; cz 16 0] ].

(** The rotated grid of [project] after [grid[in_redundant_half_mask] *= -1]
    (lines 122-124). *)
Definition redirected_grid (grid : list (list (list point)))
  : list (list (list point)) :=
  let in_redundant_half_mask :=
    Grid.map3 (fun m : bool => (m, m, m))
              (Grid.map3 (fun p => Grid.ltb (c2 p) 0%Qc) grid) in
  Grid.zipWith3
    (fun (m : bool * bool * bool) p =>
       let '(m0, m1, m2) := m in
       mkPoint (if m0 then (c0 p * Qcopp 1)%Qc else c0 p)
               (if m1 then (c1 p * Qcopp 1)%Qc else c1 p)
               (if m2 then (c2 p * Qcopp 1)%Qc else c2 p))
    in_redundant_half_mask grid.

(** Every entry of a three-level array satisfies [P]. *)
Definition all3 {A} (P : A -> Prop) (t : list (list (list A))) : Prop :=
  Forall (Forall (Forall P)) t.

(** A small rotated grid with points on both sides of the stored half. *)
Definition example_grid : list (list (list point)) :=
  [ [ [ mkPoint (Torch.of_Z 1) (Torch.of_Z (-2)) (Torch.of_Z 3);
        mkPoint (Torch.of_Z 0) (Torch.of_Z 1) (Torch.of_Z (-1)) ];
      [ mkPoint (Torch.of_Z (-1)) (Torch.of_Z 0) (Torch.of_Z (-2));
        mkPoint (Torch.of_Z 2) (Torch.of_Z 2) (Torch.of_Z 1) ] ] ].


(** The image shape and the centre [cuboid] works with after its two
    defaulting statements (lines 38-41). *)
Definition resolved_shape (image_shape : image_shape_arg) : nat * nat * nat :=
  match image_shape with
  | Side n => (n, n, n)
  | Sides d h w => (d, h, w)
  end.

Definition resolved_center (image_shape : image_shape_arg)
  (center : option point) : point :=
  match center with
  | Some c => c
  | None => dft_center (resolved_shape image_shape)
  end.

(** [-bound < c < bound] *)
Definition strictly_within (c bound : Qc) : Prop :=
  (- bound < c)%Qc /\ (c < bound)%Qc.


(** ** Centred index grids ([utils/fft.py], lines 243-286)

    These functions work at any rank.  An array of any rank is a nested
    list; an index grid, of shape [(..., c)] in the source, is an array
    over the positions whose entries are the index vectors along [c], so
    the two layouts ['c ...'] and ['... c'] are one value here and the
    [einops.rearrange] calls between them are identities. *)

#[warnings="-register-all"]
Inductive ndarray (A : Type) : Type :=
| Item (a : A)
| Axis (l : list (ndarray A)).

Arguments Item {A} a.
Arguments Axis {A} l.

Module Nd.

Fixpoint map {A B} (f : A -> B) (t : ndarray A) : ndarray B :=
  match t with
  | Item a => Item (f a)
  | Axis l => Axis (List.map (map f) l)
  end.




(** [torch.fft.ifftshift(t, dim=dims)] on an array of the given rank, for
    negative axis numbers: axis [-m] is the axis with [m] axes from it to
    the last one. *)
Fixpoint ifftshift {A} (dims : list Z) (rank : nat) (t : ndarray A)
  : ndarray A :=
  match rank, t with
  | S rank', Axis l =>
      let l := List.map (ifftshift dims rank') l in
      Axis (if existsb (Z.eqb (- Z.of_nat rank)) dims
            then Tensor.ifftshift l else l)
  | _, _ => t
  end.

End Nd.




Section IndexGrid.

(** [torch.fft.ifftshift] called with an empty tuple of axes, which the
    sources do not settle. *)
Variable ifftshift_no_dims : ndarray (list Z) -> option (ndarray (list Z)).


End IndexGrid.










(** ** Frequency grids ([utils/fft.py], lines 30-55) *)

(** The two sample-frequency primitives, as the library documents them,
    with exact quotients. *)
Module TorchFft.



End TorchFft.




(** The fold of a square matrix [m] of side [N + 1] back to an rfft, entry
    by entry.  [hermitian_average] is the mean of an entry and the
    conjugate of its point reflection; the result row [i'] reads row
    [(i' + N // 2) mod N] of [m], its column 0 is the DC column of [m] as it
    is, and in the other columns row 0 of [m] is averaged with row [N]. *)
Definition hermitian_average (m : mat) (N i j : nat) : C :=
  avg (get2 m i j) (conj (get2 m (N - i) (N - j))).

Definition folded_entry (m : mat) (N i' j' : nat) : C :=
  let k := N / 2 in
  let i := (i' + k) mod N in
  let j := k + j' in
  if j' =? 0 then get2 m i k
  else if i =? 0
       then avg (hermitian_average m N 0 j) (hermitian_average m N N j)
       else hermitian_average m N i j.

Definition folded_of (N : nat) (m out : mat) : Prop :=
  rect2 N (N / 2 + 1) out
  /\ forall i' j', i' < N -> j' <= N / 2 ->
       get2 out i' j' = folded_entry m N i' j'.

(* End of Part I. *)

(** * Part II: properties *)

(** ** Complex arithmetic *)

Lemma Qc_eqb_eq (x y : Qc) : Qeq_bool x y = true <-> x = y.
Proof.
  split.
  - intro H. apply Qc_is_canon. now apply Qeq_bool_iff.
  - intros ->. apply Qeq_bool_iff. reflexivity.
Qed.

Lemma Cplx_eqb_eq (a b : C) : Cplx.eqb a b = true <-> a = b.
Proof.
  destruct a as [ar ai], b as [br bi]; unfold Cplx.eqb; cbn [re im].
  rewrite andb_true_iff, !Qc_eqb_eq. split.
  - intros [-> ->]. reflexivity.
  - intro H. injection H. auto.
Qed.

Lemma half_double (x : Qc) : (half * x + half * x = x)%Qc.
Proof.
  assert (H : (half + half = 1)%Qc) by (apply Qc_is_canon; reflexivity).
  rewrite <- Qcmult_plus_distr_l, H. ring.
Qed.

Lemma avg_same (a : C) : avg a a = a.
Proof.
  destruct a as [r i]. unfold avg, add, scale. cbn [re im].
  now rewrite !half_double.
Qed.

Lemma conj_conj (a : C) : conj (conj a) = a.
Proof.
  destruct a as [r i]. unfold conj. cbn [re im]. f_equal. ring.
Qed.

(** ** Sequence helpers *)




(** ** rfft shape and DC index *)






(** ** Nested lists: lengths and entries *)

Lemma length_mapi_from {A B} (f : nat -> A -> B) (l : list A) (k : nat) :
  length (mapi_from f k l) = length l.
Proof.
  revert k. induction l as [|x l IH]; intro k; cbn; [reflexivity|].
  now rewrite IH.
Qed.

Lemma nth_mapi_from {A B} (f : nat -> A -> B) (l : list A) (k i : nat)
  (d : A) (d' : B) :
  i < length l -> nth i (mapi_from f k l) d' = f (k + i) (nth i l d).
Proof.
  revert k i. induction l as [|x l IH]; intros k i Hi; cbn in Hi; [lia|].
  destruct i as [|i]; cbn.
  - now rewrite Nat.add_0_r.
  - rewrite (IH (S k) i) by lia. f_equal. lia.
Qed.

Lemma length_mapi {A B} (f : nat -> A -> B) (l : list A) :
  length (mapi f l) = length l.
Proof. apply length_mapi_from. Qed.

Lemma nth_mapi {A B} (f : nat -> A -> B) (l : list A) (i : nat)
  (d : A) (d' : B) :
  i < length l -> nth i (mapi f l) d' = f i (nth i l d).
Proof. intro Hi. unfold mapi. now rewrite (nth_mapi_from f l 0 i d d' Hi). Qed.

Lemma Forall_nth_len {A} (P : A -> Prop) (l : list A) (i : nat) (d : A) :
  Forall P l -> i < length l -> P (nth i l d).
Proof. intros HF Hi. rewrite Forall_forall in HF. apply HF, nth_In, Hi. Qed.

Lemma Forall_mapi {A B} (P : B -> Prop) (f : nat -> A -> B) (l : list A) :
  (forall i x, In x l -> P (f i x)) -> Forall P (mapi f l).
Proof.
  unfold mapi. generalize 0.
  induction l as [|x l IH]; intros k H; cbn; constructor.
  - apply H. now left.
  - apply IH. intros i y Hy. apply H. now right.
Qed.

Lemma rect2_row (h w : nat) (m : mat) (i : nat) :
  rect2 h w m -> i < h -> length (nth i m []) = w.
Proof.
  intros [Hl HF] Hi.
  apply (Forall_nth_len (fun r => length r = w) m i [] HF). lia.
Qed.

Lemma rect3_slab (d h w : nat) (v : vol) (k : nat) :
  rect3 d h w v -> k < d -> rect2 h w (nth k v []).
Proof.
  intros [Hl HF] Hk. apply (Forall_nth_len (rect2 h w) v k [] HF). lia.
Qed.

Lemma rect2_assign2 (h w : nat) region value (m : mat) :
  rect2 h w m -> rect2 h w (assign2 region value m).
Proof.
  intros [Hl HF]. split; unfold assign2.
  - now rewrite length_mapi.
  - apply Forall_mapi. intros i x Hx. rewrite length_mapi.
    rewrite Forall_forall in HF. now apply HF.
Qed.

Lemma get2_assign2 (h w : nat) region value (m : mat) (i j : nat) :
  rect2 h w m -> i < h -> j < w ->
  get2 (assign2 region value m) i j
  = if region i j then value i j else get2 m i j.
Proof.
  intros Hm Hi Hj. unfold get2, get1, assign2.
  assert (Hr := rect2_row h w m i Hm Hi). destruct Hm as [Hl _].
  rewrite (nth_mapi _ m i [] []) by lia.
  rewrite (nth_mapi _ (nth i m []) j zero zero) by lia.
  reflexivity.
Qed.

Lemma rect3_assign3 (d h w : nat) region value (v : vol) :
  rect3 d h w v -> rect3 d h w (assign3 region value v).
Proof.
  intros [Hl HF]. split; unfold assign3.
  - now rewrite length_mapi.
  - apply Forall_mapi. intros i x Hx. apply rect2_assign2.
    rewrite Forall_forall in HF. now apply HF.
Qed.

Lemma get3_assign3 (d h w : nat) region value (v : vol) (k i j : nat) :
  rect3 d h w v -> k < d -> i < h -> j < w ->
  get3 (assign3 region value v) k i j
  = if region k i j then value k i j else get3 v k i j.
Proof.
  intros Hv Hk Hi Hj. unfold get3, assign3.
  assert (Hs := rect3_slab d h w v k Hv Hk). destruct Hv as [Hl _].
  rewrite (nth_mapi _ v k [] []) by lia.
  now rewrite (get2_assign2 h w _ _ _ i j Hs Hi Hj).
Qed.

Lemma rect2_zeros2 (h w : nat) : rect2 h w (zeros2 h w).
Proof.
  split; unfold zeros2.
  - apply repeat_length.
  - apply Forall_forall. intros r Hr. apply repeat_spec in Hr. subst r.
    apply repeat_length.
Qed.

Lemma rect3_zeros3 (d h w : nat) : rect3 d h w (zeros3 d h w).
Proof.
  split; unfold zeros3.
  - apply repeat_length.
  - apply Forall_forall. intros r Hr. apply repeat_spec in Hr. subst r.
    apply rect2_zeros2.
Qed.

Lemma mat_ext (h w : nat) (a b : mat) :
  rect2 h w a -> rect2 h w b ->
  (forall i j, i < h -> j < w -> get2 a i j = get2 b i j) -> a = b.
Proof.
  intros Ha Hb H.
  apply (nth_ext a b [] []).
  - destruct Ha, Hb. congruence.
  - intros i Hi. assert (Hi' : i < h) by (destruct Ha; lia).
    apply (nth_ext _ _ zero zero).
    + now rewrite (rect2_row h w a i Ha Hi'), (rect2_row h w b i Hb Hi').
    + intros j Hj. rewrite (rect2_row h w a i Ha Hi') in Hj. now apply H.
Qed.

Lemma vol_ext (d h w : nat) (a b : vol) :
  rect3 d h w a -> rect3 d h w b ->
  (forall k i j, k < d -> i < h -> j < w -> get3 a k i j = get3 b k i j) ->
  a = b.
Proof.
  intros Ha Hb H.
  apply (nth_ext a b [] []).
  - destruct Ha, Hb. congruence.
  - intros k Hk. assert (Hk' : k < d) by (destruct Ha; lia).
    apply (mat_ext h w _ _ (rect3_slab d h w a k Ha Hk') (rect3_slab d h w b k Hb Hk')).
    intros i j Hi Hj. now apply H.
Qed.

Lemma get1_nil (j : nat) : get1 [] j = zero.
Proof. unfold get1. now destruct j. Qed.

Lemma get2_zeros2 (h w i j : nat) : get2 (zeros2 h w) i j = zero.
Proof.
  unfold get2, zeros2.
  destruct (Nat.lt_ge_cases i h) as [Hi|Hi].
  - rewrite nth_repeat_lt by exact Hi. unfold get1.
    destruct (Nat.lt_ge_cases j w) as [Hj|Hj].
    + now rewrite nth_repeat_lt.
    + apply nth_overflow. now rewrite repeat_length.
  - rewrite nth_overflow by (now rewrite repeat_length). apply get1_nil.
Qed.

Lemma get3_zeros3 (d h w k i j : nat) : get3 (zeros3 d h w) k i j = zero.
Proof.
  unfold get3, zeros3.
  destruct (Nat.lt_ge_cases k d) as [Hk|Hk].
  - rewrite nth_repeat_lt by exact Hk. apply get2_zeros2.
  - rewrite nth_overflow by (now rewrite repeat_length).
    unfold get2. destruct i; apply get1_nil.
Qed.

(** *** Shifts *)

Lemma length_fftshift {A} (l : list A) : length (fftshift l) = length l.
Proof.
  unfold fftshift. rewrite length_app, length_skipn, length_firstn.
  assert (length l / 2 <= length l) by (apply Nat.Div0.div_le_upper_bound; lia).
  lia.
Qed.

(** [ifftshift] undoes [fftshift], for every length. *)
Lemma ifftshift_fftshift {A} (l : list A) : ifftshift (fftshift l) = l.
Proof.
  unfold ifftshift. rewrite length_fftshift. unfold fftshift.
  remember (length l) as n eqn:En. remember (n / 2) as s eqn:Es.
  assert (Hs : s <= n) by (subst s; apply Nat.Div0.div_le_upper_bound; lia).
  assert (Hlen : length (skipn (n - s) l) = s)
    by (rewrite length_skipn; lia).
  assert (E1 : skipn s (skipn (n - s) l) = [])
    by (apply skipn_all2; lia).
  assert (E2 : firstn s (skipn (n - s) l) = skipn (n - s) l)
    by (apply firstn_all2; lia).
  rewrite skipn_app, firstn_app, Hlen, Nat.sub_diag, E1, E2.
  cbn [skipn firstn app]. rewrite app_nil_r. apply firstn_skipn.
Qed.

Lemma Forall_firstn_skipn {A} (P : A -> Prop) (n : nat) (l : list A) :
  Forall P l -> Forall P (firstn n l) /\ Forall P (skipn n l).
Proof.
  intro H. apply Forall_app. now rewrite firstn_skipn.
Qed.

Lemma Forall_fftshift {A} (P : A -> Prop) (l : list A) :
  Forall P l -> Forall P (fftshift l).
Proof.
  intro H. unfold fftshift. apply Forall_app.
  destruct (Forall_firstn_skipn P (length l - length l / 2) l H). now split.
Qed.

Lemma rect2_fftshift (h w : nat) (m : mat) :
  rect2 h w m -> rect2 h w (fftshift m).
Proof.
  intros [Hl HF]. split.
  - now rewrite length_fftshift.
  - now apply Forall_fftshift.
Qed.

(** *** Flips and slices *)

Lemma nth_map_nil {A B} (f : list A -> list B) (m : list (list A)) (i : nat) :
  f [] = [] -> nth i (map f m) [] = f (nth i m []).
Proof.
  intro H. transitivity (nth i (map f m) (f [])).
  - now rewrite H.
  - apply map_nth.
Qed.

Lemma rect2_flip_conj2 (h w : nat) (m : mat) :
  rect2 h w m -> rect2 h w (flip_conj2 m).
Proof.
  intros [Hl HF]. split; unfold flip_conj2.
  - now rewrite length_rev, length_map.
  - apply Forall_rev, Forall_map.
    eapply Forall_impl; [|exact HF].
    intros r Hr. cbn. now rewrite length_rev, length_map.
Qed.

Lemma get2_flip_conj2 (h w : nat) (m : mat) (i j : nat) :
  rect2 h w m -> i < h -> j < w ->
  get2 (flip_conj2 m) i j = conj (get2 m (h - 1 - i) (w - 1 - j)).
Proof.
  intros Hm Hi Hj. unfold get2, get1, flip_conj2.
  assert (Hl : length m = h) by apply Hm.
  rewrite rev_nth by (rewrite length_map; lia).
  rewrite length_map, Hl.
  replace (h - S i) with (h - 1 - i) by lia.
  rewrite (nth_map_nil (fun r => rev (map conj r))) by reflexivity.
  assert (Hr := rect2_row h w m (h - 1 - i) Hm ltac:(lia)).
  rewrite rev_nth by (rewrite length_map; lia).
  rewrite length_map, Hr.
  replace (w - S j) with (w - 1 - j) by lia.
  rewrite (nth_indep _ zero (conj zero)) by (rewrite length_map; lia).
  apply map_nth.
Qed.

Lemma rect2_cols_from (h w c : nat) (m : mat) :
  rect2 h w m -> rect2 h (w - c) (cols_from c m).
Proof.
  intros [Hl HF]. split; unfold cols_from.
  - now rewrite length_map.
  - apply Forall_map. eapply Forall_impl; [|exact HF].
    intros r Hr. cbn in *. rewrite length_skipn. lia.
Qed.

Lemma get2_cols_from (c : nat) (m : mat) (i j : nat) :
  get2 (cols_from c m) i j = get2 m i (c + j).
Proof.
  unfold get2, get1, cols_from.
  rewrite nth_map_nil by apply skipn_nil. apply nth_skipn.
Qed.

Lemma rect2_cols_upto (h w c : nat) (m : mat) :
  rect2 h w m -> c <= w -> rect2 h c (cols_upto c m).
Proof.
  intros [Hl HF] Hc. split; unfold cols_upto.
  - now rewrite length_map.
  - apply Forall_map. eapply Forall_impl; [|exact HF].
    intros r Hr. cbn in *. rewrite length_firstn. lia.
Qed.

Lemma get2_cols_upto (c : nat) (m : mat) (i j : nat) :
  j < c -> get2 (cols_upto c m) i j = get2 m i j.
Proof.
  intro Hj. unfold get2, get1, cols_upto.
  rewrite nth_map_nil by apply firstn_nil. rewrite nth_firstn.
  apply Nat.ltb_lt in Hj. now rewrite Hj.
Qed.

Lemma nth_removelast {A} (l : list A) (i : nat) (d : A) :
  i < length l - 1 -> nth i (removelast l) d = nth i l d.
Proof.
  intro Hi. rewrite removelast_firstn_len, nth_firstn.
  replace (i <? pred (length l)) with true; [reflexivity|].
  symmetry. apply Nat.ltb_lt. lia.
Qed.

Lemma length_removelast' {A} (l : list A) :
  length (removelast l) = length l - 1.
Proof.
  rewrite removelast_firstn_len, length_firstn. lia.
Qed.

Lemma Forall_removelast {A} (P : A -> Prop) (l : list A) :
  Forall P l -> Forall P (removelast l).
Proof.
  intro H. rewrite removelast_firstn_len.
  now apply Forall_firstn_skipn.
Qed.

Lemma rect2_removelast (h w : nat) (m : mat) :
  rect2 h w m -> rect2 (h - 1) w (removelast m).
Proof.
  intros [Hl HF]. split.
  - rewrite length_removelast'. lia.
  - now apply Forall_removelast.
Qed.

Lemma rect2_drop_last2 (h w : nat) (m : mat) :
  rect2 h w m -> rect2 (h - 1) (w - 1) (drop_last2 m).
Proof.
  intros [Hl HF]. split; unfold drop_last2.
  - rewrite length_removelast', length_map. lia.
  - apply Forall_removelast, Forall_map.
    eapply Forall_impl; [|exact HF].
    intros r Hr. cbn in *. rewrite length_removelast'. lia.
Qed.

Lemma get2_drop_last2 (h w : nat) (m : mat) (i j : nat) :
  rect2 h w m -> i < h - 1 -> j < w - 1 ->
  get2 (drop_last2 m) i j = get2 m i j.
Proof.
  intros Hm Hi Hj. unfold get2, get1, drop_last2.
  assert (Hl : length m = h) by apply Hm.
  rewrite nth_removelast by (rewrite length_map; lia).
  rewrite nth_map_nil by reflexivity.
  apply nth_removelast.
  rewrite (rect2_row h w m i Hm) by lia. exact Hj.
Qed.

(** ** The symmetrised 2D spectrum, entry by entry *)

Lemma even_half (r : nat) : Nat.Even r -> exists k, r = 2 * k /\ r / 2 = k.
Proof.
  intros [k Hk]. exists k. split; [exact Hk|].
  subst r. rewrite Nat.mul_comm. apply Nat.div_mul. lia.
Qed.

Lemma rfft_to_symmetrised_dft_2d_mat_spec (r : nat) (X : mat) :
  0 < r -> Nat.Even r -> rect2 r (r / 2 + 1) X ->
  exists S,
    rfft_to_symmetrised_dft_2d_mat r (r / 2 + 1) X = Some S
    /\ rect2 (r + 1) (r + 1) S
    /\ forall i j, i <= r -> j <= r ->
         get2 S i j = sym2_entry (fftshift X) r i j.
Proof.
  intros Hr He HX. destruct (even_half r He) as [k [Hk Hdc]].
  unfold rfft_to_symmetrised_dft_2d_mat. rewrite Hdc.
  assert (Hk1 : 1 <= k) by lia.
  assert (G1 : fits (k + 1) (r + 1 - k) = true).
  { unfold fits. replace (r + 1 - k) with (k + 1) by lia.
    now rewrite Nat.eqb_refl. }
  assert (G2 : (r =? 0) = false) by (apply Nat.eqb_neq; lia).
  assert (G3 : fits (r - k) k = true).
  { unfold fits. replace (r - k) with k by lia. now rewrite Nat.eqb_refl. }
  rewrite G1, G2, G3. cbn [negb].
  set (xs := fftshift X).
  set (O1 := assign2 _ _ (zeros2 (r + 1) (r + 1))).
  set (O2 := assign2 _ _ O1).
  assert (HO1 : rect2 (r + 1) (r + 1) O1)
    by apply rect2_assign2, rect2_zeros2.
  assert (HO2 : rect2 (r + 1) (r + 1) O2) by now apply rect2_assign2.
  assert (Hbc : forall x, bc (k + 1) x = x).
  { intro x. unfold bc. replace (k + 1 =? 1) with false; [reflexivity|].
    symmetry. apply Nat.eqb_neq. lia. }
  assert (A : forall i j, i <= r -> k <= j -> j <= r ->
                get2 O2 i j = sym2_right xs r i j).
  { intros i j Hi Hkj Hj. unfold O2, O1, sym2_right.
    rewrite (get2_assign2 (r + 1) (r + 1)) by (trivial; lia).
    rewrite (get2_assign2 (r + 1) (r + 1))
      by (try apply rect2_zeros2; lia).
    rewrite Hdc, !Hbc.
    replace (k <=? j) with true by (symmetry; apply Nat.leb_le; lia).
    rewrite !andb_true_r.
    destruct (Nat.eqb_spec i r) as [->|Hne]; [reflexivity|].
    replace (i <? r) with true by (symmetry; apply Nat.ltb_lt; lia).
    reflexivity. }
  eexists. split; [reflexivity|]. split; [now apply rect2_assign2|].
  intros i j Hi Hj.
  rewrite (get2_assign2 (r + 1) (r + 1)) by (trivial; lia).
  unfold sym2_entry. rewrite Hdc.
  destruct (Nat.ltb_spec j k) as [Hlt|Hge].
  - replace (k <=? j) with false by (symmetry; apply Nat.leb_gt; lia).
    assert (Hb : bc (r - k) j = j \/ (j = 0 /\ bc (r - k) j = 0)).
    { unfold bc. destruct (r - k =? 1) eqn:E; [right|now left].
      apply Nat.eqb_eq in E. split; [lia|reflexivity]. }
    assert (Hb' : bc (r - k) j = j) by (destruct Hb as [?|[? ?]]; congruence).
    rewrite Hb'.
    rewrite (get2_flip_conj2 (r + 1) (r + 1 - (k + 1)))
      by (try apply rect2_cols_from; trivial; lia).
    rewrite get2_cols_from. f_equal.
    replace (r + 1 - 1 - i) with (r - i) by lia.
    replace (k + 1 + (r + 1 - (k + 1) - 1 - j)) with (r - j) by lia.
    apply A; lia.
  - replace (k <=? j) with true by (symmetry; apply Nat.leb_le; lia).
    apply A; lia.
Qed.

(** ** Folding the symmetrised spectrum back *)

Lemma add_halves (a : C) : add (scale half a) (scale half a) = a.
Proof. apply avg_same. Qed.

Lemma sym2_right_nyquist (xs : mat) (r j : nat) :
  sym2_right xs r 0 j = sym2_right xs r r j.
Proof.
  unfold sym2_right. rewrite Nat.eqb_refl. now destruct (0 =? r).
Qed.

(** On a spectrum that came out of the forward symmetrisation, the three
    averaging statements of [symmetrised_dft_to_rfft_2d] restore every
    entry. *)
Lemma mirror_average_id (xs : mat) (k : nat) (S : mat) :
  1 <= k -> symmetrised xs (2 * k) S ->
  average_nyquist_rows_mat (2 * k + 1) (k + 1)
    (add_half_mirror_mat k k (k + 1) (halve_right_mat (k + 1) S)) = S.
Proof.
  intros Hk [HS HE]. set (r := 2 * k) in *.
  assert (Hdc : r / 2 = k).
  { unfold r. rewrite Nat.mul_comm. apply Nat.div_mul. lia. }
  set (M1 := halve_right_mat (k + 1) S).
  assert (HM1 : rect2 (r + 1) (r + 1) M1) by now apply rect2_assign2.
  assert (E1 : forall i j, i <= r -> j <= r ->
     get2 M1 i j = if k + 1 <=? j then scale half (get2 S i j)
                   else get2 S i j).
  { intros i j Hi Hj. unfold M1, halve_right_mat.
    now rewrite (get2_assign2 (r + 1) (r + 1)) by (trivial; lia). }
  set (M2 := add_half_mirror_mat k k (k + 1) M1).
  assert (HM2 : rect2 (r + 1) (r + 1) M2) by now apply rect2_assign2.
  assert (E2 : forall i j, i <= r -> j <= r -> get2 M2 i j = get2 S i j).
  { intros i j Hi Hj. unfold M2, add_half_mirror_mat.
    rewrite (get2_assign2 (r + 1) (r + 1)) by (trivial; lia).
    rewrite E1 by lia.
    destruct (Nat.leb_spec (k + 1) j) as [Hge|Hlt]; [|reflexivity].
    assert (Hb : bc k (j - (k + 1)) = j - (k + 1)).
    { unfold bc. destruct (Nat.eqb_spec k 1) as [->|_]; [|reflexivity].
      unfold r in Hj. lia. }
    rewrite Hb.
    rewrite (get2_flip_conj2 (r + 1) k)
      by (try (apply (rect2_cols_upto (r + 1) (r + 1)); trivial); lia).
    rewrite get2_cols_upto by lia.
    rewrite E1 by lia.
    replace (k + 1 <=? k - 1 - (j - (k + 1))) with false
      by (symmetry; apply Nat.leb_gt; lia).
    rewrite (HE (r + 1 - 1 - i)) by lia.
    unfold sym2_entry. rewrite Hdc.
    replace (k <=? k - 1 - (j - (k + 1))) with false
      by (symmetry; apply Nat.leb_gt; lia).
    rewrite conj_conj.
    replace (r - (r + 1 - 1 - i)) with i by lia.
    replace (r - (k - 1 - (j - (k + 1)))) with j by (unfold r; lia).
    rewrite (HE i j) by lia. unfold sym2_entry. rewrite Hdc.
    replace (k <=? j) with true by (symmetry; apply Nat.leb_le; lia).
    apply add_halves. }
  apply (mat_ext (r + 1) (r + 1)); [now apply rect2_assign2|exact HS|].
  intros i j Hi Hj. unfold average_nyquist_rows_mat.
  rewrite (get2_assign2 (r + 1) (r + 1)) by (trivial; lia).
  destruct ((i =? 0) && (k + 1 <=? j)) eqn:E; [|apply E2; lia].
  apply andb_true_iff in E. destruct E as [Ei Ej].
  apply Nat.eqb_eq in Ei. apply Nat.leb_le in Ej. subst i.
  rewrite !E2 by lia. rewrite !HE by lia. unfold sym2_entry. rewrite Hdc.
  replace (k <=? j) with true by (symmetry; apply Nat.leb_le; lia).
  replace (r + 1 - 1) with r by lia.
  rewrite <- sym2_right_nyquist. apply avg_same.
Qed.

(** The right half of a symmetrised spectrum, without its last row, is the
    shifted rfft it was built from. *)
Lemma right_half_is_shifted (xs : mat) (k : nat) (S : mat) :
  rect2 (2 * k) (k + 1) xs -> symmetrised xs (2 * k) S ->
  cols_from k (removelast S) = xs.
Proof.
  intros Hxs [HS HE]. set (r := 2 * k) in *.
  assert (Hdc : r / 2 = k).
  { unfold r. rewrite Nat.mul_comm. apply Nat.div_mul. lia. }
  apply (mat_ext r (k + 1)); [|exact Hxs|].
  - replace r with (r + 1 - 1) at 1 by lia.
    replace (k + 1) with (r + 1 - k) by (unfold r; lia).
    now apply rect2_cols_from, rect2_removelast.
  - intros i j Hi Hj. rewrite get2_cols_from. unfold get2 at 1.
    rewrite nth_removelast by (destruct HS as [Hl _]; lia).
    change (get2 S i (k + j) = get2 xs i j).
    rewrite HE by (unfold r; lia). unfold sym2_entry, sym2_right.
    rewrite Hdc.
    replace (k <=? k + j) with true by (symmetry; apply Nat.leb_le; lia).
    replace (i =? r) with false by (symmetry; apply Nat.eqb_neq; lia).
    f_equal. lia.
Qed.

(** ** Running heap computations *)

Lemma bind_run {A B} (m : St.M A) (k : A -> St.M B) (h h' : heap) (x : A) :
  m h = Some (x, h') -> St.bind m k h = k x h'.
Proof. intro H. unfold St.bind. now rewrite H. Qed.

Lemma bind_inv {A B} (m : St.M A) (k : A -> St.M B) (h h2 : heap) (y : B) :
  St.bind m k h = Some (y, h2) ->
  exists x h1, m h = Some (x, h1) /\ k x h1 = Some (y, h2).
Proof.
  unfold St.bind. destruct (m h) as [[x h1]|]; [|discriminate].
  intro H. now exists x, h1.
Qed.

Lemma load_inv (l : loc) (h h' : heap) (t : tensor) :
  St.load l h = Some (t, h') -> nth_error h l = Some t /\ h' = h.
Proof.
  unfold St.load. destruct (nth_error h l); [|discriminate].
  intro H. injection H as -> ->. now split.
Qed.


Lemma length_update {A} (l : list A) (n : nat) (x : A) :
  length (St.update l n x) = length l.
Proof.
  revert n. induction l as [|y l IH]; intros [|n]; cbn; auto.
Qed.

Lemma nth_error_update_same {A} (l : list A) (n : nat) (x : A) :
  n < length l -> nth_error (St.update l n x) n = Some x.
Proof.
  revert n. induction l as [|y l IH]; intros [|n] H; cbn in *; try lia; auto.
  apply IH. lia.
Qed.

Lemma nth_error_update_other {A} (l : list A) (n n' : nat) (x : A) :
  n' <> n -> nth_error (St.update l n x) n' = nth_error l n'.
Proof.
  revert n n'.
  induction l as [|y l IH]; intros [|n] [|n'] H; cbn; auto; congruence.
Qed.

Lemma update_update {A} (l : list A) (n : nat) (x y : A) :
  St.update (St.update l n x) n y = St.update l n y.
Proof.
  revert n. induction l as [|z l IH]; intros [|n]; cbn; auto.
  now rewrite IH.
Qed.

Lemma update_app_last {A} (l : list A) (x y : A) :
  St.update (l ++ [x]) (length l) y = l ++ [y].
Proof.
  induction l as [|z l IH]; cbn; [reflexivity|]. now rewrite IH.
Qed.

Lemma nth_error_lt {A} (l : list A) (n : nat) (x : A) :
  nth_error l n = Some x -> n < length l.
Proof. intro H. apply nth_error_Some. congruence. Qed.

Lemma modify_run (l : loc) (f : tensor -> option tensor) (h : heap)
  (t t' : tensor) :
  nth_error h l = Some t -> f t = Some t' ->
  St.modify l f h = Some (tt, St.update h l t').
Proof.
  intros Hl Hf. unfold St.modify, St.bind, St.load, St.lift, St.store.
  now rewrite Hl, Hf, Hl.
Qed.

Lemma modify_inv (l : loc) (f : tensor -> option tensor) (h h' : heap)
  (u : unit) :
  St.modify l f h = Some (u, h') ->
  exists t t', nth_error h l = Some t /\ f t = Some t'
               /\ h' = St.update h l t'.
Proof.
  unfold St.modify, St.bind, St.load, St.lift, St.store.
  destruct (nth_error h l) as [t|] eqn:E; [|discriminate].
  destruct (f t) as [t'|] eqn:F; [|discriminate].
  rewrite E. intro H. injection H as <-. now exists t, t'.
Qed.

Lemma mapM_total {A B} (g : A -> B) (l : list A) :
  mapM (fun x => Some (g x)) l = Some (map g l).
Proof.
  induction l as [|x l IH]; cbn; [reflexivity|]. now rewrite IH.
Qed.

Lemma mapM_Forall2 {A B} (f : A -> option B) (R : A -> B -> Prop)
  (l : list A) :
  (forall x, In x l -> exists y, f x = Some y /\ R x y) ->
  exists ys, mapM f l = Some ys /\ Forall2 R l ys.
Proof.
  induction l as [|x l IH]; intro H.
  - exists []. split; [reflexivity|constructor].
  - destruct (H x (or_introl eq_refl)) as [y [Hy HR]].
    destruct IH as [ys [Hys HF]]; [intros z Hz; apply H; now right|].
    exists (y :: ys). cbn. rewrite Hy, Hys. split; [reflexivity|].
    now constructor.
Qed.

Lemma shape_T3 (h w : nat) (v : vol) :
  v <> [] -> Forall (rect2 h w) v -> 0 < h ->
  Tensor.shape (T3 v) = [length v; h; w].
Proof.
  intros Hne HF Hh. destruct v as [|m v]; [congruence|].
  inversion HF as [|? ? [Hl Hrows] _]; subst.
  cbn. f_equal. f_equal.
  destruct m as [|r m]; [cbn in Hh; lia|].
  inversion Hrows; subst. reflexivity.
Qed.

Lemma shape_T2 (h w : nat) (m : mat) :
  rect2 h w m -> 0 < h -> Tensor.shape (T2 m) = [h; w].
Proof.
  intros [Hl Hrows] Hh. destruct m as [|r m]; [cbn in Hl; lia|].
  inversion Hrows; subst. reflexivity.
Qed.

Lemma modify_handle_run (x : handle) (f : tensor -> option tensor)
  (h : heap) (t t' : tensor) :
  load_handle x h = Some (t, h) -> f t = Some t' -> handle_accepts x t' ->
  exists h',
    modify_handle x f h = Some (tt, h')
    /\ load_handle x h' = Some (t', h')
    /\ length h' = length h.
Proof.
  intros Hload Hf Hacc. unfold modify_handle.
  rewrite (bind_run _ _ h h t Hload).
  unfold St.lift at 1. unfold St.bind at 1. rewrite Hf.
  destruct x as [l|l]; cbn [load_handle store_handle handle_accepts] in *.
  - apply load_inv in Hload. destruct Hload as [Hl _].
    unfold St.store. rewrite Hl. eexists. split; [reflexivity|]. split.
    + unfold St.load.
      now rewrite nth_error_update_same by (eapply nth_error_lt; eauto).
    + apply length_update.
  - destruct Hacc as [m' ->].
    apply bind_inv in Hload. destruct Hload as [t0 [h1 [Hl Hret]]].
    apply load_inv in Hl. destruct Hl as [Hl ->].
    unfold St.store. rewrite Hl. eexists. split; [reflexivity|]. split.
    + unfold St.bind, St.load.
      now rewrite nth_error_update_same by (eapply nth_error_lt; eauto).
    + apply length_update.
Qed.

Lemma handle_accepts_map (x : handle) (g : mat -> mat) (v : vol) :
  handle_accepts x (T3 v) -> handle_accepts x (T3 (map g v)).
Proof.
  destruct x as [l|l]; cbn; [trivial|].
  intros [m H]. injection H as ->. now exists (g m).
Qed.

Lemma halve_right_T3 (r : nat) (v : vol) :
  halve_right r (T3 v) = Some (T3 (map (halve_right_mat r) v)).
Proof. unfold halve_right, under2. now rewrite mapM_total. Qed.

Lemma add_half_mirror_T3 (dc r h w : nat) (v : vol) :
  v <> [] -> Forall (rect2 h w) v -> 0 < h ->
  fits (Nat.min dc w) (w - r) = true ->
  add_half_mirror dc r (T3 v)
  = Some (T3 (map (add_half_mirror_mat (Nat.min dc w) dc r) v)).
Proof.
  intros Hne HF Hh Hfit. unfold add_half_mirror, width.
  rewrite (shape_T3 h w) by assumption. cbn [last].
  rewrite Hfit. cbn [negb under2]. now rewrite mapM_total.
Qed.

Lemma average_nyquist_rows_T3 (r h w : nat) (v : vol) :
  v <> [] -> Forall (rect2 h w) v -> 0 < h ->
  average_nyquist_rows r (T3 v)
  = Some (T3 (map (average_nyquist_rows_mat h r) v)).
Proof.
  intros Hne HF Hh. unfold average_nyquist_rows, height.
  rewrite (shape_T3 h w) by assumption. cbn [last removelast].
  replace (h =? 0) with false by (symmetry; apply Nat.eqb_neq; lia).
  cbn [under2]. now rewrite mapM_total.
Qed.

Lemma map_nonempty {A B} (g : A -> B) (l : list A) : l <> [] -> map g l <> [].
Proof. destruct l; [congruence|discriminate]. Qed.

Lemma Forall_map_rect2 (h w : nat) (g : mat -> mat) (v : vol) :
  (forall m, rect2 h w m -> rect2 h w (g m)) ->
  Forall (rect2 h w) v -> Forall (rect2 h w) (map g v).
Proof.
  intros Hg HF. apply Forall_map. eapply Forall_impl; [|exact HF]. exact Hg.
Qed.

Lemma Forall2_In_right {A B} (R : A -> B -> Prop) (l : list A) (l' : list B)
  (y : B) :
  Forall2 R l l' -> In y l' -> exists x, In x l /\ R x y.
Proof.
  induction 1 as [|a b l l' Hab _ IH]; cbn; [tauto|].
  intros [<-|Hy].
  - exists a. auto.
  - destruct (IH Hy) as [x [Hx Hr]]. exists x. auto.
Qed.

Lemma odd_half (k : nat) : (2 * k + 1) / 2 = k.
Proof.
  rewrite Nat.add_comm, Nat.mul_comm, Nat.div_add by lia. reflexivity.
Qed.

Lemma rect2_fold_mat (h w : nat) (m : mat) :
  rect2 h w m -> rect2 h w (fold_mat h w m).
Proof. intro H. unfold fold_mat. now repeat apply rect2_assign2. Qed.

(** The averaging statements and the return of [symmetrised_dft_to_rfft_2d],
    run through a handle that shows a batch of square matrices of odd side:
    the handle then shows the folded matrices, and the unshifted right
    halves are returned. *)
Lemma fold_run (x : handle) (h : heap) (k : nat) (v : vol) :
  load_handle x h = Some (T3 v, h) -> handle_accepts x (T3 v) ->
  v <> [] -> Forall (rect2 (2 * k + 1) (2 * k + 1)) v ->
  exists h',
    (modify_handle x (halve_right (k + 1)) ;;;
     modify_handle x (add_half_mirror k (k + 1)) ;;;
     modify_handle x (average_nyquist_rows (k + 1)) ;;;
     t <- load_handle x ;;
     St.lift (unshifted_right_half k t)) h
    = Some (T3 (map (fun m => unshifted_right_half_mat k
                                (fold_mat (2 * k + 1) (2 * k + 1) m)) v), h')
    /\ load_handle x h' = Some (T3 (map (fold_mat (2 * k + 1) (2 * k + 1)) v), h')
    /\ length h' = length h.
Proof.
  intros Hload Hacc Hne Hrect.
  set (r := 2 * k) in *.
  set (g1 := halve_right_mat (k + 1)).
  set (g2 := add_half_mirror_mat k k (k + 1)).
  set (g3 := average_nyquist_rows_mat (r + 1) (k + 1)).
  assert (Hg1 : forall m, rect2 (r + 1) (r + 1) m -> rect2 (r + 1) (r + 1) (g1 m))
    by (intros; now apply rect2_assign2).
  assert (Hg2 : forall m, rect2 (r + 1) (r + 1) m -> rect2 (r + 1) (r + 1) (g2 m))
    by (intros; now apply rect2_assign2).
  destruct (modify_handle_run x (halve_right (k + 1)) h (T3 v)
              (T3 (map g1 v)) Hload (halve_right_T3 _ _)
              (handle_accepts_map x g1 v Hacc)) as [h1 [R1 [L1 N1]]].
  assert (S2 : add_half_mirror k (k + 1) (T3 (map g1 v))
               = Some (T3 (map g2 (map g1 v)))).
  { assert (Emin : Nat.min k (r + 1) = k) by (unfold r; lia).
    assert (H := add_half_mirror_T3 k (k + 1) (r + 1) (r + 1) (map g1 v)).
    rewrite Emin in H. apply H.
    - now apply map_nonempty.
    - now apply Forall_map_rect2.
    - lia.
    - unfold fits. replace (r + 1 - (k + 1)) with k by (unfold r; lia).
      now rewrite Nat.eqb_refl. }
  destruct (modify_handle_run x _ h1 _ _ L1 S2
              (handle_accepts_map x g2 _ (handle_accepts_map x g1 v Hacc)))
    as [h2 [R2 [L2 N2]]].
  assert (S3 : average_nyquist_rows (k + 1) (T3 (map g2 (map g1 v)))
               = Some (T3 (map g3 (map g2 (map g1 v))))).
  { apply (average_nyquist_rows_T3 (k + 1) (r + 1) (r + 1)).
    - now apply map_nonempty, map_nonempty.
    - now apply Forall_map_rect2, Forall_map_rect2.
    - lia. }
  destruct (modify_handle_run x _ h2 _ _ L2 S3
              (handle_accepts_map x g3 _
                 (handle_accepts_map x g2 _
                    (handle_accepts_map x g1 v Hacc))))
    as [h3 [R3 [L3 N3]]].
  assert (Eid : map g3 (map g2 (map g1 v))
                = map (fold_mat (r + 1) (r + 1)) v).
  { rewrite !map_map. apply map_ext. intro m.
    unfold fold_mat, g1, g2, g3, r. rewrite odd_half.
    now replace (Nat.min k (2 * k + 1)) with k by lia. }
  rewrite Eid in L3.
  exists h3. split; [|split; [exact L3|lia]].
  rewrite (bind_run _ _ _ _ _ R1), (bind_run _ _ _ _ _ R2),
          (bind_run _ _ _ _ _ R3), (bind_run _ _ _ _ _ L3).
  unfold St.lift, unshifted_right_half, under2. rewrite mapM_total.
  cbn [option_map]. now rewrite map_map.
Qed.

(** On freshly symmetrised spectra the shifted rffts come back, unshifted. *)
Lemma fold_symmetrised_run (x : handle) (h : heap) (k : nat)
  (v : vol) (xsl : list mat) :
  1 <= k -> load_handle x h = Some (T3 v, h) -> handle_accepts x (T3 v) ->
  v <> [] ->
  Forall2 (fun xs S => rect2 (2 * k) (k + 1) xs /\ symmetrised xs (2 * k) S)
          xsl v ->
  exists h',
    (modify_handle x (halve_right (k + 1)) ;;;
     modify_handle x (add_half_mirror k (k + 1)) ;;;
     modify_handle x (average_nyquist_rows (k + 1)) ;;;
     t <- load_handle x ;;
     St.lift (unshifted_right_half k t)) h
    = Some (T3 (map (@ifftshift (list C)) xsl), h')
    /\ length h' = length h.
Proof.
  intros Hk Hload Hacc Hne HF2.
  assert (Hrect : Forall (rect2 (2 * k + 1) (2 * k + 1)) v).
  { clear -HF2. induction HF2 as [|xs S xsl v [_ [HS _]] _ IH]; auto. }
  destruct (fold_run x h k v Hload Hacc Hne Hrect) as [h' [R [_ N]]].
  exists h'. split; [|exact N]. rewrite R. do 3 f_equal.
  clear -HF2 Hk.
  induction HF2 as [|xs S xsl v [Hxs Hsym] _ IH]; [reflexivity|].
  cbn [map]. rewrite IH. f_equal.
  unfold fold_mat. rewrite odd_half.
  replace (Nat.min k (2 * k + 1)) with k by lia.
  rewrite (mirror_average_id xs k S Hk Hsym).
  unfold unshifted_right_half_mat.
  now rewrite (right_half_is_shifted xs k S).
Qed.

Lemma nth_error_app_last {A} (l : list A) (x : A) :
  nth_error (l ++ [x]) (length l) = Some x.
Proof.
  rewrite nth_error_app2 by lia. now rewrite Nat.sub_diag.
Qed.

Lemma load_run (l : loc) (h : heap) (t : tensor) :
  nth_error h l = Some t -> St.load l h = Some (t, h).
Proof. intro H. unfold St.load. now rewrite H. Qed.

(** [symmetrised_dft_to_rfft_2d] on a buffer that holds a batch of freshly
    symmetrised spectra. *)
Lemma symmetrised_dft_to_rfft_2d_run_batch (h : heap) (l : loc) (k : nat)
  (v : vol) (xsl : list mat) (inplace : option bool) :
  1 <= k -> nth_error h l = Some (T3 v) -> v <> [] ->
  Forall2 (fun xs S => rect2 (2 * k) (k + 1) xs /\ symmetrised xs (2 * k) S)
          xsl v ->
  exists h',
    symmetrised_dft_to_rfft_2d l inplace h
    = Some (T3 (map (@ifftshift (list C)) xsl), h').
Proof.
  intros Hk Hl Hne HF2.
  assert (Hrect : Forall (rect2 (2 * k + 1) (2 * k + 1)) v).
  { clear -HF2. induction HF2 as [|xs S xsl v [_ [HS _]] _ IH]; auto. }
  unfold symmetrised_dft_to_rfft_2d.
  rewrite (bind_run _ _ h h (T3 v) (load_run l h _ Hl)).
  cbn [ndim Nat.eqb].
  assert (Hload : load_handle (Whole l) h = Some (T3 v, h))
    by (apply load_run, Hl).
  rewrite (bind_run _ _ h h (T3 v) Hload).
  rewrite (shape_T3 (2 * k + 1) (2 * k + 1)) by (trivial; lia).
  rewrite odd_half.
  destruct (Py.kwarg true inplace).
  - rewrite (bind_run _ _ h h (Whole l) eq_refl).
    destruct (fold_symmetrised_run (Whole l) h k v xsl Hk Hload I Hne HF2)
      as [h' [R _]].
    exists h'. exact R.
  - assert (Hclone : clone_handle (Whole l) h
                     = Some (Whole (length h), h ++ [T3 v])).
    { unfold clone_handle. rewrite (bind_run _ _ h h (T3 v) Hload).
      reflexivity. }
    rewrite (bind_run _ _ _ _ _ Hclone).
    assert (Hload' : load_handle (Whole (length h)) (h ++ [T3 v])
                     = Some (T3 v, h ++ [T3 v]))
      by (apply load_run, nth_error_app_last).
    destruct (fold_symmetrised_run (Whole (length h)) (h ++ [T3 v]) k v xsl
                Hk Hload' I Hne HF2) as [h' [R _]].
    exists h'. exact R.
Qed.

(** The same on a rank-2 buffer, seen through the [(1, h, w)] view. *)
Lemma symmetrised_dft_to_rfft_2d_run_single (h : heap) (l : loc) (k : nat)
  (S xs : mat) (inplace : option bool) :
  1 <= k -> nth_error h l = Some (T2 S) ->
  rect2 (2 * k) (k + 1) xs -> symmetrised xs (2 * k) S ->
  exists h',
    symmetrised_dft_to_rfft_2d l inplace h = Some (T3 [ifftshift xs], h').
Proof.
  intros Hk Hl Hxs Hsym.
  assert (HF2 : Forall2 (fun xs S => rect2 (2 * k) (k + 1) xs
                                     /\ symmetrised xs (2 * k) S) [xs] [S])
    by (constructor; [now split|constructor]).
  assert (Hrect : Forall (rect2 (2 * k + 1) (2 * k + 1)) [S])
    by (constructor; [apply Hsym|constructor]).
  unfold symmetrised_dft_to_rfft_2d.
  rewrite (bind_run _ _ h h (T2 S) (load_run l h _ Hl)).
  cbn [ndim Nat.eqb].
  assert (Hload : load_handle (Batch1 l) h = Some (T3 [S], h)).
  { cbn [load_handle]. now rewrite (bind_run _ _ h h (T2 S) (load_run l h _ Hl)). }
  rewrite (bind_run _ _ h h (T3 [S]) Hload).
  rewrite (shape_T3 (2 * k + 1) (2 * k + 1)) by (trivial; try discriminate; lia).
  rewrite odd_half.
  destruct (Py.kwarg true inplace).
  - rewrite (bind_run _ _ h h (Batch1 l) eq_refl).
    destruct (fold_symmetrised_run (Batch1 l) h k [S] [xs] Hk Hload
                (ex_intro _ S eq_refl) ltac:(discriminate) HF2)
      as [h' [R _]].
    exists h'. exact R.
  - assert (Hclone : clone_handle (Batch1 l) h
                     = Some (Whole (length h), h ++ [T3 [S]])).
    { unfold clone_handle. rewrite (bind_run _ _ h h (T3 [S]) Hload).
      reflexivity. }
    rewrite (bind_run _ _ _ _ _ Hclone).
    assert (Hload' : load_handle (Whole (length h)) (h ++ [T3 [S]])
                     = Some (T3 [S], h ++ [T3 [S]]))
      by (apply load_run, nth_error_app_last).
    destruct (fold_symmetrised_run (Whole (length h)) (h ++ [T3 [S]]) k
                [S] [xs] Hk Hload' I ltac:(discriminate) HF2) as [h' [R _]].
    exists h'. exact R.
Qed.

(** ** Round trip rfft -> symmetrised DFT -> rfft *)

(** C3: for an rfft [X] of a square image of even side [N] (one matrix, or
    a batch), symmetrising [X] and folding the result back with
    [symmetrised_dft_to_rfft_2d] succeeds and returns the values of [X]
    (with the batch axis the second function always returns), for either
    value of [inplace] and on every heap. *)
Theorem symmetrisation_round_trip_2d (N : nat) (X : tensor)
  (inplace : option bool) (h : heap) :
  0 < N -> Nat.Even N -> ndim X <= 3 -> batch_of (rect2 N (N / 2 + 1)) X ->
  exists h', round_trip_2d X inplace h = Some (as_batch X, h').
Proof.
  intros HN He Hnd HX. destruct (even_half N He) as [k [Hk Hdc]].
  rewrite Hdc in HX. unfold round_trip_2d.
  destruct X as [m|v|b]; cbn [batch_of ndim as_batch] in *; [| |lia].
  - (* one matrix *)
    destruct (rfft_to_symmetrised_dft_2d_mat_spec N m HN He) as [S [HS Hsym]];
      [now rewrite Hdc|].
    assert (Hsh := shape_T2 N (k + 1) m HX HN). cbn in Hsh.
    injection Hsh as Hlen Hw.
    assert (E : rfft_to_symmetrised_dft_2d (T2 m) = Some (T2 S)).
    { cbn [rfft_to_symmetrised_dft_2d]. rewrite Hlen, Hw, <- Hdc, HS.
      reflexivity. }
    rewrite E. unfold St.bind, St.lift, St.alloc.
    destruct (symmetrised_dft_to_rfft_2d_run_single (h ++ [T2 S]) (length h)
                k S (fftshift m) inplace) as [h' R].
    + lia.
    + apply nth_error_app_last.
    + rewrite <- Hk. now apply rect2_fftshift.
    + now rewrite <- Hk.
    + exists h'. rewrite R. now rewrite ifftshift_fftshift.
  - (* a batch *)
    destruct HX as [Hne HF].
    assert (Hsh := shape_T3 N (k + 1) v Hne HF HN). cbn in Hsh.
    injection Hsh as Hlen Hw.
    destruct (mapM_Forall2 (rfft_to_symmetrised_dft_2d_mat N (k + 1))
                (fun x S => symmetrised (fftshift x) N S) v) as [ss [Hss HF2]].
    { intros x Hx. rewrite Forall_forall in HF.
      destruct (rfft_to_symmetrised_dft_2d_mat_spec N x HN He) as [S [HS Hsym]].
      - rewrite Hdc. now apply HF.
      - exists S. now rewrite <- Hdc. }
    assert (E : rfft_to_symmetrised_dft_2d (T3 v) = Some (T3 ss)).
    { cbn [rfft_to_symmetrised_dft_2d]. rewrite Hlen, Hw, Hss. reflexivity. }
    rewrite E. unfold St.bind, St.lift, St.alloc.
    destruct (symmetrised_dft_to_rfft_2d_run_batch (h ++ [T3 ss]) (length h)
                k ss (map (@fftshift (list C)) v) inplace) as [h' R].
    + lia.
    + apply nth_error_app_last.
    + destruct HF2; [congruence|discriminate].
    + rewrite <- Hk. clear -HF2 HF.
      induction HF2 as [|x S v ss Hx _ IH]; [constructor|].
      inversion HF; subst. cbn [map]. constructor; [|now apply IH].
      split; [now apply rect2_fftshift|exact Hx].
    + exists h'. rewrite R. rewrite map_map.
      rewrite (map_ext _ (fun x => x)) by (intro; apply ifftshift_fftshift).
      now rewrite map_id.
Qed.

Lemma symmetrisation_round_trip_2d_witness :
  exists h',
    round_trip_2d (T2 example_rfft_4) None []
    = Some (as_batch (T2 example_rfft_4), h').
Proof.
  apply (symmetrisation_round_trip_2d 4 (T2 example_rfft_4) None []).
  - lia.
  - exists 2. reflexivity.
  - cbn. lia.
  - split; [reflexivity|]. repeat constructor.
Defined.

(** ** Shape of the result of [symmetrised_dft_to_rfft_2d] *)

Lemma length_ifftshift {A} (l : list A) : length (ifftshift l) = length l.
Proof.
  unfold ifftshift. rewrite length_app, length_skipn, length_firstn.
  assert (length l / 2 <= length l) by (apply Nat.Div0.div_le_upper_bound; lia).
  lia.
Qed.

Lemma rect2_ifftshift (h w : nat) (m : mat) :
  rect2 h w m -> rect2 h w (ifftshift m).
Proof.
  intros [Hl HF]. split.
  - now rewrite length_ifftshift.
  - unfold ifftshift. apply Forall_app.
    destruct (Forall_firstn_skipn _ (length m / 2) m HF). now split.
Qed.

Lemma rect2_unshifted_right_half_mat (k : nat) (m : mat) :
  rect2 (2 * k + 1) (2 * k + 1) m ->
  rect2 (2 * k) (k + 1) (unshifted_right_half_mat k m).
Proof.
  intro H. unfold unshifted_right_half_mat. apply rect2_ifftshift.
  replace (2 * k) with (2 * k + 1 - 1) at 1 by lia.
  replace (k + 1) with (2 * k + 1 - k) by lia.
  now apply rect2_cols_from, rect2_removelast.
Qed.

(** C10: an unbatched [(N+1, N+1)] input comes back with the batch axis of
    the internal [(1, h, w)] view: the result has rank 3 and shape
    [(1, N, N/2+1)]. *)
Theorem symmetrised_dft_to_rfft_2d_keeps_batch_axis (N : nat) (m : mat)
  (h : heap) (l : loc) (inplace : option bool) :
  0 < N -> Nat.Even N -> rect2 (N + 1) (N + 1) m ->
  nth_error h l = Some (T2 m) ->
  exists t h',
    symmetrised_dft_to_rfft_2d l inplace h = Some (t, h')
    /\ ndim t = 3
    /\ Tensor.shape t = [1; N; N / 2 + 1].
Proof.
  intros HN He Hm Hl. destruct (even_half N He) as [k [Hk Hdc]].
  rewrite Hdc. subst N.
  assert (Hrect : Forall (rect2 (2 * k + 1) (2 * k + 1)) [m])
    by (constructor; [exact Hm|constructor]).
  set (out := T3 (map (fun m => unshifted_right_half_mat k
                                  (fold_mat (2 * k + 1) (2 * k + 1) m)) [m])).
  assert (Hout : ndim out = 3 /\ Tensor.shape out = [1; 2 * k; k + 1]).
  { split; [reflexivity|]. unfold out.
    rewrite (shape_T3 (2 * k) (k + 1)); [reflexivity|discriminate| |lia].
    constructor; [|constructor].
    now apply rect2_unshifted_right_half_mat, rect2_fold_mat. }
  unfold symmetrised_dft_to_rfft_2d.
  rewrite (bind_run _ _ h h (T2 m) (load_run l h _ Hl)).
  cbn [ndim Nat.eqb].
  assert (Hload : load_handle (Batch1 l) h = Some (T3 [m], h)).
  { cbn [load_handle]. now rewrite (bind_run _ _ h h (T2 m) (load_run l h _ Hl)). }
  rewrite (bind_run _ _ h h (T3 [m]) Hload).
  rewrite (shape_T3 (2 * k + 1) (2 * k + 1)) by (trivial; try discriminate; lia).
  rewrite odd_half.
  destruct (Py.kwarg true inplace).
  - rewrite (bind_run _ _ h h (Batch1 l) eq_refl).
    destruct (fold_run (Batch1 l) h k [m] Hload (ex_intro _ m eq_refl)
                ltac:(discriminate) Hrect) as [h' [R _]].
    exists out, h'. split; [exact R|exact Hout].
  - assert (Hclone : clone_handle (Batch1 l) h
                     = Some (Whole (length h), h ++ [T3 [m]])).
    { unfold clone_handle. rewrite (bind_run _ _ h h (T3 [m]) Hload).
      reflexivity. }
    rewrite (bind_run _ _ _ _ _ Hclone).
    assert (Hload' : load_handle (Whole (length h)) (h ++ [T3 [m]])
                     = Some (T3 [m], h ++ [T3 [m]]))
      by (apply load_run, nth_error_app_last).
    destruct (fold_run (Whole (length h)) (h ++ [T3 [m]]) k [m] Hload' I
                ltac:(discriminate) Hrect) as [h' [R _]].
    exists out, h'. split; [exact R|exact Hout].
Qed.

Lemma symmetrised_dft_to_rfft_2d_keeps_batch_axis_witness :
  exists t h',
    symmetrised_dft_to_rfft_2d 0 None [T2 example_dft_5] = Some (t, h')
    /\ ndim t = 3
    /\ Tensor.shape t = [1; 4; 4 / 2 + 1].
Proof.
  apply (symmetrised_dft_to_rfft_2d_keeps_batch_axis 4 example_dft_5
           [T2 example_dft_5] 0 None).
  - lia.
  - exists 2. reflexivity.
  - split; [reflexivity|]. repeat constructor.
  - reflexivity.
Defined.

(** ** Hermitian symmetry of the 3D symmetrised spectrum *)

Lemma rect3_flip_conj3 (d h w : nat) (v : vol) :
  rect3 d h w v -> rect3 d h w (flip_conj3 v).
Proof.
  intros [Hl HF]. split; unfold flip_conj3.
  - now rewrite length_rev, length_map.
  - apply Forall_rev, Forall_map. eapply Forall_impl; [|exact HF].
    intros m Hm. now apply rect2_flip_conj2.
Qed.

Lemma get3_flip_conj3 (d h w : nat) (v : vol) (k i j : nat) :
  rect3 d h w v -> k < d -> i < h -> j < w ->
  get3 (flip_conj3 v) k i j
  = conj (get3 v (d - 1 - k) (h - 1 - i) (w - 1 - j)).
Proof.
  intros Hv Hk Hi Hj. unfold get3, flip_conj3.
  assert (Hl : length v = d) by apply Hv.
  rewrite rev_nth by (rewrite length_map; lia).
  rewrite length_map, Hl.
  replace (d - S k) with (d - 1 - k) by lia.
  rewrite (nth_map_nil flip_conj2) by reflexivity.
  apply (get2_flip_conj2 h w); trivial.
  apply (rect3_slab d h w); [exact Hv|lia].
Qed.

Lemma rect3_cols_from (d h w c : nat) (v : vol) :
  rect3 d h w v -> rect3 d h (w - c) (map (cols_from c) v).
Proof.
  intros [Hl HF]. split.
  - now rewrite length_map.
  - apply Forall_map. eapply Forall_impl; [|exact HF].
    intros m Hm. now apply rect2_cols_from.
Qed.

Lemma get3_cols_from (c : nat) (v : vol) (k i j : nat) :
  get3 (map (cols_from c) v) k i j = get3 v k i (c + j).
Proof.
  unfold get3. rewrite (nth_map_nil (cols_from c)) by reflexivity.
  apply get2_cols_from.
Qed.

Lemma rfft_to_symmetrised_dft_3d_vol_spec (N : nat) (X : vol) :
  0 < N -> Nat.Even N ->
  exists out,
    rfft_to_symmetrised_dft_3d_vol N N (N / 2 + 1) X = Some out
    /\ hermitian_left_half N out.
Proof.
  intros HN He. destruct (even_half N He) as [k [Hk Hdc]].
  unfold rfft_to_symmetrised_dft_3d_vol, hermitian_left_half. rewrite Hdc.
  assert (G1 : fits N N && fits (k + 1) (N + 1 - k) = true).
  { unfold fits. replace (N + 1 - k) with (k + 1) by lia.
    now rewrite !Nat.eqb_refl. }
  assert (G2 : (N =? 0) = false) by (apply Nat.eqb_neq; lia).
  assert (G3 : fits (N - k) k = true).
  { unfold fits. replace (N - k) with k by lia. now rewrite Nat.eqb_refl. }
  rewrite G1, G2, G3. cbn [negb].
  set (O4 := assign3 _ _ (assign3 _ _ (assign3 _ _ (assign3 _ _
               (zeros3 (N + 1) (N + 1) (N + 1)))))).
  assert (HO4 : rect3 (N + 1) (N + 1) (N + 1) O4)
    by (unfold O4; repeat apply rect3_assign3; apply rect3_zeros3).
  eexists. split; [reflexivity|]. split; [now apply rect3_assign3|].
  intros z y x Hz Hy Hx.
  rewrite (get3_assign3 (N + 1) (N + 1) (N + 1)) by (trivial; lia).
  rewrite (get3_assign3 (N + 1) (N + 1) (N + 1) _ _ _ (N - z) (N - y) (N - x))
    by (trivial; lia).
  replace (x <? k) with true by (symmetry; apply Nat.ltb_lt; lia).
  replace (N - x <? k) with false by (symmetry; apply Nat.ltb_ge; lia).
  assert (Hb : bc (N - k) x = x).
  { unfold bc. destruct (Nat.eqb_spec (N - k) 1); [lia|reflexivity]. }
  rewrite Hb.
  rewrite (get3_flip_conj3 (N + 1) (N + 1) (N + 1 - (k + 1)))
    by (try apply rect3_cols_from; trivial; lia).
  rewrite get3_cols_from. f_equal. f_equal; lia.
Qed.

Lemma shape_rect3 (d h w : nat) (v : vol) :
  rect3 d h w v -> 0 < d -> 0 < h ->
  length v = d /\ length (hd [] v) = h /\ length (hd [] (hd [] v)) = w.
Proof.
  intros [Hl HF] Hd Hh. split; [exact Hl|].
  destruct v as [|m v]; [cbn in Hl; lia|].
  inversion HF as [|? ? Hm _]; subst. cbn [hd].
  assert (Hs := shape_T2 h w m Hm Hh). cbn in Hs.
  injection Hs as H1 H2. now split.
Qed.

(** C4: the output of [rfft_to_symmetrised_dft_3d] on the rfft of a cubic
    volume of even side [N] (one volume, or a non-empty batch) is
    Hermitian on its reconstructed half: for [x < N/2], the entry at
    [(z, y, x)] is the conjugate of the entry at [(N-z, N-y, N-x)]. *)
Theorem rfft_to_symmetrised_dft_3d_hermitian (N : nat) (X : tensor) :
  0 < N -> Nat.Even N -> volumes_of (rect3 N N (N / 2 + 1)) X ->
  exists S,
    rfft_to_symmetrised_dft_3d X = Some S
    /\ volumes_of (hermitian_left_half N) S.
Proof.
  intros HN He HX. destruct X as [m|v|b]; cbn [volumes_of] in HX.
  - contradiction.
  - destruct (shape_rect3 N N (N / 2 + 1) v HX HN HN) as [H1 [H2 H3]].
    destruct (rfft_to_symmetrised_dft_3d_vol_spec N v HN He) as [out [E H]].
    exists (T3 out). cbn [rfft_to_symmetrised_dft_3d volumes_of].
    rewrite H1, H2, H3, E. now split.
  - destruct HX as [Hne HF].
    destruct b as [|v0 b]; [congruence|].
    assert (Hv0 : rect3 N N (N / 2 + 1) v0) by now inversion HF.
    destruct (shape_rect3 N N (N / 2 + 1) v0 Hv0 HN HN) as [H1 [H2 H3]].
    destruct (mapM_Forall2 (rfft_to_symmetrised_dft_3d_vol N N (N / 2 + 1))
                (fun _ out => hermitian_left_half N out) (v0 :: b))
      as [outs [E HF2]].
    { intros v _. apply rfft_to_symmetrised_dft_3d_vol_spec; assumption. }
    exists (T4 outs). cbn [rfft_to_symmetrised_dft_3d volumes_of hd].
    rewrite H1, H2, H3, E. split; [reflexivity|]. split.
    + inversion HF2; discriminate.
    + clear -HF2. induction HF2; constructor; auto.
Qed.

Lemma rfft_to_symmetrised_dft_3d_hermitian_witness :
  exists S,
    rfft_to_symmetrised_dft_3d (T3 example_rfft_222) = Some S
    /\ volumes_of (hermitian_left_half 2) S.
Proof.
  apply (rfft_to_symmetrised_dft_3d_hermitian 2 (T3 example_rfft_222)).
  - lia.
  - exists 1. reflexivity.
  - split; [reflexivity|]. repeat constructor.
Defined.

(** ** Desymmetrisation as a function of the heap *)

Lemma modify_eq (l : loc) (f : tensor -> option tensor) (h : heap) :
  St.modify l f h
  = match nth_error h l with
    | Some t => match f t with
                | Some t' => Some (tt, St.update h l t')
                | None => None
                end
    | None => None
    end.
Proof.
  unfold St.modify, St.bind, St.load, St.lift, St.store.
  destruct (nth_error h l) as [t|] eqn:E; [|reflexivity].
  destruct (f t); [|reflexivity]. now rewrite E.
Qed.

(** Statements [fs] applied in sequence to the buffer at [l]. *)
Lemma modify_chain2 (l : loc) (f1 f2 : tensor -> option tensor)
  (h : heap) (t : tensor) {A} (k : St.M A) :
  nth_error h l = Some t ->
  (St.modify l f1 ;;; St.modify l f2 ;;; k) h
  = match f1 t with
    | Some t1 => match f2 t1 with
                 | Some t2 => k (St.update h l t2)
                 | None => None
                 end
    | None => None
    end.
Proof.
  intro Hl. unfold St.bind. rewrite !modify_eq, Hl.
  destruct (f1 t) as [t1|]; [|reflexivity].
  rewrite modify_eq.
  rewrite nth_error_update_same by (eapply nth_error_lt; eauto).
  destruct (f2 t1) as [t2|]; [|reflexivity].
  now rewrite update_update.
Qed.

Lemma symmetrised_dft_to_dft_2d_eq (l : loc) (inplace : option bool)
  (h : heap) :
  symmetrised_dft_to_dft_2d l inplace h
  = match nth_error h l with
    | None => None
    | Some t =>
        match average_columns_2d t with
        | None => None
        | Some t1 =>
            match average_rows_2d t1 with
            | None => None
            | Some t2 =>
                match under2 (fun m => Some (drop_last2 m)) t2 with
                | None => None
                | Some out =>
                    Some (out, if Py.kwarg true inplace
                               then St.update h l t2 else h ++ [t2])
                end
            end
        end
    end.
Proof.
  unfold symmetrised_dft_to_dft_2d.
  destruct (nth_error h l) as [t|] eqn:Hl.
  - destruct (Py.kwarg true inplace).
    + unfold St.bind at 1. cbn [St.ret].
      rewrite (modify_chain2 l _ _ h t _ Hl).
      destruct (average_columns_2d t) as [t1|]; [|reflexivity].
      destruct (average_rows_2d t1) as [t2|]; [|reflexivity].
      unfold St.bind, St.load, St.lift.
      rewrite nth_error_update_same by (eapply nth_error_lt; eauto).
      reflexivity.
    + unfold St.bind at 1. unfold St.clone, St.bind at 1, St.load, St.alloc.
      rewrite Hl.
      rewrite (modify_chain2 (length h) _ _ (h ++ [t]) t _
                 (nth_error_app_last h t)).
      destruct (average_columns_2d t) as [t1|]; [|reflexivity].
      destruct (average_rows_2d t1) as [t2|]; [|reflexivity].
      rewrite update_app_last.
      unfold St.bind, St.lift. rewrite nth_error_app_last. reflexivity.
  - destruct (Py.kwarg true inplace); unfold St.bind, St.ret, St.clone,
      St.bind, St.load; rewrite ?modify_eq, Hl; reflexivity.
Qed.

Lemma modify_chain3 (l : loc) (f1 f2 f3 : tensor -> option tensor)
  (h : heap) (t : tensor) {A} (k : St.M A) :
  nth_error h l = Some t ->
  (St.modify l f1 ;;; St.modify l f2 ;;; St.modify l f3 ;;; k) h
  = match f1 t with
    | Some t1 =>
        match f2 t1 with
        | Some t2 => match f3 t2 with
                     | Some t3 => k (St.update h l t3)
                     | None => None
                     end
        | None => None
        end
    | None => None
    end.
Proof.
  intro Hl. unfold St.bind at 1. rewrite modify_eq, Hl.
  destruct (f1 t) as [t1|]; [|reflexivity].
  assert (Hl1 : nth_error (St.update h l t1) l = Some t1)
    by (apply nth_error_update_same; eapply nth_error_lt; eauto).
  rewrite (modify_chain2 l f2 f3 _ t1 k Hl1).
  destruct (f2 t1) as [t2|]; [|reflexivity].
  destruct (f3 t2) as [t3|]; [|reflexivity].
  now rewrite update_update.
Qed.

Lemma symmetrised_dft_to_dft_3d_eq (l : loc) (inplace : option bool)
  (h : heap) :
  symmetrised_dft_to_dft_3d l inplace h
  = match nth_error h l with
    | None => None
    | Some t =>
        match average_last_3d t with
        | None => None
        | Some t1 =>
            match average_middle_3d t1 with
            | None => None
            | Some t2 =>
                match average_first_3d t2 with
                | None => None
                | Some t3 =>
                    match under3 (fun v => Some (drop_last3 v)) t3 with
                    | None => None
                    | Some out =>
                        Some (out, if Py.kwarg true inplace
                                   then St.update h l t3 else h ++ [t3])
                    end
                end
            end
        end
    end.
Proof.
  unfold symmetrised_dft_to_dft_3d.
  destruct (nth_error h l) as [t|] eqn:Hl.
  - destruct (Py.kwarg true inplace).
    + unfold St.bind at 1. cbn [St.ret].
      rewrite (modify_chain3 l _ _ _ h t _ Hl).
      destruct (average_last_3d t) as [t1|]; [|reflexivity].
      destruct (average_middle_3d t1) as [t2|]; [|reflexivity].
      destruct (average_first_3d t2) as [t3|]; [|reflexivity].
      unfold St.bind, St.load, St.lift.
      rewrite nth_error_update_same by (eapply nth_error_lt; eauto).
      reflexivity.
    + unfold St.bind at 1. unfold St.clone, St.bind at 1, St.load, St.alloc.
      rewrite Hl.
      rewrite (modify_chain3 (length h) _ _ _ (h ++ [t]) t _
                 (nth_error_app_last h t)).
      destruct (average_last_3d t) as [t1|]; [|reflexivity].
      destruct (average_middle_3d t1) as [t2|]; [|reflexivity].
      destruct (average_first_3d t2) as [t3|]; [|reflexivity].
      rewrite update_app_last.
      unfold St.bind, St.lift. rewrite nth_error_app_last. reflexivity.
  - destruct (Py.kwarg true inplace); unfold St.bind, St.ret, St.clone,
      St.bind, St.load; rewrite ?modify_eq, Hl; reflexivity.
Qed.

(** ** Desymmetrised entries *)

Lemma under2_total (g : mat -> mat) (t : tensor) :
  under2 (fun m => Some (g m)) t = Some (map2d g t).
Proof.
  destruct t as [m|v|b]; cbn [under2 map2d option_map].
  - reflexivity.
  - now rewrite mapM_total.
  - assert (E : mapM (mapM (fun m => Some (g m))) b = Some (map (map g) b)).
    { induction b as [|v b IH]; cbn; [reflexivity|].
      now rewrite mapM_total, IH. }
    now rewrite E.
Qed.

Lemma under3_total (g : vol -> vol) (t : tensor) :
  ndim t <> 2 -> under3 (fun v => Some (g v)) t = Some (map3d g t).
Proof.
  destruct t as [m|v|b]; cbn [under3 map3d option_map ndim]; intro H.
  - congruence.
  - reflexivity.
  - now rewrite mapM_total.
Qed.

Lemma batch_of_dims (h w : nat) (t : tensor) :
  batch_of (rect2 h w) t -> 0 < h -> height t = h /\ width t = w.
Proof.
  intros Ht Hh. unfold height, width.
  destruct t as [m|v|b]; cbn [batch_of] in Ht.
  - rewrite (shape_T2 h w m Ht Hh). now split.
  - destruct Ht as [Hne HF]. rewrite (shape_T3 h w v Hne HF Hh). now split.
  - destruct Ht as [Hne HF]. destruct b as [|v b]; [congruence|].
    inversion HF as [|? ? [Hv Hrect] _]; subst.
    cbn [Tensor.shape]. unfold shape4. cbn [hd].
    change (shape3 v) with (Tensor.shape (T3 v)).
    rewrite (shape_T3 h w v Hv Hrect Hh). now split.
Qed.

Lemma batch_of_map2d (P Q : mat -> Prop) (g : mat -> mat) (t : tensor) :
  (forall m, P m -> Q (g m)) -> batch_of P t -> batch_of Q (map2d g t).
Proof.
  intros Hg. destruct t as [m|v|b]; cbn [batch_of map2d].
  - apply Hg.
  - intros [Hne HF]. split; [now apply map_nonempty|].
    apply Forall_map. eapply Forall_impl; [|exact HF]. exact Hg.
  - intros [Hne HF]. split; [now apply map_nonempty|].
    apply Forall_map. eapply Forall_impl; [|exact HF].
    intros v [Hv HFv]. split; [now apply map_nonempty|].
    apply Forall_map. eapply Forall_impl; [|exact HFv]. exact Hg.
Qed.

Lemma Forall2_map_self {A B} (P : A -> Prop) (R : A -> B -> Prop)
  (g : A -> B) (l : list A) :
  (forall x, P x -> R x (g x)) -> Forall P l -> Forall2 R l (map g l).
Proof.
  intros Hg HF. induction HF; cbn; constructor; auto.
Qed.

Lemma rel_under2_map2d (P : mat -> Prop) (R : mat -> mat -> Prop)
  (g : mat -> mat) (t : tensor) :
  (forall m, P m -> R m (g m)) -> batch_of P t -> rel_under2 R t (map2d g t).
Proof.
  intros Hg. destruct t as [m|v|b]; cbn [batch_of map2d rel_under2].
  - apply Hg.
  - intros [_ HF]. now apply (Forall2_map_self P).
  - intros [_ HF].
    apply (Forall2_map_self (fun v => v <> [] /\ Forall P v)); [|exact HF].
    intros v [_ HFv]. now apply (Forall2_map_self P).
Qed.

Lemma map2d_map2d (f g : mat -> mat) (t : tensor) :
  map2d f (map2d g t) = map2d (fun m => f (g m)) t.
Proof.
  destruct t as [m|v|b]; cbn [map2d]; [reflexivity| |].
  - now rewrite map_map.
  - rewrite map_map. f_equal. apply map_ext. intro v. apply map_map.
Qed.

(** The two averaging statements and the final slice, on one matrix. *)
Lemma desym2_mat (N : nat) (m : mat) :
  rect2 (N + 1) (N + 1) m ->
  desym2_of N m
    (drop_last2 (average_rows_mat (N + 1) (average_columns_mat (N + 1) m))).
Proof.
  intro Hm. set (m1 := average_columns_mat (N + 1) m).
  assert (Hm1 : rect2 (N + 1) (N + 1) m1) by now apply rect2_assign2.
  assert (E1 : forall i j, i <= N -> j <= N ->
                 get2 m1 i j = desym2_columns m N i j).
  { intros i j Hi Hj. unfold m1, average_columns_mat, desym2_columns.
    rewrite (get2_assign2 (N + 1) (N + 1)) by (trivial; lia).
    now replace (N + 1 - 1) with N by lia. }
  split.
  - replace N with (N + 1 - 1) at 1 2 by lia.
    now apply rect2_drop_last2, rect2_assign2.
  - intros i j Hi Hj.
    rewrite (get2_drop_last2 (N + 1) (N + 1))
      by (try apply rect2_assign2; trivial; lia).
    unfold average_rows_mat.
    rewrite (get2_assign2 (N + 1) (N + 1)) by (trivial; lia).
    unfold desym2_entry. replace (N + 1 - 1) with N by lia.
    rewrite !E1 by lia. reflexivity.
Qed.

Lemma rect3_drop_last3 (d h w : nat) (v : vol) :
  rect3 d h w v -> rect3 (d - 1) (h - 1) (w - 1) (drop_last3 v).
Proof.
  intros [Hl HF]. split; unfold drop_last3.
  - rewrite length_removelast', length_map. lia.
  - apply Forall_removelast, Forall_map.
    eapply Forall_impl; [|exact HF].
    intros m Hm. now apply rect2_drop_last2.
Qed.

Lemma get3_drop_last3 (d h w : nat) (v : vol) (k i j : nat) :
  rect3 d h w v -> k < d - 1 -> i < h - 1 -> j < w - 1 ->
  get3 (drop_last3 v) k i j = get3 v k i j.
Proof.
  intros Hv Hk Hi Hj. unfold get3, drop_last3.
  assert (Hl : length v = d) by apply Hv.
  rewrite nth_removelast by (rewrite length_map; lia).
  rewrite (nth_map_nil drop_last2) by reflexivity.
  apply (get2_drop_last2 h w); trivial.
  apply (rect3_slab d h w); [exact Hv|lia].
Qed.

(** The three averaging statements and the final slice, on one volume. *)
Lemma desym3_vol (N : nat) (v : vol) :
  rect3 (N + 1) (N + 1) (N + 1) v ->
  desym3_of N v
    (drop_last3
       (average_first_vol (N + 1)
          (average_middle_vol (N + 1) (average_last_vol (N + 1) v)))).
Proof.
  intro Hv. set (v1 := average_last_vol (N + 1) v).
  assert (Hv1 : rect3 (N + 1) (N + 1) (N + 1) v1) by now apply rect3_assign3.
  assert (E1 : forall k i j, k <= N -> i <= N -> j <= N ->
                 get3 v1 k i j = desym3_last v N k i j).
  { intros k i j Hk Hi Hj. unfold v1, average_last_vol, desym3_last.
    rewrite (get3_assign3 (N + 1) (N + 1) (N + 1)) by (trivial; lia).
    now replace (N + 1 - 1) with N by lia. }
  set (v2 := average_middle_vol (N + 1) v1).
  assert (Hv2 : rect3 (N + 1) (N + 1) (N + 1) v2) by now apply rect3_assign3.
  assert (E2 : forall k i j, k <= N -> i <= N -> j <= N ->
                 get3 v2 k i j = desym3_middle v N k i j).
  { intros k i j Hk Hi Hj. unfold v2, average_middle_vol, desym3_middle.
    rewrite (get3_assign3 (N + 1) (N + 1) (N + 1)) by (trivial; lia).
    replace (N + 1 - 1) with N by lia. now rewrite !E1 by lia. }
  split.
  - replace N with (N + 1 - 1) at 1 2 3 by lia.
    now apply rect3_drop_last3, rect3_assign3.
  - intros k i j Hk Hi Hj.
    rewrite (get3_drop_last3 (N + 1) (N + 1) (N + 1))
      by (try apply rect3_assign3; trivial; lia).
    unfold average_first_vol.
    rewrite (get3_assign3 (N + 1) (N + 1) (N + 1)) by (trivial; lia).
    unfold desym3_entry. replace (N + 1 - 1) with N by lia.
    rewrite !E2 by lia. reflexivity.
Qed.

Lemma volumes_of_dims (d h w : nat) (t : tensor) :
  volumes_of (rect3 d h w) t -> 0 < d -> 0 < h ->
  ndim t <> 2 /\ depth t = d /\ height t = h /\ width t = w.
Proof.
  intros Ht Hd Hh. unfold depth, height, width.
  destruct t as [m|v|b]; cbn [volumes_of] in Ht.
  - contradiction.
  - destruct (shape_rect3 d h w v Ht Hd Hh) as [H1 [H2 H3]].
    cbn [Tensor.shape]. unfold shape3, shape2. rewrite H1, H2, H3.
    cbn. repeat split; congruence.
  - destruct Ht as [Hne HF]. destruct b as [|v b]; [congruence|].
    assert (Hv : rect3 d h w v) by now inversion HF.
    destruct (shape_rect3 d h w v Hv Hd Hh) as [H1 [H2 H3]].
    cbn [Tensor.shape]. unfold shape4, shape3, shape2. cbn [hd].
    rewrite H1, H2, H3. cbn. repeat split; congruence.
Qed.

Lemma volumes_of_map3d (P Q : vol -> Prop) (g : vol -> vol) (t : tensor) :
  (forall v, P v -> Q (g v)) -> volumes_of P t -> volumes_of Q (map3d g t).
Proof.
  intros Hg. destruct t as [m|v|b]; cbn [volumes_of map3d].
  - trivial.
  - apply Hg.
  - intros [Hne HF]. split; [now apply map_nonempty|].
    apply Forall_map. eapply Forall_impl; [|exact HF]. exact Hg.
Qed.

Lemma rel_under3_map3d (P : vol -> Prop) (R : vol -> vol -> Prop)
  (g : vol -> vol) (t : tensor) :
  (forall v, P v -> R v (g v)) -> volumes_of P t ->
  rel_under3 R t (map3d g t).
Proof.
  intros Hg. destruct t as [m|v|b]; cbn [volumes_of map3d rel_under3].
  - trivial.
  - apply Hg.
  - intros [_ HF]. now apply (Forall2_map_self P).
Qed.

Lemma map3d_map3d (f g : vol -> vol) (t : tensor) :
  map3d f (map3d g t) = map3d (fun v => f (g v)) t.
Proof.
  destruct t as [m|v|b]; cbn [map3d]; [reflexivity|reflexivity|].
  now rewrite map_map.
Qed.

Lemma ndim_map3d (g : vol -> vol) (t : tensor) : ndim (map3d g t) = ndim t.
Proof. now destruct t. Qed.

(** C7: on a symmetrised DFT of shape [(..., N+1, N+1)],
    [symmetrised_dft_to_dft_2d] returns an [(..., N, N)] array: column 0
    holds the average of the first and last column, then row 0 the average
    of the first and last row of the column-averaged array (so the corner
    averages averaged values), and the last row and column are dropped.
    [symmetrised_dft_to_dft_3d] does the same on [(..., N+1, N+1, N+1)] in
    axis order last, middle, first and returns [(..., N, N, N)]. *)
Theorem desymmetrisation_averages (N : nat) (t2 t3 : tensor) (h : heap)
  (l2 l3 : loc) (inplace : option bool) :
  batch_of (rect2 (N + 1) (N + 1)) t2 -> nth_error h l2 = Some t2 ->
  volumes_of (rect3 (N + 1) (N + 1) (N + 1)) t3 -> nth_error h l3 = Some t3 ->
  (exists out h',
      symmetrised_dft_to_dft_2d l2 inplace h = Some (out, h')
      /\ rel_under2 (desym2_of N) t2 out)
  /\ (exists out h',
        symmetrised_dft_to_dft_3d l3 inplace h = Some (out, h')
        /\ rel_under3 (desym3_of N) t3 out).
Proof.
  intros H2 Hl2 H3 Hl3. split.
  - rewrite symmetrised_dft_to_dft_2d_eq, Hl2.
    destruct (batch_of_dims (N + 1) (N + 1) t2 H2 ltac:(lia)) as [Hh Hw].
    unfold average_columns_2d. rewrite Hw.
    replace (N + 1 =? 0) with false by (symmetry; apply Nat.eqb_neq; lia).
    rewrite under2_total.
    set (t1 := map2d (average_columns_mat (N + 1)) t2).
    assert (H1 : batch_of (rect2 (N + 1) (N + 1)) t1).
    { apply (batch_of_map2d (rect2 (N + 1) (N + 1))); [|exact H2].
      intros m Hm. now apply rect2_assign2. }
    destruct (batch_of_dims (N + 1) (N + 1) t1 H1 ltac:(lia)) as [Hh1 Hw1].
    unfold average_rows_2d. rewrite Hh1.
    replace (N + 1 =? 0) with false by (symmetry; apply Nat.eqb_neq; lia).
    rewrite !under2_total.
    eexists. eexists. split; [reflexivity|].
    unfold t1. rewrite !map2d_map2d.
    apply (rel_under2_map2d (rect2 (N + 1) (N + 1))); [|exact H2].
    intros m Hm. now apply desym2_mat.
  - rewrite symmetrised_dft_to_dft_3d_eq, Hl3.
    destruct (volumes_of_dims _ _ _ t3 H3 ltac:(lia) ltac:(lia))
      as [Hn [Hd [Hh Hw]]].
    unfold average_last_3d. rewrite Hw.
    replace (N + 1 =? 0) with false by (symmetry; apply Nat.eqb_neq; lia).
    rewrite under3_total by exact Hn.
    set (t1 := map3d (average_last_vol (N + 1)) t3).
    assert (H1 : volumes_of (rect3 (N + 1) (N + 1) (N + 1)) t1).
    { apply (volumes_of_map3d (rect3 (N + 1) (N + 1) (N + 1))); [|exact H3].
      intros v Hv. now apply rect3_assign3. }
    destruct (volumes_of_dims _ _ _ t1 H1 ltac:(lia) ltac:(lia))
      as [Hn1 [Hd1 [Hh1 Hw1]]].
    unfold average_middle_3d. rewrite Hh1.
    replace (N + 1 =? 0) with false by (symmetry; apply Nat.eqb_neq; lia).
    rewrite under3_total by exact Hn1.
    set (t2' := map3d (average_middle_vol (N + 1)) t1).
    assert (H2' : volumes_of (rect3 (N + 1) (N + 1) (N + 1)) t2').
    { apply (volumes_of_map3d (rect3 (N + 1) (N + 1) (N + 1))); [|exact H1].
      intros v Hv. now apply rect3_assign3. }
    destruct (volumes_of_dims _ _ _ t2' H2' ltac:(lia) ltac:(lia))
      as [Hn2 [Hd2 [Hh2 Hw2]]].
    unfold average_first_3d. rewrite Hd2.
    replace (N + 1 =? 0) with false by (symmetry; apply Nat.eqb_neq; lia).
    rewrite under3_total by exact Hn2.
    rewrite under3_total by (now rewrite ndim_map3d).
    eexists. eexists. split; [reflexivity|].
    unfold t2', t1. rewrite !map3d_map3d.
    apply (rel_under3_map3d (rect3 (N + 1) (N + 1) (N + 1))); [|exact H3].
    intros v Hv. now apply desym3_vol.
Qed.

Lemma desymmetrisation_averages_witness :
  (exists out h',
      symmetrised_dft_to_dft_2d 0 None [T3 example_dft_333] = Some (out, h')
      /\ rel_under2 (desym2_of 2) (T3 example_dft_333) out)
  /\ (exists out h',
        symmetrised_dft_to_dft_3d 0 None [T3 example_dft_333]
        = Some (out, h')
        /\ rel_under3 (desym3_of 2) (T3 example_dft_333) out).
Proof.
  apply (desymmetrisation_averages 2 (T3 example_dft_333)
           (T3 example_dft_333) [T3 example_dft_333] 0 0 None).
  - split; [discriminate|]. repeat constructor.
  - reflexivity.
  - split; [reflexivity|]. repeat constructor.
  - reflexivity.
Defined.

(** ** The [inplace] flag *)


Lemma only_written_trans (h1 h2 h3 : heap) (l : loc) :
  only_written h1 h2 l -> only_written h2 h3 l -> only_written h1 h3 l.
Proof.
  intros [N1 F1] [N2 F2]. split; [congruence|].
  intros l' Hne. now rewrite F2, F1.
Qed.






Lemma only_written_update (h : heap) (l : loc) (t : tensor) :
  only_written h (St.update h l t) l.
Proof.
  split; [apply length_update|].
  intros l' Hne. now apply nth_error_update_other.
Qed.



(** The calls of the witness do return, and the flag shows in the caller's
    buffer: entry [(0, 0)] of [example_dft_5] is [1 + i] before the call;
    after an in-place call of [symmetrised_dft_to_dft_2d] it is the corner
    average [13 + 4i], after [symmetrised_dft_to_rfft_2d] in place entry
    [(0, 4)] is [13 + i/2] instead of [5 + 2i], and after the calls with
    [inplace=False] both entries are as before. *)
Example inplace_flag_on_example :
  let h := [T2 example_dft_5] in
  entry_is (buffer_entry
              (heap_after (symmetrised_dft_to_dft_2d 0 None h)) 0 0 0)
           (cz 13 4) = true
  /\ entry_is (buffer_entry
                 (heap_after (symmetrised_dft_to_dft_2d 0 (Some false) h))
                 0 0 0)
              (cz 1 1) = true
  /\ entry_is (buffer_entry
                 (heap_after (symmetrised_dft_to_rfft_2d 0 None h)) 0 0 4)
              (mkC (Q2Qc (13 # 1)) half) = true
  /\ entry_is (buffer_entry
                 (heap_after (symmetrised_dft_to_rfft_2d 0 (Some false) h))
                 0 0 4)
              (cz 5 2) = true.
Proof. vm_compute. repeat split. Qed.

(** ** Slice extraction *)

Lemma ltb_lt (a b : Qc) : Grid.ltb a b = true <-> (a < b)%Qc.
Proof.
  unfold Grid.ltb. rewrite Qclt_alt.
  destruct (a ?= b)%Qc; split; congruence.
Qed.

(** Every rational is above 0 or below 1. *)
Lemma above_0_or_below_1 (c : Qc) :
  Grid.gtb c 0%Qc || Grid.ltb c 1%Qc = true.
Proof.
  apply orb_true_iff. unfold Grid.gtb.
  destruct (Qclt_le_dec 0%Qc c) as [H|H].
  - left. now apply ltb_lt.
  - right. apply ltb_lt. apply (Qcle_lt_trans _ 0%Qc); [exact H|].
    reflexivity.
Qed.

Lemma inside_test_true (g : point) : inside_test g = true.
Proof.
  unfold inside_test. cbn [forallb]. now rewrite !above_0_or_below_1.
Qed.

Lemma zipWith_map {A B D E} (f : B -> D -> E) (g : A -> B) (k : A -> D)
  (l : list A) :
  Grid.zipWith f (map g l) (map k l) = map (fun x => f (g x) (k x)) l.
Proof. induction l as [|x l IH]; cbn; [reflexivity|]. now rewrite IH. Qed.

Lemma zipWith3_map3 {A B D E} (f : B -> D -> E) (g : A -> B) (k : A -> D)
  (t : list (list (list A))) :
  Grid.zipWith3 f (Grid.map3 g t) (Grid.map3 k t)
  = Grid.map3 (fun x => f (g x) (k x)) t.
Proof.
  unfold Grid.zipWith3, Grid.map3. rewrite zipWith_map.
  apply map_ext. intro m. rewrite zipWith_map.
  apply map_ext. intro r. apply zipWith_map.
Qed.

Lemma map3_map3 {A B D} (f : B -> D) (g : A -> B) (t : list (list (list A))) :
  Grid.map3 f (Grid.map3 g t) = Grid.map3 (fun x => f (g x)) t.
Proof.
  unfold Grid.map3. rewrite map_map. apply map_ext. intro m.
  rewrite map_map. apply map_ext. intro r. apply map_map.
Qed.

Lemma map3_ext {A B} (f g : A -> B) (t : list (list (list A))) :
  (forall x, f x = g x) -> Grid.map3 f t = Grid.map3 g t.
Proof.
  intro H. unfold Grid.map3.
  apply map_ext. intro m. apply map_ext. intro r. now apply map_ext.
Qed.

Lemma map3_id {A} (t : list (list (list A))) : Grid.map3 (fun x => x) t = t.
Proof.
  unfold Grid.map3. rewrite <- (map_id t) at 2.
  apply map_ext. intro m. rewrite <- (map_id m) at 2.
  apply map_ext. intro r. apply map_id.
Qed.

(** [extract_slices] returns the interpolated sample at every pixel: the
    [inside] flag is true everywhere, so nothing is multiplied by 0. *)
Lemma extract_slices_samples (gs : list (list (list Qc)) -> point -> Qc)
  (conv : point -> list nat -> point) (dft : vol)
  (coords : list (list (list point))) :
  extract_slices gs conv dft coords
  = Grid.map3
      (fun p =>
         let g := conv p (Tensor.shape (T3 dft)) in
         mkC (gs (Grid.real_channel dft) g) (gs (Grid.imag_channel dft) g))
      coords.
Proof.
  unfold extract_slices.
  rewrite !map3_map3, !zipWith3_map3.
  apply map3_ext. intro p. now rewrite inside_test_true.
Qed.

Lemma sample_one_eq (gs : list (list (list Qc)) -> point -> Qc)
  (conv : point -> list nat -> point) (dft : vol) (q : point) :
  sample_one gs conv dft q
  = let g := conv q (Tensor.shape (T3 dft)) in
    mkC (gs (Grid.real_channel dft) g) (gs (Grid.imag_channel dft) g).
Proof. unfold sample_one. now rewrite extract_slices_samples. Qed.

(** C1 fails on the code: for the all-ones [(2, 2, 2)] DFT and the
    coordinate [(5, 5, 5)], outside [[0, 1]] on every axis,
    [extract_slices] returns the border sample [1 + 0i], not 0. *)
Theorem extract_slices_keeps_outside_sample :
  extract_slices Torch.grid_sample array_to_grid_sample_spec
    example_dft_ones example_outside_coordinates = [[[one]]]
  /\ one <> zero.
Proof.
  split.
  - rewrite extract_slices_samples.
    cbn [Grid.map3 map example_outside_coordinates].
    match goal with
    | |- [[[ {| re := ?a; im := ?b |} ]]] = _ =>
        assert (Ha : a = 1%Qc) by (apply Qc_is_canon; vm_compute; reflexivity);
        assert (Hb : b = 0%Qc) by (apply Qc_is_canon; vm_compute; reflexivity);
        rewrite Ha, Hb
    end.
    reflexivity.
  - intro H. apply (f_equal re) in H. apply (f_equal this) in H.
    vm_compute in H. discriminate.
Qed.

(** ** Conjugate-half correction in [project] *)

Lemma zipWith_map_left {A B D} (f : B -> A -> D) (g : A -> B) (l : list A) :
  Grid.zipWith f (map g l) l = map (fun x => f (g x) x) l.
Proof. induction l as [|x l IH]; cbn; [reflexivity|]. now rewrite IH. Qed.

Lemma zipWith3_map3_left {A B D} (f : B -> A -> D) (g : A -> B)
  (t : list (list (list A))) :
  Grid.zipWith3 f (Grid.map3 g t) t = Grid.map3 (fun x => f (g x) x) t.
Proof.
  unfold Grid.zipWith3, Grid.map3. rewrite zipWith_map_left.
  apply map_ext. intro m. rewrite zipWith_map_left.
  apply map_ext. intro r. apply zipWith_map_left.
Qed.

Lemma times_minus_one (x : Qc) : (x * Qcopp 1 = - x)%Qc.
Proof. ring. Qed.

(** C5: at every point of the rotated frequency grid, [project] samples
    the DFT at the converted coordinates of the point itself when its
    last-axis frequency is not negative, and returns that sample as it is;
    when the last-axis frequency is negative it samples at the converted
    coordinates of the point with all three frequencies negated and
    returns the complex conjugate of that sample. *)
Theorem project_redirects_and_conjugates
  (gs : list (list (list Qc)) -> point -> Qc)
  (conv : point -> list nat -> point)
  (f2c : point -> list nat -> bool -> point)
  (dft : vol) (image_shape : list nat) (grid : list (list (list point))) :
  project_samples gs conv f2c dft image_shape grid
  = Grid.map3
      (fun p =>
         if Grid.ltb (c2 p) 0%Qc
         then conj (sample_one gs conv dft
                      (f2c (Grid.neg p) image_shape true))
         else sample_one gs conv dft (f2c p image_shape true))
      grid.
Proof.
  unfold project_samples.
  rewrite extract_slices_samples.
  rewrite !map3_map3, zipWith3_map3_left, !map3_map3, zipWith3_map3.
  apply map3_ext. intro p. cbn [fst].
  rewrite !sample_one_eq. cbn zeta.
  destruct (Grid.ltb (c2 p) 0%Qc).
  - rewrite !times_minus_one. reflexivity.
  - now destruct p.
Qed.

(** ** The cuboid mask *)

Lemma nth_map_seq {A} (f : nat -> A) (n i : nat) (d : A) :
  i < n -> nth i (map f (seq 0 n)) d = f i.
Proof.
  intro Hi. rewrite (nth_indep _ d (f 0)) by (now rewrite length_map, length_seq).
  rewrite map_nth. now rewrite seq_nth.
Qed.

Lemma mask_entry_grid (G : point -> Qc) (d h w : nat) (center : point)
  (z y x : nat) :
  z < d -> y < h -> x < w ->
  mask_entry (Grid.map3 G (coordinate_grid (d, h, w) center)) z y x
  = G (voxel_offset center z y x).
Proof.
  intros Hz Hy Hx. unfold mask_entry, Grid.map3, coordinate_grid.
  rewrite !map_map. rewrite nth_map_seq by exact Hz.
  rewrite !map_map. rewrite nth_map_seq by exact Hy.
  rewrite !map_map. rewrite nth_map_seq by exact Hx.
  reflexivity.
Qed.

(** With a hard edge, [cuboid] is 1 exactly where the depth offset lies
    within half of [dimensions[1]] and the height and width offsets within
    half of [dimensions[2]]; [dimensions[0]] is never read. *)
Lemma cuboid_entry (soft_edge : list (list (list bool)) -> Qc -> list (list (list Qc)))
  (dimensions : Qc * Qc * Qc) (d h w : nat) (center : point) (z y x : nat) :
  z < d -> y < h -> x < w ->
  mask_entry (cuboid soft_edge dimensions (Sides d h w) (Some center) 0%Qc)
             z y x
  = cuboid_computed dimensions (voxel_offset center z y x).
Proof.
  intros Hz Hy Hx. destruct dimensions as [[dim0 dim1] dim2].
  unfold cuboid, add_soft_edge_3d.
  replace (Qc_eq_bool 0%Qc 0%Qc) with true by reflexivity.
  rewrite !zipWith3_map3, map3_map3.
  rewrite mask_entry_grid by assumption.
  unfold cuboid_computed. reflexivity.
Qed.

(** C2 fails on the code: for dimensions [(8, 2, 2)] in an image of side
    8 (centre [(4, 4, 4)]), voxel [(6, 4, 4)] has offset [(2, 0, 0)], inside
    [(-4, 4)], [(-1, 1)], [(-1, 1)] axis by axis, so the claimed mask is
    1 there; [cuboid] tests the depth offset 2 against [2 / 2] and returns
    0. *)
Theorem cuboid_tests_depth_against_height
  (soft_edge : list (list (list bool)) -> Qc -> list (list (list Qc))) :
  mask_entry (cuboid soft_edge example_dimensions (Side 8) None 0%Qc) 6 4 4
  = 0%Qc
  /\ cuboid_claimed example_dimensions
       (voxel_offset (dft_center (8, 8, 8)) 6 4 4) = 1%Qc
  /\ 0%Qc <> 1%Qc.
Proof.
  split; [|split].
  - change (cuboid soft_edge example_dimensions (Side 8) None 0%Qc)
      with (cuboid soft_edge example_dimensions (Sides 8 8 8)
              (Some (dft_center (8, 8, 8))) 0%Qc).
    rewrite cuboid_entry by lia.
    apply Qc_is_canon. vm_compute. reflexivity.
  - apply Qc_is_canon. vm_compute. reflexivity.
  - intro H. apply (f_equal this) in H. vm_compute in H. discriminate.
Qed.

(** * Part III: further properties of the code *)

(** ** Layout of the symmetrised 2D spectrum *)

Lemma symmetrised_layout (N : nat) (X S : mat) :
  0 < N -> Nat.Even N -> symmetrised (fftshift X) N S -> sym2_layout N X S.
Proof.
  intros HN He [HS HE]. destruct (even_half N He) as [k [Hk Hdc]].
  unfold sym2_layout. rewrite Hdc.
  split; [exact HS|]. split; [|split].
  - intros i j Hi Hj. rewrite HE by lia.
    unfold sym2_entry, sym2_right. rewrite Hdc.
    replace (k <=? k + j) with true by (symmetry; apply Nat.leb_le; lia).
    replace (i =? N) with false by (symmetry; apply Nat.eqb_neq; lia).
    f_equal. lia.
  - intros j Hj. rewrite !HE by lia. unfold sym2_entry. rewrite Hdc.
    replace (N - N) with 0 by lia. replace (N - 0) with N by lia.
    destruct (k <=? j).
    + symmetry. apply sym2_right_nyquist.
    + f_equal. apply sym2_right_nyquist.
  - intros i j Hi Hj Hne. rewrite !HE by lia. unfold sym2_entry.
    rewrite Hdc.
    destruct (Nat.leb_spec k j) as [Hge|Hlt].
    + replace (k <=? N - j) with false by (symmetry; apply Nat.leb_gt; lia).
      rewrite conj_conj. f_equal; lia.
    + replace (k <=? N - j) with true by (symmetry; apply Nat.leb_le; lia).
      reflexivity.
Qed.

Lemma rel_under2_impl (R R' : mat -> mat -> Prop) (t t' : tensor) :
  (forall m m', R m m' -> R' m m') -> rel_under2 R t t' -> rel_under2 R' t t'.
Proof.
  intro H. destruct t as [m|v|b], t' as [m'|v'|b']; cbn [rel_under2]; auto.
  - intro HF. induction HF; constructor; auto.
  - intro HF. induction HF as [|v0 v0' b0 b0' Hv _ IH]; constructor; auto.
    clear -H Hv. induction Hv; constructor; auto.
Qed.

Lemma rect2_hd_length (h w : nat) (m : mat) :
  rect2 h w m -> 0 < h -> length (hd [] m) = w.
Proof.
  intros [Hl HF] Hh. destruct m as [|r m]; [cbn in Hl; lia|].
  now inversion HF.
Qed.

Lemma batch_hd_dims (h w : nat) (v : vol) :
  v <> [] -> Forall (rect2 h w) v -> 0 < h ->
  length (hd [] v) = h /\ length (hd [] (hd [] v)) = w.
Proof.
  intros Hne HF Hh. destruct v as [|m v]; [congruence|].
  inversion HF as [|? ? Hm _]; subst. cbn [hd]. split.
  - apply Hm.
  - now apply (rect2_hd_length h w).
Qed.

(** On the rfft of a square image of even side, the symmetrisation
    succeeds and every output matrix is the symmetrised spectrum of its
    input matrix. *)
Lemma rfft_to_symmetrised_dft_2d_total (N : nat) (X : tensor) :
  0 < N -> Nat.Even N -> ndim X <= 3 -> batch_of (rect2 N (N / 2 + 1)) X ->
  exists S,
    rfft_to_symmetrised_dft_2d X = Some S
    /\ rel_under2 (fun x s => symmetrised (fftshift x) N s) X S.
Proof.
  intros HN He Hnd HX.
  destruct X as [m|v|b]; cbn [batch_of ndim] in *; [| |lia].
  - destruct (rfft_to_symmetrised_dft_2d_mat_spec N m HN He HX)
      as [S [HS Hsym]].
    assert (Hlen : length m = N) by apply HX.
    assert (Hw := rect2_hd_length N (N / 2 + 1) m HX HN).
    exists (T2 S). cbn [rfft_to_symmetrised_dft_2d rel_under2].
    rewrite Hlen, Hw, HS. split; [reflexivity|exact Hsym].
  - destruct HX as [Hne HF].
    destruct (batch_hd_dims N (N / 2 + 1) v Hne HF HN) as [Hlen Hw].
    destruct (mapM_Forall2 (rfft_to_symmetrised_dft_2d_mat N (N / 2 + 1))
                (fun x S => symmetrised (fftshift x) N S) v) as [ss [Hss HF2]].
    { intros x Hx. rewrite Forall_forall in HF.
      apply rfft_to_symmetrised_dft_2d_mat_spec; auto. }
    exists (T3 ss). cbn [rfft_to_symmetrised_dft_2d rel_under2].
    rewrite Hlen, Hw, Hss. split; [reflexivity|exact HF2].
Qed.

(** X1: on the rfft of a square image of even side [N] (one matrix or a
    non-empty batch), [rfft_to_symmetrised_dft_2d] returns [(N+1, N+1)]
    matrices whose right half holds the shifted rfft, whose last row
    repeats the first, and which are Hermitian about the centre away from
    the DC column. *)
Theorem rfft_to_symmetrised_dft_2d_layout (N : nat) (X : tensor) :
  0 < N -> Nat.Even N -> ndim X <= 3 -> batch_of (rect2 N (N / 2 + 1)) X ->
  exists S,
    rfft_to_symmetrised_dft_2d X = Some S
    /\ rel_under2 (sym2_layout N) X S.
Proof.
  intros HN He Hnd HX.
  destruct (rfft_to_symmetrised_dft_2d_total N X HN He Hnd HX) as [S [E R]].
  exists S. split; [exact E|].
  apply (rel_under2_impl _ _ _ _ (fun m m' => symmetrised_layout N m m' HN He)).
  exact R.
Qed.

Lemma rfft_to_symmetrised_dft_2d_layout_witness :
  exists S,
    rfft_to_symmetrised_dft_2d (T2 example_rfft_4) = Some S
    /\ rel_under2 (sym2_layout 4) (T2 example_rfft_4) S.
Proof.
  apply (rfft_to_symmetrised_dft_2d_layout 4 (T2 example_rfft_4)).
  - lia.
  - exists 2. reflexivity.
  - cbn. lia.
  - split; [reflexivity|]. repeat constructor.
Defined.

(** ** Odd sides *)

Lemma odd_half' (r : nat) : Nat.Odd r -> exists k, r = 2 * k + 1 /\ r / 2 = k.
Proof.
  intros [k Hk]. exists k. split; [exact Hk|]. subst r. apply odd_half.
Qed.

(** X2: the symmetrisation accepts even sides only.  For an odd side
    [r >= 3] the rfft has [r // 2 + 1] columns but the slice it is
    assigned to has [r + 1 - r // 2], one more, and the call raises, in 2D
    and in 3D. *)
Theorem rfft_to_symmetrised_dft_odd_side_raises (r : nat) (m : mat)
  (v : vol) :
  Nat.Odd r -> 3 <= r ->
  rect2 r (r / 2 + 1) m -> rect3 r r (r / 2 + 1) v ->
  rfft_to_symmetrised_dft_2d (T2 m) = None
  /\ rfft_to_symmetrised_dft_3d (T3 v) = None.
Proof.
  intros Ho Hr Hm Hv. destruct (odd_half' r Ho) as [k [Hk Hdc]].
  assert (Hfit : fits (r / 2 + 1) (r + 1 - r / 2) = false).
  { rewrite Hdc. unfold fits. apply orb_false_iff.
    split; apply Nat.eqb_neq; lia. }
  split.
  - cbn [rfft_to_symmetrised_dft_2d].
    replace (length m) with r by (symmetry; apply Hm).
    rewrite (rect2_hd_length r (r / 2 + 1) m Hm) by lia.
    unfold rfft_to_symmetrised_dft_2d_mat. now rewrite Hfit.
  - cbn [rfft_to_symmetrised_dft_3d].
    destruct (shape_rect3 r r (r / 2 + 1) v Hv) as [H1 [H2 H3]]; try lia.
    rewrite H1, H2, H3.
    unfold rfft_to_symmetrised_dft_3d_vol. rewrite Hfit, andb_false_r.
    reflexivity.
Qed.

Lemma rfft_to_symmetrised_dft_odd_side_raises_witness :
  rfft_to_symmetrised_dft_2d (T2 example_rfft_3) = None
  /\ rfft_to_symmetrised_dft_3d (T3 example_rfft_332) = None.
Proof.
  apply (rfft_to_symmetrised_dft_odd_side_raises 3 example_rfft_3
           example_rfft_332).
  - exists 1. reflexivity.
  - lia.
  - split; [reflexivity|]. repeat constructor.
  - split; [reflexivity|]. repeat constructor.
Defined.

(** ** Symmetrise, then desymmetrise *)

Ltac split_tests :=
  repeat match goal with
    | |- context [?a =? ?b] => destruct (Nat.eqb_spec a b)
    | |- context [?a <=? ?b] => destruct (Nat.leb_spec a b)
    end.

Lemma desym_of_symmetrised (N : nat) (xs S out : mat) :
  0 < N -> Nat.Even N -> symmetrised xs N S -> desym2_of N S out ->
  rect2 N N out
  /\ forall i j, i < N -> j < N -> get2 out i j = full_dft_entry xs N i j.
Proof.
  intros HN He [HS HE] [Hout Hent]. destruct (even_half N He) as [k [Hk Hdc]].
  split; [exact Hout|].
  intros i j Hi Hj. rewrite Hent by assumption.
  unfold desym2_entry, desym2_columns, full_dft_entry, mirror_row.
  rewrite !HE by lia. unfold sym2_entry, sym2_right. rewrite Hdc.
  replace (N - N) with 0 by lia. replace (N - 0) with N by lia.
  replace (N - k) with k by lia.
  split_tests; try lia; subst;
    rewrite ?avg_same; try reflexivity;
    repeat (f_equal; try lia).
Qed.

Lemma Forall2_right {A B} (R : A -> B -> Prop) (Q : B -> Prop)
  (l : list A) (l' : list B) :
  (forall x y, R x y -> Q y) -> Forall2 R l l' -> Forall Q l'.
Proof. intros H HF. induction HF; constructor; eauto. Qed.

Lemma Forall2_nonempty {A B} (R : A -> B -> Prop) (l : list A) (l' : list B) :
  Forall2 R l l' -> l <> [] -> l' <> [].
Proof. intros HF Hne. destruct HF; [congruence|discriminate]. Qed.

Lemma batch_of_related (R : mat -> mat -> Prop) (P Q : mat -> Prop)
  (t t' : tensor) :
  (forall x y, R x y -> Q y) -> rel_under2 R t t' -> batch_of P t ->
  batch_of Q t'.
Proof.
  intros H. destruct t as [m|v|b], t' as [m'|v'|b'];
    cbn [rel_under2 batch_of]; try contradiction.
  - intros HR _. eauto.
  - intros HF [Hne _]. split.
    + eapply Forall2_nonempty; eauto.
    + eapply Forall2_right; eauto.
  - intros HF [Hne HP]. split.
    + eapply Forall2_nonempty; eauto.
    + clear Hne. revert HP.
      induction HF as [|v0 v0' b0 b0' Hv _ IH]; intro HP; constructor.
      * inversion HP as [|? ? [Hv0 _] _]; subst. split.
        -- eapply Forall2_nonempty; eauto.
        -- eapply Forall2_right; eauto.
      * apply IH. now inversion HP.
Qed.

Lemma Forall2_compose {A B D} (R1 : A -> B -> Prop) (R2 : B -> D -> Prop)
  (l1 : list A) (l2 : list B) (l3 : list D) :
  Forall2 R1 l1 l2 -> Forall2 R2 l2 l3 ->
  Forall2 (fun x z => exists y, R1 x y /\ R2 y z) l1 l3.
Proof.
  intro H. revert l3. induction H as [|x y l1 l2 Hxy _ IH]; intros l3 H2.
  - inversion H2. constructor.
  - inversion H2; subst. constructor; eauto.
Qed.

Lemma rel_under2_compose (R1 R2 : mat -> mat -> Prop) (t1 t2 t3 : tensor) :
  rel_under2 R1 t1 t2 -> rel_under2 R2 t2 t3 ->
  rel_under2 (fun x z => exists y, R1 x y /\ R2 y z) t1 t3.
Proof.
  destruct t1 as [m1|v1|b1], t2 as [m2|v2|b2], t3 as [m3|v3|b3];
    cbn [rel_under2]; try contradiction; eauto.
  - apply Forall2_compose.
  - intros H1 H2.
    assert (H := Forall2_compose _ _ _ _ _ H1 H2).
    clear -H. induction H as [|x z l1 l3 [y [Hxy Hyz]] _ IH]; constructor.
    + eapply Forall2_compose; eauto.
    + exact IH.
Qed.

(** [symmetrised_dft_to_dft_2d] on a buffer of square matrices. *)
Lemma symmetrised_dft_to_dft_2d_run (N : nat) (t : tensor) (h : heap)
  (l : loc) (inplace : option bool) :
  batch_of (rect2 (N + 1) (N + 1)) t -> nth_error h l = Some t ->
  exists out h',
    symmetrised_dft_to_dft_2d l inplace h = Some (out, h')
    /\ rel_under2 (desym2_of N) t out.
Proof.
  intros H2 Hl2.
  rewrite symmetrised_dft_to_dft_2d_eq, Hl2.
  destruct (batch_of_dims (N + 1) (N + 1) t H2 ltac:(lia)) as [Hh Hw].
  unfold average_columns_2d. rewrite Hw.
  replace (N + 1 =? 0) with false by (symmetry; apply Nat.eqb_neq; lia).
  rewrite under2_total.
  set (t1 := map2d (average_columns_mat (N + 1)) t).
  assert (H1 : batch_of (rect2 (N + 1) (N + 1)) t1).
  { apply (batch_of_map2d (rect2 (N + 1) (N + 1))); [|exact H2].
    intros m Hm. now apply rect2_assign2. }
  destruct (batch_of_dims (N + 1) (N + 1) t1 H1 ltac:(lia)) as [Hh1 Hw1].
  unfold average_rows_2d. rewrite Hh1.
  replace (N + 1 =? 0) with false by (symmetry; apply Nat.eqb_neq; lia).
  rewrite !under2_total.
  eexists. eexists. split; [reflexivity|].
  unfold t1. rewrite !map2d_map2d.
  apply (rel_under2_map2d (rect2 (N + 1) (N + 1))); [|exact H2].
  intros m Hm. now apply desym2_mat.
Qed.

(** X3: symmetrising the rfft of a square image of even side [N] and
    desymmetrising the result with [symmetrised_dft_to_dft_2d] yields, for
    every matrix, the full shifted [(N, N)] DFT: the stored half as it is,
    the other half by conjugate mirroring, and in column 0 the average of
    the Nyquist column with its conjugated mirror. *)
Theorem symmetrise_then_desymmetrise_2d_full_dft (N : nat) (X : tensor)
  (inplace : option bool) (h : heap) :
  0 < N -> Nat.Even N -> ndim X <= 3 -> batch_of (rect2 N (N / 2 + 1)) X ->
  exists out h',
    symmetrise_then_desymmetrise_2d X inplace h = Some (out, h')
    /\ rel_under2 (full_dft_of N) X out.
Proof.
  intros HN He Hnd HX.
  destruct (rfft_to_symmetrised_dft_2d_total N X HN He Hnd HX) as [S [E R]].
  assert (HS : batch_of (rect2 (N + 1) (N + 1)) S).
  { apply (batch_of_related
             (fun x s => symmetrised (fftshift x) N s)
             (rect2 N (N / 2 + 1)) (rect2 (N + 1) (N + 1)) X S);
      [|exact R|exact HX].
    intros x y [Hy _]. exact Hy. }
  destruct (symmetrised_dft_to_dft_2d_run N S (h ++ [S]) (length h) inplace
              HS (nth_error_app_last h S)) as [out [h' [Erun Rout]]].
  exists out, h'. split.
  - unfold symmetrise_then_desymmetrise_2d. rewrite E.
    unfold St.bind, St.lift, St.alloc. exact Erun.
  - apply (rel_under2_impl
             (fun x z => exists y, symmetrised (fftshift x) N y
                                   /\ desym2_of N y z)).
    + intros x z [y [Hxy Hyz]]. unfold full_dft_of.
      now apply (desym_of_symmetrised N (fftshift x) y z).
    + exact (rel_under2_compose _ _ X S out R Rout).
Qed.

Lemma symmetrise_then_desymmetrise_2d_full_dft_witness :
  exists out h',
    symmetrise_then_desymmetrise_2d (T2 example_rfft_4) None []
    = Some (out, h')
    /\ rel_under2 (full_dft_of 4) (T2 example_rfft_4) out.
Proof.
  apply (symmetrise_then_desymmetrise_2d_full_dft 4 (T2 example_rfft_4)
           None []).
  - lia.
  - exists 2. reflexivity.
  - cbn. lia.
  - split; [reflexivity|]. repeat constructor.
Defined.

(** ** The symmetrised 3D spectrum, entry by entry *)

Lemma rfft_to_symmetrised_dft_3d_vol_entries (N : nat) (X : vol) :
  0 < N -> Nat.Even N ->
  exists out,
    rfft_to_symmetrised_dft_3d_vol N N (N / 2 + 1) X = Some out
    /\ symmetrised3 (fftshift3 X) N out.
Proof.
  intros HN He. destruct (even_half N He) as [k [Hk Hdc]].
  unfold rfft_to_symmetrised_dft_3d_vol, symmetrised3. rewrite Hdc.
  assert (G1 : fits N N && fits (k + 1) (N + 1 - k) = true).
  { unfold fits. replace (N + 1 - k) with (k + 1) by lia.
    now rewrite !Nat.eqb_refl. }
  assert (G2 : (N =? 0) = false) by (apply Nat.eqb_neq; lia).
  assert (G3 : fits (N - k) k = true).
  { unfold fits. replace (N - k) with k by lia. now rewrite Nat.eqb_refl. }
  rewrite G1, G2, G3. cbn [negb].
  fold (fftshift3 X). set (xs := fftshift3 X).
  set (O1 := assign3 _ _ (zeros3 (N + 1) (N + 1) (N + 1))).
  set (O2 := assign3 _ _ O1).
  set (O3 := assign3 _ _ O2).
  set (O4 := assign3 _ _ O3).
  assert (HO1 : rect3 (N + 1) (N + 1) (N + 1) O1)
    by apply rect3_assign3, rect3_zeros3.
  assert (HO2 : rect3 (N + 1) (N + 1) (N + 1) O2) by now apply rect3_assign3.
  assert (HO3 : rect3 (N + 1) (N + 1) (N + 1) O3) by now apply rect3_assign3.
  assert (HO4 : rect3 (N + 1) (N + 1) (N + 1) O4) by now apply rect3_assign3.
  assert (Hbw : forall x, bc (k + 1) x = x).
  { intro x. unfold bc. destruct (Nat.eqb_spec (k + 1) 1); [lia|reflexivity]. }
  assert (Hbh : forall x, bc N x = x).
  { intro x. unfold bc. destruct (Nat.eqb_spec N 1); [lia|reflexivity]. }
  assert (A : forall z y x, z <= N -> y <= N -> k <= x -> x <= N ->
                get3 O4 z y x = sym3_right xs N z y x).
  { intros z y x Hz Hy Hkx Hx. unfold O4, O3, O2, O1, sym3_right, wrap.
    rewrite !(get3_assign3 (N + 1) (N + 1) (N + 1))
      by (try apply rect3_zeros3; trivial; lia).
    rewrite get3_zeros3, Hdc, !Hbw, !Hbh.
    replace (k <=? x) with true by (symmetry; apply Nat.leb_le; lia).
    rewrite !andb_true_r.
    destruct (Nat.eqb_spec z N) as [->|Hz'];
      destruct (Nat.eqb_spec y N) as [->|Hy']; cbn [andb];
      rewrite ?Nat.ltb_irrefl; cbn [andb]; try reflexivity.
    - replace (y <? N) with true by (symmetry; apply Nat.ltb_lt; lia).
      reflexivity.
    - replace (z <? N) with true by (symmetry; apply Nat.ltb_lt; lia).
      reflexivity.
    - replace (z <? N) with true by (symmetry; apply Nat.ltb_lt; lia).
      replace (y <? N) with true by (symmetry; apply Nat.ltb_lt; lia).
      reflexivity. }
  eexists. split; [reflexivity|]. split; [now apply rect3_assign3|].
  intros z y x Hz Hy Hx.
  rewrite (get3_assign3 (N + 1) (N + 1) (N + 1)) by (trivial; lia).
  unfold sym3_entry. rewrite Hdc.
  destruct (Nat.ltb_spec x k) as [Hlt|Hge].
  - replace (k <=? x) with false by (symmetry; apply Nat.leb_gt; lia).
    assert (Hb : bc (N - k) x = x).
    { unfold bc. destruct (Nat.eqb_spec (N - k) 1); [lia|reflexivity]. }
    rewrite Hb.
    rewrite (get3_flip_conj3 (N + 1) (N + 1) (N + 1 - (k + 1)))
      by (try apply rect3_cols_from; trivial; lia).
    rewrite get3_cols_from. f_equal.
    replace (N + 1 - 1 - z) with (N - z) by lia.
    replace (N + 1 - 1 - y) with (N - y) by lia.
    replace (k + 1 + (N + 1 - (k + 1) - 1 - x)) with (N - x) by lia.
    apply A; lia.
  - replace (k <=? x) with true by (symmetry; apply Nat.leb_le; lia).
    apply A; lia.
Qed.

Lemma sym3_right_wrap_first (xs : vol) (r i j : nat) :
  sym3_right xs r r i j = sym3_right xs r 0 i j.
Proof.
  unfold sym3_right, wrap. rewrite Nat.eqb_refl. now destruct (0 =? r).
Qed.

Lemma sym3_right_wrap_middle (xs : vol) (r k j : nat) :
  sym3_right xs r k r j = sym3_right xs r k 0 j.
Proof.
  unfold sym3_right, wrap. rewrite Nat.eqb_refl. now destruct (0 =? r).
Qed.

Lemma symmetrised3_layout (N : nat) (X S : vol) :
  0 < N -> Nat.Even N -> symmetrised3 (fftshift3 X) N S -> sym3_layout N X S.
Proof.
  intros HN He [HS HE]. destruct (even_half N He) as [k [Hk Hdc]].
  unfold sym3_layout. rewrite Hdc.
  split; [exact HS|]. split; [|split; [|split]].
  - intros z y x Hz Hy Hx. rewrite HE by lia.
    unfold sym3_entry, sym3_right, wrap. rewrite Hdc.
    replace (k <=? k + x) with true by (symmetry; apply Nat.leb_le; lia).
    replace (z =? N) with false by (symmetry; apply Nat.eqb_neq; lia).
    replace (y =? N) with false by (symmetry; apply Nat.eqb_neq; lia).
    f_equal. lia.
  - intros y x Hy Hx. rewrite !HE by lia. unfold sym3_entry. rewrite Hdc.
    replace (N - N) with 0 by lia. replace (N - 0) with N by lia.
    destruct (k <=? x).
    + apply sym3_right_wrap_first.
    + f_equal. symmetry. apply sym3_right_wrap_first.
  - intros z x Hz Hx. rewrite !HE by lia. unfold sym3_entry. rewrite Hdc.
    replace (N - N) with 0 by lia. replace (N - 0) with N by lia.
    destruct (k <=? x).
    + apply sym3_right_wrap_middle.
    + f_equal. symmetry. apply sym3_right_wrap_middle.
  - intros z y x Hz Hy Hx Hne. rewrite !HE by lia. unfold sym3_entry.
    rewrite Hdc.
    destruct (Nat.leb_spec k x) as [Hge|Hlt].
    + replace (k <=? N - x) with false by (symmetry; apply Nat.leb_gt; lia).
      rewrite conj_conj. f_equal; lia.
    + replace (k <=? N - x) with true by (symmetry; apply Nat.leb_le; lia).
      reflexivity.
Qed.

Lemma rel_under3_impl (R R' : vol -> vol -> Prop) (t t' : tensor) :
  (forall v v', R v v' -> R' v v') -> rel_under3 R t t' -> rel_under3 R' t t'.
Proof.
  intro H. destruct t as [m|v|b], t' as [m'|v'|b']; cbn [rel_under3]; auto.
  intro HF. induction HF; constructor; auto.
Qed.

(** On the rfft of a cube of even side, the 3D symmetrisation succeeds and
    every output volume is the symmetrised spectrum of its input. *)
Lemma rfft_to_symmetrised_dft_3d_total (N : nat) (X : tensor) :
  0 < N -> Nat.Even N -> volumes_of (rect3 N N (N / 2 + 1)) X ->
  exists S,
    rfft_to_symmetrised_dft_3d X = Some S
    /\ rel_under3 (fun x s => symmetrised3 (fftshift3 x) N s) X S.
Proof.
  intros HN He HX. destruct X as [m|v|b]; cbn [volumes_of] in HX.
  - contradiction.
  - destruct (shape_rect3 N N (N / 2 + 1) v HX HN HN) as [H1 [H2 H3]].
    destruct (rfft_to_symmetrised_dft_3d_vol_entries N v HN He) as [out [E H]].
    exists (T3 out). cbn [rfft_to_symmetrised_dft_3d rel_under3].
    rewrite H1, H2, H3, E. now split.
  - destruct HX as [Hne HF].
    destruct b as [|v0 b]; [congruence|].
    assert (Hv0 : rect3 N N (N / 2 + 1) v0) by now inversion HF.
    destruct (shape_rect3 N N (N / 2 + 1) v0 Hv0 HN HN) as [H1 [H2 H3]].
    destruct (mapM_Forall2 (rfft_to_symmetrised_dft_3d_vol N N (N / 2 + 1))
                (fun x out => symmetrised3 (fftshift3 x) N out) (v0 :: b))
      as [outs [E HF2]].
    { intros v _. apply rfft_to_symmetrised_dft_3d_vol_entries; assumption. }
    exists (T4 outs). cbn [rfft_to_symmetrised_dft_3d rel_under3 hd].
    rewrite H1, H2, H3, E. now split.
Qed.

(** X4: on the rfft of a cube of even side [N] (one volume or a non-empty
    batch), [rfft_to_symmetrised_dft_3d] returns [(N+1)^3] volumes whose
    right half holds the shifted rfft, whose last plane along each of the
    two full axes repeats the first, and which are Hermitian about the
    centre away from the DC plane. *)
Theorem rfft_to_symmetrised_dft_3d_layout (N : nat) (X : tensor) :
  0 < N -> Nat.Even N -> volumes_of (rect3 N N (N / 2 + 1)) X ->
  exists S,
    rfft_to_symmetrised_dft_3d X = Some S
    /\ rel_under3 (sym3_layout N) X S.
Proof.
  intros HN He HX.
  destruct (rfft_to_symmetrised_dft_3d_total N X HN He HX) as [S [E R]].
  exists S. split; [exact E|].
  apply (rel_under3_impl _ _ _ _
           (fun v v' => symmetrised3_layout N v v' HN He)).
  exact R.
Qed.

Lemma rfft_to_symmetrised_dft_3d_layout_witness :
  exists S,
    rfft_to_symmetrised_dft_3d (T3 example_rfft_222) = Some S
    /\ rel_under3 (sym3_layout 2) (T3 example_rfft_222) S.
Proof.
  apply (rfft_to_symmetrised_dft_3d_layout 2 (T3 example_rfft_222)).
  - lia.
  - exists 1. reflexivity.
  - split; [reflexivity|]. repeat constructor.
Defined.

Lemma desym3_of_symmetrised3 (N : nat) (xs S out : vol) :
  0 < N -> Nat.Even N -> symmetrised3 xs N S -> desym3_of N S out ->
  rect3 N N N out
  /\ forall k i j, k < N -> i < N -> j < N ->
       get3 out k i j = full_dft3_entry xs N k i j.
Proof.
  intros HN He [HS HE] [Hout Hent]. destruct (even_half N He) as [d [Hd Hdc]].
  split; [exact Hout|].
  intros k i j Hk Hi Hj. rewrite Hent by assumption.
  unfold desym3_entry, desym3_middle, desym3_last, full_dft3_entry,
    mirror_row.
  rewrite !HE by lia. unfold sym3_entry, sym3_right, wrap. rewrite Hdc.
  replace (N - N) with 0 by lia. replace (N - 0) with N by lia.
  replace (N - d) with d by lia.
  split_tests; try lia; subst;
    rewrite ?avg_same; try reflexivity;
    repeat (f_equal; try lia).
Qed.

Lemma volumes_of_related (R : vol -> vol -> Prop) (P Q : vol -> Prop)
  (t t' : tensor) :
  (forall x y, R x y -> Q y) -> rel_under3 R t t' -> volumes_of P t ->
  volumes_of Q t'.
Proof.
  intros H. destruct t as [m|v|b], t' as [m'|v'|b'];
    cbn [rel_under3 volumes_of]; try contradiction.
  - intros HR _. eauto.
  - intros HF [Hne _]. split.
    + eapply Forall2_nonempty; eauto.
    + eapply Forall2_right; eauto.
Qed.

Lemma rel_under3_compose (R1 R2 : vol -> vol -> Prop) (t1 t2 t3 : tensor) :
  rel_under3 R1 t1 t2 -> rel_under3 R2 t2 t3 ->
  rel_under3 (fun x z => exists y, R1 x y /\ R2 y z) t1 t3.
Proof.
  destruct t1 as [m1|v1|b1], t2 as [m2|v2|b2], t3 as [m3|v3|b3];
    cbn [rel_under3]; try contradiction; eauto.
  apply Forall2_compose.
Qed.

(** [symmetrised_dft_to_dft_3d] on a buffer of cubes. *)
Lemma symmetrised_dft_to_dft_3d_run (N : nat) (t : tensor) (h : heap)
  (l : loc) (inplace : option bool) :
  volumes_of (rect3 (N + 1) (N + 1) (N + 1)) t -> nth_error h l = Some t ->
  exists out h',
    symmetrised_dft_to_dft_3d l inplace h = Some (out, h')
    /\ rel_under3 (desym3_of N) t out.
Proof.
  intros H3 Hl3.
  rewrite symmetrised_dft_to_dft_3d_eq, Hl3.
  destruct (volumes_of_dims _ _ _ t H3 ltac:(lia) ltac:(lia))
    as [Hn [Hd [Hh Hw]]].
  unfold average_last_3d. rewrite Hw.
  replace (N + 1 =? 0) with false by (symmetry; apply Nat.eqb_neq; lia).
  rewrite under3_total by exact Hn.
  set (t1 := map3d (average_last_vol (N + 1)) t).
  assert (H1 : volumes_of (rect3 (N + 1) (N + 1) (N + 1)) t1).
  { apply (volumes_of_map3d (rect3 (N + 1) (N + 1) (N + 1))); [|exact H3].
    intros v Hv. now apply rect3_assign3. }
  destruct (volumes_of_dims _ _ _ t1 H1 ltac:(lia) ltac:(lia))
    as [Hn1 [Hd1 [Hh1 Hw1]]].
  unfold average_middle_3d. rewrite Hh1.
  replace (N + 1 =? 0) with false by (symmetry; apply Nat.eqb_neq; lia).
  rewrite under3_total by exact Hn1.
  set (t2' := map3d (average_middle_vol (N + 1)) t1).
  assert (H2' : volumes_of (rect3 (N + 1) (N + 1) (N + 1)) t2').
  { apply (volumes_of_map3d (rect3 (N + 1) (N + 1) (N + 1))); [|exact H1].
    intros v Hv. now apply rect3_assign3. }
  destruct (volumes_of_dims _ _ _ t2' H2' ltac:(lia) ltac:(lia))
    as [Hn2 [Hd2 [Hh2 Hw2]]].
  unfold average_first_3d. rewrite Hd2.
  replace (N + 1 =? 0) with false by (symmetry; apply Nat.eqb_neq; lia).
  rewrite under3_total by exact Hn2.
  rewrite under3_total by (now rewrite ndim_map3d).
  eexists. eexists. split; [reflexivity|].
  unfold t2', t1. rewrite !map3d_map3d.
  apply (rel_under3_map3d (rect3 (N + 1) (N + 1) (N + 1))); [|exact H3].
  intros v Hv. now apply desym3_vol.
Qed.

(** X5: symmetrising the rfft of a cube of even side [N] and
    desymmetrising the result with [symmetrised_dft_to_dft_3d] yields, for
    every volume, the full shifted [(N, N, N)] DFT: the stored half as it
    is, the other half by conjugate mirroring, and in the first plane of
    the last axis the average of the Nyquist plane with its conjugated
    mirror. *)
Theorem symmetrise_then_desymmetrise_3d_full_dft (N : nat) (X : tensor)
  (inplace : option bool) (h : heap) :
  0 < N -> Nat.Even N -> volumes_of (rect3 N N (N / 2 + 1)) X ->
  exists out h',
    symmetrise_then_desymmetrise_3d X inplace h = Some (out, h')
    /\ rel_under3 (full_dft3_of N) X out.
Proof.
  intros HN He HX.
  destruct (rfft_to_symmetrised_dft_3d_total N X HN He HX) as [S [E R]].
  assert (HS : volumes_of (rect3 (N + 1) (N + 1) (N + 1)) S).
  { apply (volumes_of_related
             (fun x s => symmetrised3 (fftshift3 x) N s)
             (rect3 N N (N / 2 + 1)) (rect3 (N + 1) (N + 1) (N + 1)) X S);
      [|exact R|exact HX].
    intros x y [Hy _]. exact Hy. }
  destruct (symmetrised_dft_to_dft_3d_run N S (h ++ [S]) (length h) inplace
              HS (nth_error_app_last h S)) as [out [h' [Erun Rout]]].
  exists out, h'. split.
  - unfold symmetrise_then_desymmetrise_3d. rewrite E.
    unfold St.bind, St.lift, St.alloc. exact Erun.
  - apply (rel_under3_impl
             (fun x z => exists y, symmetrised3 (fftshift3 x) N y
                                   /\ desym3_of N y z)).
    + intros x z [y [Hxy Hyz]]. unfold full_dft3_of.
      now apply (desym3_of_symmetrised3 N (fftshift3 x) y z).
    + exact (rel_under3_compose _ _ X S out R Rout).
Qed.

Lemma symmetrise_then_desymmetrise_3d_full_dft_witness :
  exists out h',
    symmetrise_then_desymmetrise_3d (T3 example_rfft_222) None []
    = Some (out, h')
    /\ rel_under3 (full_dft3_of 2) (T3 example_rfft_222) out.
Proof.
  apply (symmetrise_then_desymmetrise_3d_full_dft 2 (T3 example_rfft_222)
           None []).
  - lia.
  - exists 1. reflexivity.
  - split; [reflexivity|]. repeat constructor.
Defined.

(** ** Returned values and the [inplace] flag *)

Lemma modify_handle_fail (x : handle) (f : tensor -> option tensor)
  (h : heap) (t : tensor) :
  load_handle x h = Some (t, h) -> f t = None -> modify_handle x f h = None.
Proof.
  intros Hload Hf. unfold modify_handle.
  rewrite (bind_run _ _ h h t Hload).
  unfold St.bind, St.lift. now rewrite Hf.
Qed.

Lemma under2_accepts (x : handle) (g : mat -> mat) (t t' : tensor) :
  handle_accepts x t -> under2 (fun m => Some (g m)) t = Some t' ->
  handle_accepts x t'.
Proof.
  rewrite under2_total. intros Hacc H. injection H as <-.
  destruct x as [l|l]; cbn [handle_accepts] in *; [trivial|].
  destruct Hacc as [m ->]. now exists (g m).
Qed.

Lemma halve_right_accepts (x : handle) (r : nat) (t t' : tensor) :
  handle_accepts x t -> halve_right r t = Some t' -> handle_accepts x t'.
Proof. unfold halve_right. apply under2_accepts. Qed.

Lemma add_half_mirror_accepts (x : handle) (dc r : nat) (t t' : tensor) :
  handle_accepts x t -> add_half_mirror dc r t = Some t' ->
  handle_accepts x t'.
Proof.
  unfold add_half_mirror. destruct (negb _); [discriminate|].
  apply under2_accepts.
Qed.

Lemma average_nyquist_rows_accepts (x : handle) (r : nat) (t t' : tensor) :
  handle_accepts x t -> average_nyquist_rows r t = Some t' ->
  handle_accepts x t'.
Proof.
  unfold average_nyquist_rows. destruct (_ =? 0); [discriminate|].
  apply under2_accepts.
Qed.

(** The value of the statements and the return of
    [symmetrised_dft_to_rfft_2d], run through a handle that shows [tv]. *)
Lemma fold_value (x : handle) (hh : nat) (h : heap) (tv : tensor) :
  load_handle x h = Some (tv, h) -> handle_accepts x tv ->
  value_of
    ((modify_handle x (halve_right (hh / 2 + 1)) ;;;
      modify_handle x (add_half_mirror (hh / 2) (hh / 2 + 1)) ;;;
      modify_handle x (average_nyquist_rows (hh / 2 + 1)) ;;;
      t <- load_handle x ;;
      St.lift (unshifted_right_half (hh / 2) t)) h)
  = match fold_statements hh tv with
    | Some t3 => unshifted_right_half (hh / 2) t3
    | None => None
    end.
Proof.
  intros Hload Hacc. unfold fold_statements.
  destruct (halve_right (hh / 2 + 1) tv) as [t1|] eqn:F1.
  2:{ unfold St.bind at 1.
      now rewrite (modify_handle_fail x _ h tv Hload F1). }
  assert (A1 := halve_right_accepts x _ tv t1 Hacc F1).
  destruct (modify_handle_run x _ h tv t1 Hload F1 A1) as [h1 [R1 [L1 _]]].
  rewrite (bind_run _ _ _ _ _ R1).
  destruct (add_half_mirror (hh / 2) (hh / 2 + 1) t1) as [t2|] eqn:F2.
  2:{ unfold St.bind at 1.
      now rewrite (modify_handle_fail x _ h1 t1 L1 F2). }
  assert (A2 := add_half_mirror_accepts x _ _ t1 t2 A1 F2).
  destruct (modify_handle_run x _ h1 t1 t2 L1 F2 A2) as [h2 [R2 [L2 _]]].
  rewrite (bind_run _ _ _ _ _ R2).
  destruct (average_nyquist_rows (hh / 2 + 1) t2) as [t3|] eqn:F3.
  2:{ unfold St.bind at 1.
      now rewrite (modify_handle_fail x _ h2 t2 L2 F3). }
  assert (A3 := average_nyquist_rows_accepts x _ t2 t3 A2 F3).
  destruct (modify_handle_run x _ h2 t2 t3 L2 F3 A3) as [h3 [R3 [L3 _]]].
  rewrite (bind_run _ _ _ _ _ R3), (bind_run _ _ _ _ _ L3).
  unfold St.lift, value_of.
  now destruct (unshifted_right_half (hh / 2) t3).
Qed.

Lemma symmetrised_dft_to_rfft_2d_value (l : loc) (inplace : option bool)
  (h : heap) :
  value_of (symmetrised_dft_to_rfft_2d l inplace h)
  = match nth_error h l with
    | Some t => rfft_2d_value t
    | None => None
    end.
Proof.
  unfold symmetrised_dft_to_rfft_2d.
  destruct (nth_error h l) as [t|] eqn:Hl.
  2:{ unfold St.bind, St.load. now rewrite Hl. }
  rewrite (bind_run _ _ h h t (load_run l h t Hl)).
  fold (rfft_view l t). unfold rfft_2d_value.
  set (tv := match t with T2 m => T3 [m] | _ => t end).
  assert (Hload : load_handle (rfft_view l t) h = Some (tv, h)).
  { unfold rfft_view, tv. destruct t as [m|v|b]; cbn [ndim Nat.eqb load_handle].
    - now rewrite (bind_run _ _ h h (T2 m) (load_run l h _ Hl)).
    - now apply load_run.
    - now apply load_run. }
  assert (Hacc : handle_accepts (rfft_view l t) tv).
  { unfold rfft_view, tv. destruct t as [m|v|b]; cbn; eauto. }
  rewrite (bind_run _ _ h h tv Hload).
  destruct (Tensor.shape tv) as [|b [|hh [|w [|]]]]; try reflexivity.
  destruct (Py.kwarg true inplace).
  - rewrite (bind_run _ _ h h (rfft_view l t) eq_refl).
    now apply fold_value.
  - assert (Hclone : clone_handle (rfft_view l t) h
                     = Some (Whole (length h), h ++ [tv])).
    { unfold clone_handle. now rewrite (bind_run _ _ h h tv Hload). }
    rewrite (bind_run _ _ _ _ _ Hclone).
    apply fold_value; [|exact I].
    apply load_run, nth_error_app_last.
Qed.

Lemma symmetrised_dft_to_dft_2d_value (l : loc) (inplace : option bool)
  (h : heap) :
  value_of (symmetrised_dft_to_dft_2d l inplace h)
  = match nth_error h l with Some t => dft_2d_value t | None => None end.
Proof.
  rewrite symmetrised_dft_to_dft_2d_eq. unfold dft_2d_value.
  destruct (nth_error h l) as [t|]; [|reflexivity].
  destruct (average_columns_2d t) as [t1|]; [|reflexivity].
  destruct (average_rows_2d t1) as [t2|]; [|reflexivity].
  now destruct (under2 _ t2).
Qed.

Lemma symmetrised_dft_to_dft_3d_value (l : loc) (inplace : option bool)
  (h : heap) :
  value_of (symmetrised_dft_to_dft_3d l inplace h)
  = match nth_error h l with Some t => dft_3d_value t | None => None end.
Proof.
  rewrite symmetrised_dft_to_dft_3d_eq. unfold dft_3d_value.
  destruct (nth_error h l) as [t|]; [|reflexivity].
  destruct (average_last_3d t) as [t1|]; [|reflexivity].
  destruct (average_middle_3d t1) as [t2|]; [|reflexivity].
  destruct (average_first_3d t2) as [t3|]; [|reflexivity].
  now destruct (under3 _ t3).
Qed.

(** X6: what the three desymmetrisation functions return does not depend
    on [inplace]: on every heap and for every input buffer, the call in
    place and the call on a copy return the same values, and one raises
    exactly when the other does. *)
Theorem returned_value_ignores_inplace (l : loc) (h : heap) :
  value_of (symmetrised_dft_to_dft_2d l (Some true) h)
  = value_of (symmetrised_dft_to_dft_2d l (Some false) h)
  /\ value_of (symmetrised_dft_to_dft_3d l (Some true) h)
     = value_of (symmetrised_dft_to_dft_3d l (Some false) h)
  /\ value_of (symmetrised_dft_to_rfft_2d l (Some true) h)
     = value_of (symmetrised_dft_to_rfft_2d l (Some false) h).
Proof.
  rewrite !symmetrised_dft_to_dft_2d_value, !symmetrised_dft_to_dft_3d_value,
    !symmetrised_dft_to_rfft_2d_value.
  now repeat split.
Qed.

(** ** The result as a window of the working buffer *)



(** ** Batched input of [symmetrised_dft_to_rfft_2d] *)

(** X8: for a batch of [b >= 1] square matrices of odd side [N + 1],
    [symmetrised_dft_to_rfft_2d] returns one [(N, N/2 + 1)] matrix per
    input matrix: the result has shape [(b, N, N/2 + 1)]. *)
Theorem symmetrised_dft_to_rfft_2d_batch_shape (N : nat) (v : vol)
  (h : heap) (l : loc) (inplace : option bool) :
  0 < N -> Nat.Even N -> v <> [] -> Forall (rect2 (N + 1) (N + 1)) v ->
  nth_error h l = Some (T3 v) ->
  exists t h',
    symmetrised_dft_to_rfft_2d l inplace h = Some (t, h')
    /\ Tensor.shape t = [length v; N; N / 2 + 1].
Proof.
  intros HN He Hne Hrect Hl. destruct (even_half N He) as [k [Hk Hdc]].
  rewrite Hdc. subst N.
  set (F := fun m => unshifted_right_half_mat k
                       (fold_mat (2 * k + 1) (2 * k + 1) m)).
  assert (Hout : Tensor.shape (T3 (map F v)) = [length v; 2 * k; k + 1]).
  { rewrite (shape_T3 (2 * k) (k + 1)).
    - now rewrite length_map.
    - now apply map_nonempty.
    - apply Forall_map. eapply Forall_impl; [|exact Hrect].
      intros m Hm. unfold F.
      now apply rect2_unshifted_right_half_mat, rect2_fold_mat.
    - lia. }
  unfold symmetrised_dft_to_rfft_2d.
  rewrite (bind_run _ _ h h (T3 v) (load_run l h _ Hl)).
  cbn [ndim Nat.eqb].
  assert (Hload : load_handle (Whole l) h = Some (T3 v, h))
    by (apply load_run, Hl).
  rewrite (bind_run _ _ h h (T3 v) Hload).
  rewrite (shape_T3 (2 * k + 1) (2 * k + 1)) by (trivial; lia).
  rewrite odd_half.
  destruct (Py.kwarg true inplace).
  - rewrite (bind_run _ _ h h (Whole l) eq_refl).
    destruct (fold_run (Whole l) h k v Hload I Hne Hrect) as [h' [R _]].
    exists (T3 (map F v)), h'. split; [exact R|exact Hout].
  - assert (Hclone : clone_handle (Whole l) h
                     = Some (Whole (length h), h ++ [T3 v])).
    { unfold clone_handle. now rewrite (bind_run _ _ h h (T3 v) Hload). }
    rewrite (bind_run _ _ _ _ _ Hclone).
    assert (Hload' : load_handle (Whole (length h)) (h ++ [T3 v])
                     = Some (T3 v, h ++ [T3 v]))
      by (apply load_run, nth_error_app_last).
    destruct (fold_run (Whole (length h)) (h ++ [T3 v]) k v Hload' I Hne
                Hrect) as [h' [R _]].
    exists (T3 (map F v)), h'. split; [exact R|exact Hout].
Qed.

Lemma symmetrised_dft_to_rfft_2d_batch_shape_witness :
  exists t h',
    symmetrised_dft_to_rfft_2d 0 None [T3 example_dft_333] = Some (t, h')
    /\ Tensor.shape t = [length example_dft_333; 2; 2 / 2 + 1].
Proof.
  apply (symmetrised_dft_to_rfft_2d_batch_shape 2 example_dft_333
           [T3 example_dft_333] 0 None).
  - lia.
  - exists 1. reflexivity.
  - discriminate.
  - repeat constructor.
  - reflexivity.
Defined.

(** ** [symmetrised_dft_to_rfft_2d] on an even side *)

(** X9: the fold back to an rfft accepts odd sides only.  On a square
    input of even side [2k >= 4] the mirrored left half has [k] columns but
    the right half it is added to has [k - 1], and the call raises, in
    place or not. *)
Theorem symmetrised_dft_to_rfft_2d_even_side_raises (k : nat) (m : mat)
  (h : heap) (l : loc) (inplace : option bool) :
  2 <= k -> rect2 (2 * k) (2 * k) m -> nth_error h l = Some (T2 m) ->
  symmetrised_dft_to_rfft_2d l inplace h = None.
Proof.
  intros Hk Hm Hl.
  assert (V := symmetrised_dft_to_rfft_2d_value l inplace h).
  rewrite Hl in V.
  assert (E : rfft_2d_value (T2 m) = None).
  { unfold rfft_2d_value.
    assert (HF : Forall (rect2 (2 * k) (2 * k)) [m])
      by (constructor; [exact Hm|constructor]).
    rewrite (shape_T3 (2 * k) (2 * k)) by (trivial; try discriminate; lia).
    unfold fold_statements. rewrite halve_right_T3.
    assert (Hd : 2 * k / 2 = k)
      by (rewrite Nat.mul_comm; apply Nat.div_mul; lia).
    rewrite Hd. unfold add_half_mirror, width.
    rewrite (shape_T3 (2 * k) (2 * k)); try discriminate; try lia.
    - cbn [last]. replace (Nat.min k (2 * k)) with k by lia.
      assert (Hfit : fits k (2 * k - (k + 1)) = false).
      { unfold fits. apply orb_false_iff. split; apply Nat.eqb_neq; lia. }
      now rewrite Hfit.
    - constructor; [|constructor]. now apply rect2_assign2. }
  rewrite E in V.
  destruct (symmetrised_dft_to_rfft_2d l inplace h); [discriminate|reflexivity].
Qed.

Lemma symmetrised_dft_to_rfft_2d_even_side_raises_witness :
  symmetrised_dft_to_rfft_2d 0 None [T2 example_square_4] = None.
Proof.
  apply (symmetrised_dft_to_rfft_2d_even_side_raises 2 example_square_4
           [T2 example_square_4] 0 None).
  - lia.
  - split; [reflexivity|]. repeat constructor.
  - reflexivity.
Defined.

(** ** The redirected grid of [project] *)

Lemma redirected_grid_eq (grid : list (list (list point))) :
  redirected_grid grid
  = Grid.map3 (fun p => if Grid.ltb (c2 p) 0%Qc then Grid.neg p else p) grid.
Proof.
  unfold redirected_grid.
  rewrite map3_map3, zipWith3_map3_left.
  apply map3_ext. intro p. unfold Grid.neg.
  destruct (Grid.ltb (c2 p) 0%Qc).
  - now rewrite !times_minus_one.
  - now destruct p.
Qed.

Lemma all3_map3 {A B} (P : B -> Prop) (f : A -> B)
  (t : list (list (list A))) :
  (forall x, P (f x)) -> all3 P (Grid.map3 f t).
Proof.
  intro H. unfold all3, Grid.map3.
  apply Forall_map, Forall_forall. intros m _.
  apply Forall_map, Forall_forall. intros r _.
  apply Forall_map, Forall_forall. intros x _. apply H.
Qed.

Lemma ltb_neg_false (x : Qc) : Grid.ltb x 0%Qc = true ->
  Grid.ltb (- x)%Qc 0%Qc = false.
Proof.
  intro H. apply ltb_lt in H.
  destruct (Grid.ltb (- x)%Qc 0%Qc) eqn:E; [|reflexivity].
  apply ltb_lt in E. exfalso.
  apply (Qclt_not_le _ _ H).
  apply Qclt_le_weak, Qcopp_le_compat in E.
  rewrite Qcopp_involutive in E.
  assert (Z0 : (- 0)%Qc = 0%Qc) by (apply Qc_is_canon; reflexivity).
  now rewrite Z0 in E.
Qed.

(** X10: [project] only ever samples the stored half of the spectrum: the
    coordinates it hands to [extract_slices] are the converted points of
    the redirected grid, no point of that grid has a negative last-axis
    frequency, and redirecting a second time changes nothing. *)
Theorem project_samples_stored_half
  (gs : list (list (list Qc)) -> point -> Qc)
  (conv : point -> list nat -> point)
  (f2c : point -> list nat -> bool -> point)
  (dft : vol) (image_shape : list nat) (grid : list (list (list point))) :
  project_samples gs conv f2c dft image_shape grid
  = Grid.zipWith3 (fun (m : bool) v => if m then conj v else v)
      (Grid.map3 (fun p => Grid.ltb (c2 p) 0%Qc) grid)
      (extract_slices gs conv dft
         (Grid.map3 (fun p => f2c p image_shape true)
                    (redirected_grid grid)))
  /\ all3 (fun p => Grid.ltb (c2 p) 0%Qc = false) (redirected_grid grid)
  /\ redirected_grid (redirected_grid grid) = redirected_grid grid.
Proof.
  split; [|split].
  - unfold project_samples. fold (redirected_grid grid).
    rewrite !extract_slices_samples, redirected_grid_eq, !map3_map3.
    rewrite !zipWith3_map3. reflexivity.
  - rewrite redirected_grid_eq. apply all3_map3. intro p.
    destruct (Grid.ltb (c2 p) 0%Qc) eqn:E; [|exact E].
    cbn [Grid.neg c2]. now apply ltb_neg_false.
  - rewrite !redirected_grid_eq, map3_map3. apply map3_ext. intro p.
    destruct (Grid.ltb (c2 p) 0%Qc) eqn:E.
    + cbn [Grid.neg c2]. now rewrite (ltb_neg_false _ E).
    + now rewrite E.
Qed.

(** ** Friedel symmetry of the samples of [project] *)

Lemma project_samples_pointwise
  (gs : list (list (list Qc)) -> point -> Qc)
  (conv : point -> list nat -> point)
  (f2c : point -> list nat -> bool -> point)
  (dft : vol) (image_shape : list nat) (grid : list (list (list point))) :
  project_samples gs conv f2c dft image_shape grid
  = Grid.map3
      (fun p =>
         let q := if Grid.ltb (c2 p) 0%Qc then Grid.neg p else p in
         let s := sample_one gs conv dft (f2c q image_shape true) in
         if Grid.ltb (c2 p) 0%Qc then conj s else s)
      grid.
Proof.
  unfold project_samples. fold (redirected_grid grid).
  rewrite extract_slices_samples, redirected_grid_eq.
  rewrite !map3_map3, zipWith3_map3.
  apply map3_ext. intro p. cbn [fst]. now rewrite sample_one_eq.
Qed.

Lemma neg_neg (p : point) : Grid.neg (Grid.neg p) = p.
Proof.
  destruct p as [a b c]. unfold Grid.neg. cbn [c0 c1 c2].
  now rewrite !Qcopp_involutive.
Qed.

Lemma ltb_neg_true (x : Qc) :
  Grid.ltb x 0%Qc = false -> x <> 0%Qc -> Grid.ltb (- x)%Qc 0%Qc = true.
Proof.
  intros H Hx. apply ltb_lt.
  assert (Hle : (0 <= x)%Qc).
  { apply Qcnot_lt_le. intro Hlt. apply ltb_lt in Hlt. congruence. }
  destruct (Qcle_lt_or_eq _ _ Hle) as [Hlt|Heq]; [|congruence].
  apply Qclt_minus_iff. rewrite Qcopp_involutive, Qcplus_0_l. exact Hlt.
Qed.

Lemma map3_ext_all3 {A B} (P : A -> Prop) (f g : A -> B)
  (t : list (list (list A))) :
  all3 P t -> (forall x, P x -> f x = g x) -> Grid.map3 f t = Grid.map3 g t.
Proof.
  intros Ht H. unfold Grid.map3, all3 in *.
  apply map_ext_Forall. revert Ht. apply Forall_impl. intros m Hm.
  apply map_ext_Forall. revert Hm. apply Forall_impl. intros r Hr.
  apply map_ext_Forall. revert Hr. apply Forall_impl. intros x Hx.
  now apply H.
Qed.

(** X11: away from the plane of zero last-axis frequency, the samples of
    [project] have Friedel symmetry whatever the DFT holds: when no point
    of the rotated grid has last-axis frequency 0, the samples on the
    negated grid are the complex conjugates of the samples on the grid. *)
Theorem project_samples_friedel
  (gs : list (list (list Qc)) -> point -> Qc)
  (conv : point -> list nat -> point)
  (f2c : point -> list nat -> bool -> point)
  (dft : vol) (image_shape : list nat) (grid : list (list (list point))) :
  all3 (fun p => c2 p <> 0%Qc) grid ->
  project_samples gs conv f2c dft image_shape (Grid.map3 Grid.neg grid)
  = Grid.map3 conj (project_samples gs conv f2c dft image_shape grid).
Proof.
  intro Hg. rewrite !project_samples_pointwise, !map3_map3.
  apply (map3_ext_all3 _ _ _ _ Hg). intros p Hp. cbn zeta.
  destruct (Grid.ltb (c2 p) 0%Qc) eqn:E.
  - replace (c2 (Grid.neg p)) with (- c2 p)%Qc by reflexivity.
    rewrite (ltb_neg_false _ E). now rewrite conj_conj.
  - replace (c2 (Grid.neg p)) with (- c2 p)%Qc by reflexivity.
    rewrite (ltb_neg_true _ E Hp). now rewrite neg_neg.
Qed.

Lemma project_samples_friedel_witness :
  all3 (fun p => c2 p <> 0%Qc) example_grid
  /\ project_samples Torch.grid_sample array_to_grid_sample_spec
       (fun p _ _ => p) example_dft_ones [2; 2] (Grid.map3 Grid.neg example_grid)
     = Grid.map3 conj
         (project_samples Torch.grid_sample array_to_grid_sample_spec
            (fun p _ _ => p) example_dft_ones [2; 2] example_grid).
Proof.
  assert (H : all3 (fun p => c2 p <> 0%Qc) example_grid).
  { repeat constructor; cbn [c2]; intro H; apply (f_equal this) in H;
      vm_compute in H; discriminate. }
  split; [exact H|].
  exact (project_samples_friedel Torch.grid_sample array_to_grid_sample_spec
           (fun p _ _ => p) example_dft_ones [2; 2] example_grid H).
Defined.

(** ** The [inside] mask of [extract_slices] *)

(** X12: the [inside] mask of [extract_slices] is true at every point,
    whatever the coordinates, so the function returns the two interpolated
    channels joined, exactly as it would with the zeroing statements
    deleted. *)
Theorem extract_slices_mask_is_vacuous
  (gs : list (list (list Qc)) -> point -> Qc)
  (conv : point -> list nat -> point) (dft : vol)
  (coords : list (list (list point))) :
  let converted :=
    Grid.map3 (fun p => conv p (Tensor.shape (T3 dft))) coords in
  Grid.map3 inside_test converted = Grid.map3 (fun _ => true) coords
  /\ extract_slices gs conv dft coords
     = Grid.zipWith3 mkC
         (Grid.map3 (gs (Grid.real_channel dft)) converted)
         (Grid.map3 (gs (Grid.imag_channel dft)) converted).
Proof.
  cbn zeta. split.
  - rewrite map3_map3. apply map3_ext. intro p. apply inside_test_true.
  - rewrite extract_slices_samples, !map3_map3, zipWith3_map3. reflexivity.
Qed.

(** ** The hard-edged cuboid *)

Lemma cuboid_resolved
  (soft_edge : list (list (list bool)) -> Qc -> list (list (list Qc)))
  (dimensions : Qc * Qc * Qc) (image_shape : image_shape_arg)
  (center : option point) (smoothing_radius : Qc) (d h w : nat) :
  resolved_shape image_shape = (d, h, w) ->
  cuboid soft_edge dimensions image_shape center smoothing_radius
  = cuboid soft_edge dimensions (Sides d h w)
      (Some (resolved_center image_shape center)) smoothing_radius.
Proof.
  intro H. unfold cuboid, resolved_center.
  change (match image_shape with
          | Side n => (n, n, n)
          | Sides d0 h0 w0 => (d0, h0, w0)
          end) with (resolved_shape image_shape).
  rewrite H. now destruct center.
Qed.

Lemma within_test (c bound : Qc) :
  Grid.gtb c (- bound)%Qc && Grid.ltb c bound = true
  <-> strictly_within c bound.
Proof.
  unfold strictly_within, Grid.gtb.
  rewrite andb_true_iff, !ltb_lt. reflexivity.
Qed.

Lemma Qc_one_not_zero : 1%Qc <> 0%Qc.
Proof. intro H. apply (f_equal this) in H. vm_compute in H. discriminate. Qed.

(** X13: with smoothing radius 0 every voxel of the [cuboid] mask is 0 or
    1, and it is 1 exactly when the depth offset from the centre lies
    strictly within half of [dimensions[1]] and the height and the width
    offset strictly within half of [dimensions[2]]; for any smoothing
    radius the mask does not depend on [dimensions[0]]. *)
Theorem cuboid_hard_edge_mask
  (soft_edge : list (list (list bool)) -> Qc -> list (list (list Qc)))
  (dim0 dim1 dim2 : Qc) (image_shape : image_shape_arg)
  (center : option point) (d h w z y x : nat) :
  resolved_shape image_shape = (d, h, w) ->
  z < d -> y < h -> x < w ->
  let two := (1 + 1)%Qc in
  let o := voxel_offset (resolved_center image_shape center) z y x in
  let v := mask_entry
             (cuboid soft_edge (dim0, dim1, dim2) image_shape center 0%Qc)
             z y x in
  (v = 1%Qc \/ v = 0%Qc)
  /\ (v = 1%Qc <->
      strictly_within (c0 o) (dim1 / two)%Qc
      /\ strictly_within (c1 o) (dim2 / two)%Qc
      /\ strictly_within (c2 o) (dim2 / two)%Qc)
  /\ (forall dim0' smoothing_radius,
        cuboid soft_edge (dim0', dim1, dim2) image_shape center
               smoothing_radius
        = cuboid soft_edge (dim0, dim1, dim2) image_shape center
                 smoothing_radius).
Proof.
  intros Hs Hz Hy Hx. cbn zeta.
  rewrite (cuboid_resolved soft_edge _ image_shape center 0%Qc d h w Hs).
  rewrite cuboid_entry by assumption.
  unfold cuboid_computed.
  set (o := voxel_offset (resolved_center image_shape center) z y x).
  rewrite <- !within_test.
  set (b0 := Grid.gtb (c0 o) _ && _).
  set (b1 := Grid.gtb (c1 o) _ && _).
  set (b2 := Grid.gtb (c2 o) _ && _).
  split; [|split].
  - destruct (b0 && b1 && b2); [now left|now right].
  - destruct b0, b1, b2; cbn [andb]; split; intro H;
      try (repeat split; reflexivity);
      try (symmetry in H; now apply Qc_one_not_zero in H);
      try (destruct H as [H0 [H1 H2]]; discriminate).
  - intros dim0' smoothing_radius. reflexivity.
Qed.

Lemma cuboid_hard_edge_mask_witness :
  let o := voxel_offset (resolved_center (Side 8) None) 4 4 4 in
  let v := mask_entry
             (cuboid (fun _ _ => []) example_dimensions (Side 8) None 0%Qc)
             4 4 4 in
  (v = 1%Qc \/ v = 0%Qc)
  /\ (v = 1%Qc <->
      strictly_within (c0 o) (Torch.of_Z 2 / (1 + 1))%Qc
      /\ strictly_within (c1 o) (Torch.of_Z 2 / (1 + 1))%Qc
      /\ strictly_within (c2 o) (Torch.of_Z 2 / (1 + 1))%Qc)
  /\ (forall dim0' smoothing_radius,
        cuboid (fun _ _ => []) (dim0', Torch.of_Z 2, Torch.of_Z 2) (Side 8)
               None smoothing_radius
        = cuboid (fun _ _ => []) example_dimensions (Side 8) None
                 smoothing_radius).
Proof.
  apply (cuboid_hard_edge_mask (fun _ _ => []) (Torch.of_Z 8) (Torch.of_Z 2)
           (Torch.of_Z 2) (Side 8) None 8 8 8 4 4 4).
  - reflexivity.
  - lia.
  - lia.
  - lia.
Defined.

(** ** Centred index grids *)

Lemma nth_error_ifftshift {A} (l : list A) (i : nat) :
  i < length l ->
  nth_error (ifftshift l) i = nth_error l ((i + length l / 2) mod length l).
Proof.
  intro Hi. unfold ifftshift.
  assert (Hh : length l / 2 <= length l).
  { apply Nat.Div0.div_le_upper_bound. lia. }
  set (n := length l) in *. set (h := n / 2) in *.
  destruct (Nat.lt_ge_cases i (n - h)) as [Hlt|Hge].
  - rewrite nth_error_app1 by (rewrite length_skipn; fold n; lia).
    rewrite nth_error_skipn, Nat.mod_small by lia.
    f_equal. lia.
  - rewrite nth_error_app2 by (rewrite length_skipn; fold n; lia).
    rewrite length_skipn. fold n.
    replace (i + h) with ((i - (n - h)) + 1 * n) by lia.
    rewrite Nat.Div0.mod_add, Nat.mod_small by lia.
    rewrite nth_error_firstn.
    assert (Hb : (i - (n - h) <? h) = true) by (apply Nat.ltb_lt; lia).
    now rewrite Hb.
Qed.
















(** ** The DC entry of the centred grid *)











(** ** The 2D frequency grid *)








Lemma nth_repeat_lt {A} (x d : A) (n i : nat) : i < n -> nth i (repeat x n) d = x.
Proof.
  revert i. induction n as [|n IH]; intros i Hi; [lia|].
  destruct i as [|i]; [reflexivity|]. cbn. apply IH. lia.
Qed.




(** ** [symmetrised_dft_to_rfft_2d] on any spectrum *)

Lemma nth_ifftshift {A} (l : list A) (i : nat) (d : A) :
  i < length l ->
  nth i (ifftshift l) d = nth ((i + length l / 2) mod length l) l d.
Proof.
  intro Hi. apply nth_error_nth.
  rewrite nth_error_ifftshift by exact Hi.
  apply nth_error_nth'. apply Nat.mod_upper_bound. lia.
Qed.

Lemma fold_mat_entries (k : nat) (m : mat) :
  1 <= k -> rect2 (2 * k + 1) (2 * k + 1) m ->
  forall i j, i <= 2 * k -> j <= 2 * k ->
    get2 (fold_mat (2 * k + 1) (2 * k + 1) m) i j
    = if k + 1 <=? j
      then if i =? 0
           then avg (hermitian_average m (2 * k) 0 j)
                    (hermitian_average m (2 * k) (2 * k) j)
           else hermitian_average m (2 * k) i j
      else get2 m i j.
Proof.
  intros Hk Hm. unfold fold_mat. rewrite odd_half.
  replace (Nat.min k (2 * k + 1)) with k by lia.
  set (r := 2 * k) in *.
  set (M1 := halve_right_mat (k + 1) m).
  assert (HM1 : rect2 (r + 1) (r + 1) M1) by now apply rect2_assign2.
  assert (E1 : forall i j, i <= r -> j <= r ->
     get2 M1 i j = if k + 1 <=? j then scale half (get2 m i j)
                   else get2 m i j).
  { intros i j Hi Hj. unfold M1, halve_right_mat.
    now rewrite (get2_assign2 (r + 1) (r + 1)) by (trivial; lia). }
  set (M2 := add_half_mirror_mat k k (k + 1) M1).
  assert (HM2 : rect2 (r + 1) (r + 1) M2) by now apply rect2_assign2.
  assert (E2 : forall i j, i <= r -> j <= r ->
     get2 M2 i j = if k + 1 <=? j then hermitian_average m r i j
                   else get2 m i j).
  { intros i j Hi Hj. unfold M2, add_half_mirror_mat.
    rewrite (get2_assign2 (r + 1) (r + 1)) by (trivial; lia).
    rewrite E1 by lia.
    destruct (Nat.leb_spec (k + 1) j) as [Hge|Hlt]; [|reflexivity].
    assert (Hb : bc k (j - (k + 1)) = j - (k + 1)).
    { unfold bc. destruct (Nat.eqb_spec k 1) as [->|_]; [|reflexivity].
      unfold r in Hj. lia. }
    rewrite Hb.
    rewrite (get2_flip_conj2 (r + 1) k)
      by (try (apply (rect2_cols_upto (r + 1) (r + 1)); trivial); lia).
    rewrite get2_cols_upto by lia.
    rewrite E1 by lia.
    replace (k + 1 <=? k - 1 - (j - (k + 1))) with false
      by (symmetry; apply Nat.leb_gt; lia).
    replace (r + 1 - 1 - i) with (r - i) by lia.
    replace (k - 1 - (j - (k + 1))) with (r - j) by (unfold r; lia).
    reflexivity. }
  intros i j Hi Hj. unfold average_nyquist_rows_mat.
  rewrite (get2_assign2 (r + 1) (r + 1)) by (trivial; lia).
  replace (r + 1 - 1) with r by lia.
  rewrite !E2 by lia.
  destruct (Nat.leb_spec (k + 1) j) as [Hge|Hlt].
  - rewrite andb_true_r. now destruct (i =? 0).
  - now rewrite andb_false_r.
Qed.

Lemma unshifted_right_half_entries (k : nat) (M : mat) :
  1 <= k -> rect2 (2 * k + 1) (2 * k + 1) M ->
  forall i j, i < 2 * k -> j <= k ->
    get2 (unshifted_right_half_mat k M) i j
    = get2 M ((i + k) mod (2 * k)) (k + j).
Proof.
  intros Hk HM i j Hi Hj. unfold unshifted_right_half_mat.
  assert (HL : length (cols_from k (removelast M)) = 2 * k).
  { unfold cols_from. rewrite length_map, length_removelast'.
    destruct HM as [Hl _]. lia. }
  unfold get2 at 1. rewrite nth_ifftshift by lia. rewrite HL.
  replace (2 * k / 2) with k by (rewrite Nat.mul_comm, Nat.div_mul; lia).
  assert (Hmod : (i + k) mod (2 * k) < 2 * k)
    by (apply Nat.mod_upper_bound; lia).
  change (get2 (cols_from k (removelast M)) ((i + k) mod (2 * k)) j
          = get2 M ((i + k) mod (2 * k)) (k + j)).
  rewrite get2_cols_from. unfold get2.
  rewrite nth_removelast by (destruct HM as [Hl _]; lia).
  reflexivity.
Qed.

Lemma rfft_2d_value_batch (k : nat) (v : vol) :
  v <> [] -> Forall (rect2 (2 * k + 1) (2 * k + 1)) v ->
  rfft_2d_value (T3 v)
  = Some (T3 (map (fun m => unshifted_right_half_mat k
                              (fold_mat (2 * k + 1) (2 * k + 1) m)) v)).
Proof.
  intros Hne Hrect. unfold rfft_2d_value.
  rewrite (shape_T3 (2 * k + 1) (2 * k + 1)) by (trivial; lia).
  unfold fold_statements. rewrite odd_half, halve_right_T3.
  assert (H1 : Forall (rect2 (2 * k + 1) (2 * k + 1))
                 (map (halve_right_mat (k + 1)) v)).
  { apply Forall_map. eapply Forall_impl; [|exact Hrect].
    intros m Hm. now apply rect2_assign2. }
  rewrite (add_half_mirror_T3 k (k + 1) (2 * k + 1) (2 * k + 1));
    [|now apply map_nonempty|exact H1|lia|].
  2:{ replace (Nat.min k (2 * k + 1)) with k by lia.
      unfold fits. apply orb_true_iff. left. apply Nat.eqb_eq. lia. }
  assert (H2 : Forall (rect2 (2 * k + 1) (2 * k + 1))
                 (map (add_half_mirror_mat (Nat.min k (2 * k + 1)) k (k + 1))
                      (map (halve_right_mat (k + 1)) v))).
  { apply Forall_map. eapply Forall_impl; [|exact H1].
    intros m Hm. now apply rect2_assign2. }
  rewrite (average_nyquist_rows_T3 (k + 1) (2 * k + 1) (2 * k + 1));
    [|now apply map_nonempty, map_nonempty|exact H2|lia].
  unfold unshifted_right_half. cbn [under2].
  rewrite mapM_total, !map_map. unfold fold_mat. rewrite odd_half.
  reflexivity.
Qed.

Lemma folded_of_fold (k : nat) (m : mat) :
  1 <= k -> rect2 (2 * k + 1) (2 * k + 1) m ->
  folded_of (2 * k) m
    (unshifted_right_half_mat k (fold_mat (2 * k + 1) (2 * k + 1) m)).
Proof.
  intros Hk Hm.
  assert (Hd : 2 * k / 2 = k) by (rewrite Nat.mul_comm, Nat.div_mul; lia).
  assert (HF : rect2 (2 * k + 1) (2 * k + 1)
                 (fold_mat (2 * k + 1) (2 * k + 1) m))
    by now apply rect2_fold_mat.
  unfold folded_of. rewrite Hd. split.
  - now apply rect2_unshifted_right_half_mat.
  - intros i' j' Hi Hj.
    rewrite (unshifted_right_half_entries k _ Hk HF) by lia.
    assert (Hmod : (i' + k) mod (2 * k) < 2 * k)
      by (apply Nat.mod_upper_bound; lia).
    rewrite (fold_mat_entries k m Hk Hm) by lia.
    unfold folded_entry. rewrite Hd.
    destruct (Nat.eqb_spec j' 0) as [->|Hne].
    + replace (k + 1 <=? k + 0) with false
        by (symmetry; apply Nat.leb_gt; lia).
      now rewrite Nat.add_0_r.
    + replace (k + 1 <=? k + j') with true
        by (symmetry; apply Nat.leb_le; lia).
      reflexivity.
Qed.

(** X17: what [symmetrised_dft_to_rfft_2d] computes on any square
    spectrum of side [N + 1], [N] even and positive, symmetric or not (one
    matrix or a non-empty batch, in place or not): an [(N, N/2 + 1)]
    matrix per input matrix whose row [i'] reads input row
    [i = (i' + N/2) mod N]; its column 0 is the DC column of the input
    unchanged, and in column [j' >= 1] it holds the mean of entry
    [(i, N/2 + j')] and the conjugate of the point-reflected entry, where
    for [i = 0] that mean is further averaged with the one of row [N]. *)
Theorem symmetrised_dft_to_rfft_2d_entries (N : nat) (t : tensor)
  (h : heap) (l : loc) (inplace : option bool) :
  0 < N -> Nat.Even N -> ndim t <= 3 ->
  batch_of (rect2 (N + 1) (N + 1)) t ->
  nth_error h l = Some t ->
  exists out,
    value_of (symmetrised_dft_to_rfft_2d l inplace h) = Some out
    /\ rel_under2 (folded_of N) (as_batch t) out.
Proof.
  intros HN He Hnd Ht Hl. destruct (even_half N He) as [k [Hk _]]. subst N.
  assert (Hk : 1 <= k) by lia.
  rewrite symmetrised_dft_to_rfft_2d_value, Hl.
  assert (Hbatch : forall v, v <> [] ->
            Forall (rect2 (2 * k + 1) (2 * k + 1)) v ->
            exists out, rfft_2d_value (T3 v) = Some out
                        /\ rel_under2 (folded_of (2 * k)) (T3 v) out).
  { intros v Hne Hrect. rewrite (rfft_2d_value_batch k v Hne Hrect).
    eexists. split; [reflexivity|].
    cbn [rel_under2].
    apply Forall2_map_self with (P := rect2 (2 * k + 1) (2 * k + 1));
      [|exact Hrect].
    intros m Hm. now apply folded_of_fold. }
  destruct t as [m|v|b]; cbn [batch_of as_batch ndim] in *.
  - change (rfft_2d_value (T2 m)) with (rfft_2d_value (T3 [m])).
    apply Hbatch; [discriminate|]. constructor; [exact Ht|constructor].
  - destruct Ht as [Hne Hrect]. now apply Hbatch.
  - lia.
Qed.

Lemma symmetrised_dft_to_rfft_2d_entries_witness :
  exists out,
    value_of (symmetrised_dft_to_rfft_2d 0 None [T2 example_dft_5]) = Some out
    /\ rel_under2 (folded_of 4) (as_batch (T2 example_dft_5)) out.
Proof.
  apply (symmetrised_dft_to_rfft_2d_entries 4 (T2 example_dft_5)
           [T2 example_dft_5] 0 None).
  - lia.
  - exists 2. reflexivity.
  - cbn. lia.
  - split; [reflexivity|]. repeat constructor.
  - reflexivity.
Defined.
